(** * Blink-Detector: serial link, calibrated change detector, segmented
      recorder and correlation loop.

    Shallow embedding of
      - [DeviceSerialPort]            (serialport.js),
      - [CalibratedFlickerDetector]   (CalibratedFlickerDetector.js),
      - [BlinkCameraController]       (BlinkCameraController.js),
      - [IntegratedBlinkTest]         (integrated-test.js),
      - [FlickerDetector]             (FlickerDetector.js),
      - [DeviceSnapshotComparer]      (DeviceSnapshotComparer.js),
      - the recipe runner             (main.js),
    the properties of the specification that concern them, and further
    properties of the code.

    Conventions.
      - A JavaScript number that holds a sensor magnitude is a binary64
        float ([PrimFloat.float]); [null] is [None].
      - Counters and [Date.now()] readings are integers ([Z]); they stay far
        below 2^53, where binary64 arithmetic on integers is exact.
      - Strings on the serial link are ASCII ([String.string]).
      - Asynchronous code is cut at its suspension points: each callback is
        a function on the object's state, and what the environment does
        between two callbacks is an explicit input. *)

From Stdlib Require Import ZArith PrimFloat String Ascii List Bool Lia.
From stdpp Require Import gmap strings list sorting.

Local Open Scope Z_scope.
Set Warnings "-clear-no-such-hyp,-level-tolerance".

(* ===================================================================== *)
(** ** Two-element arrays indexed by sensor                              *)
(* ===================================================================== *)

(** The detector keeps [[x, y]] arrays that are only ever read and written
    at the literal indices 0 and 1. *)
Inductive sensor := Sensor1 | Sensor2.

Record arr2 (A : Type) := Arr2 { at0 : A; at1 : A }.
Arguments Arr2 {A} _ _.
Arguments at0 {A} _.
Arguments at1 {A} _.

Definition get {A} (a : arr2 A) (i : sensor) : A :=
  match i with Sensor1 => at0 a | Sensor2 => at1 a end.

Definition set {A} (a : arr2 A) (i : sensor) (v : A) : arr2 A :=
  match i with
  | Sensor1 => Arr2 v (at1 a)
  | Sensor2 => Arr2 (at0 a) v
  end.

Definition other (i : sensor) : sensor :=
  match i with Sensor1 => Sensor2 | Sensor2 => Sensor1 end.

Lemma get_set_same {A} (a : arr2 A) i v : get (set a i v) i = v.
Proof. by destruct i. Qed.

Lemma get_set_other {A} (a : arr2 A) i j v : i ≠ j → get (set a i v) j = get a j.
Proof. by destruct i, j. Qed.

(* ===================================================================== *)
(** ** CalibratedFlickerDetector                                         *)
(* ===================================================================== *)

Module Detector.

(** A reading: [{ value1, value2 }]. *)
Record reading := Reading { value1 : float; value2 : float }.

Definition value (r : reading) (i : sensor) : float :=
  match i with Sensor1 => value1 r | Sensor2 => value2 r end.

(** The fields of the constructor (the [device] is a separate object). *)
Record detector := Detector {
  isOn : arr2 bool;
  wasOn : arr2 bool;
  lastValue : arr2 (option float);
  threshold : arr2 (option float);
  blinkCount : arr2 Z;
  whiteValue : arr2 (option float);
  blackValue : arr2 (option float)
}.

Definition new : detector :=
  {| isOn := Arr2 false false;
     wasOn := Arr2 false false;
     lastValue := Arr2 None None;
     threshold := Arr2 None None;
     blinkCount := Arr2 0 0;
     whiteValue := Arr2 None None;
     blackValue := Arr2 None None |}.

Definition set_isOn (d : detector) (v : arr2 bool) : detector :=
  {| isOn := v; wasOn := wasOn d; lastValue := lastValue d;
     threshold := threshold d; blinkCount := blinkCount d;
     whiteValue := whiteValue d; blackValue := blackValue d |}.

Definition set_wasOn (d : detector) (v : arr2 bool) : detector :=
  {| isOn := isOn d; wasOn := v; lastValue := lastValue d;
     threshold := threshold d; blinkCount := blinkCount d;
     whiteValue := whiteValue d; blackValue := blackValue d |}.

Definition set_lastValue (d : detector) (v : arr2 (option float)) : detector :=
  {| isOn := isOn d; wasOn := wasOn d; lastValue := v;
     threshold := threshold d; blinkCount := blinkCount d;
     whiteValue := whiteValue d; blackValue := blackValue d |}.

Definition set_threshold (d : detector) (v : arr2 (option float)) : detector :=
  {| isOn := isOn d; wasOn := wasOn d; lastValue := lastValue d;
     threshold := v; blinkCount := blinkCount d;
     whiteValue := whiteValue d; blackValue := blackValue d |}.

Definition set_blinkCount (d : detector) (v : arr2 Z) : detector :=
  {| isOn := isOn d; wasOn := wasOn d; lastValue := lastValue d;
     threshold := threshold d; blinkCount := v;
     whiteValue := whiteValue d; blackValue := blackValue d |}.

(** [ToNumber] on a value that is a number or [null]: [null] is [+0]. *)
Definition toNumber (v : option float) : float :=
  match v with Some x => x | None => 0%float end.

(** [a >= b] on numbers (false when either side is NaN). *)
Definition geq (a b : float) : bool := PrimFloat.leb b a.

(** [Math.abs(a - b)]. *)
Definition absdiff (a b : float) : float := PrimFloat.abs (PrimFloat.sub a b).

(** One of the two "Process Sensor n" blocks of [detectStateChange]:
    returns the new state and [changes[i]]. *)
Definition processSensor (i : sensor) (currentValue : float) (d : detector)
  : detector * bool :=
  match get (lastValue d) i with
  | None =>
      (set_lastValue d (set (lastValue d) i (Some currentValue)), false)
  | Some last =>
      let change := absdiff currentValue last in
      let d := set_lastValue d (set (lastValue d) i (Some currentValue)) in
      let d := set_isOn d (set (isOn d) i (geq change (toNumber (get (threshold d) i)))) in
      (d, true)
  end.

Definition detectStateChange (currentValue1 currentValue2 : float) (d : detector)
  : detector * arr2 bool :=
  let '(d, c1) := processSensor Sensor1 currentValue1 d in
  let '(d, c2) := processSensor Sensor2 currentValue2 d in
  (d, Arr2 c1 c2).

(** [logBlink(sensorIndex)]: the console line is not modelled. *)
Definition logBlink (sensorIndex : sensor) (d : detector) : detector :=
  set_blinkCount d (set (blinkCount d) sensorIndex (get (blinkCount d) sensorIndex + 1)).

(** Feeding a sequence of readings, oldest first. *)
Definition feed (d : detector) (rs : list reading) : detector :=
  fold_left (λ d r, fst (detectStateChange (value1 r) (value2 r) d)) rs d.

(** *** Per-call facts *)

Lemma processSensor_frame i j v d :
  i ≠ j →
  get (lastValue (fst (processSensor i v d))) j = get (lastValue d) j ∧
  get (isOn (fst (processSensor i v d))) j = get (isOn d) j.
Proof.
  intros Hij. unfold processSensor.
  destruct (get (lastValue d) i); cbn; by rewrite ?get_set_other.
Qed.

Lemma processSensor_threshold i v d :
  threshold (fst (processSensor i v d)) = threshold d.
Proof. unfold processSensor. by destruct (get (lastValue d) i). Qed.

Lemma processSensor_counters i v d :
  blinkCount (fst (processSensor i v d)) = blinkCount d ∧
  wasOn (fst (processSensor i v d)) = wasOn d.
Proof. unfold processSensor. by destruct (get (lastValue d) i). Qed.

Lemma processSensor_first i v d :
  get (lastValue d) i = None →
  snd (processSensor i v d) = false ∧
  get (lastValue (fst (processSensor i v d))) i = Some v ∧
  isOn (fst (processSensor i v d)) = isOn d.
Proof.
  intros H. unfold processSensor. rewrite H. cbn. by rewrite get_set_same.
Qed.

Lemma processSensor_later i v d last :
  get (lastValue d) i = Some last →
  snd (processSensor i v d) = true ∧
  get (lastValue (fst (processSensor i v d))) i = Some v ∧
  get (isOn (fst (processSensor i v d))) i
    = geq (absdiff v last) (toNumber (get (threshold d) i)).
Proof.
  intros H. unfold processSensor. rewrite H. cbn. by rewrite !get_set_same.
Qed.

(** The two blocks of [detectStateChange] do not interfere: channel [i]
    of the result is what [processSensor i] alone computes. *)
Lemma detectStateChange_channel v1 v2 d i :
  let r := Reading v1 v2 in
  let res := detectStateChange v1 v2 d in
  let one := processSensor i (value r i) d in
  get (snd res) i = snd one ∧
  get (lastValue (fst res)) i = get (lastValue (fst one)) i ∧
  get (isOn (fst res)) i = get (isOn (fst one)) i ∧
  threshold (fst res) = threshold d ∧
  blinkCount (fst res) = blinkCount d ∧
  wasOn (fst res) = wasOn d.
Proof.
  cbn zeta. unfold detectStateChange, processSensor.
  destruct d as [on was [l0 l1] thr cnt wv bv].
  destruct i, l0, l1; cbn; done.
Qed.

Lemma feed_snoc d rs r :
  feed d (rs ++ [r]) = fst (detectStateChange (value1 r) (value2 r) (feed d rs)).
Proof. unfold feed. by rewrite fold_left_app. Qed.

Lemma feed_threshold d rs : threshold (feed d rs) = threshold d.
Proof.
  induction rs as [|r rs IH] using rev_ind; [done|].
  rewrite feed_snoc.
  destruct (detectStateChange_channel (value1 r) (value2 r) (feed d rs) Sensor1)
    as (_ & _ & _ & T & _).
  congruence.
Qed.

(** After at least one reading the stored magnitude of every channel is
    the last reading's. *)
Lemma feed_lastValue d rs r i :
  get (lastValue (feed d (rs ++ [r]))) i = Some (value r i).
Proof.
  rewrite feed_snoc.
  destruct (detectStateChange_channel (value1 r) (value2 r) (feed d rs) i)
    as (_ & L & _).
  rewrite L. destruct r as [v1 v2]; cbn [value1 value2].
  destruct (get (lastValue (feed d rs)) i) eqn:E.
  - by destruct (processSensor_later i (value (Reading v1 v2) i) _ _ E) as (_ & ? & _).
  - by destruct (processSensor_first i (value (Reading v1 v2) i) _ E) as (_ & ? & _).
Qed.

End Detector.


(* ===================================================================== *)
(** ** Strings and paths                                                  *)
(* ===================================================================== *)

(** [s.endsWith(suffix)]. *)
Definition endsWith (s suffix : string) : bool :=
  let n := String.length s in
  let k := String.length suffix in
  (k <=? n)%nat && String.eqb (substring (n - k) k s) suffix.


(** A JavaScript string used as a condition: only the empty one is falsy. *)
Definition truthy (s : string) : bool := negb (String.eqb s "").

(** A file path, kept as the pair of its directory and its base name:
    [path.join(dir, file)] is [(dir, file)] and [path.basename] is the
    second component. *)
Definition fpath : Type := string * string.

Definition path_join (dir file : string) : fpath := (dir, file).
Definition basename (p : fpath) : string := snd p.
Definition dirname (p : fpath) : string := fst p.

(** A path string used as a condition: it is empty only when both parts are. *)
Definition truthy_path (p : fpath) : bool := truthy (dirname p) || truthy (basename p).

(** The file system, as far as the recorder sees it: the set of existing
    files. The [fs.*Sync] calls return [None] where Node throws. *)
Definition unlinkSync (p : fpath) (fs : gset fpath) : option (gset fpath) :=
  if decide (p ∈ fs) then Some (fs ∖ {[p]}) else None.

Definition renameSync (oldPath newPath : fpath) (fs : gset fpath) : option (gset fpath) :=
  if decide (oldPath ∈ fs) then Some ((fs ∖ {[oldPath]}) ∪ {[newPath]}) else None.

(** [fs.readdirSync(dir)]: the base names of the files of [dir], in the
    order of [elements]; nothing below depends on the order. *)
Definition readdirSync (dir : string) (fs : gset fpath) : list string :=
  omap (λ p : fpath, if decide (dirname p = dir) then Some (basename p) else None)
       (elements fs).

(** [try { body } catch (error) { log }]: a throw leaves the files as they were. *)
Definition try_fs (r : option (gset fpath)) (fs : gset fpath) : gset fpath :=
  default fs r.

Lemma elem_of_readdirSync dir fs f :
  f ∈ readdirSync dir fs ↔ path_join dir f ∈ fs.
Proof.
  unfold readdirSync, path_join. rewrite list_elem_of_omap. split.
  - intros ([d b] & Hin & Hsome). cbn in Hsome.
    case_decide; [|done]. inversion Hsome; subst. by apply elem_of_elements in Hin.
  - intros Hin. exists (dir, f). split; [by apply elem_of_elements|].
    cbn. by rewrite decide_True.
Qed.


Lemma unlinkSync_try p fs : try_fs (unlinkSync p fs) fs = fs ∖ {[p]}.
Proof.
  unfold try_fs, unlinkSync. case_decide; cbn; [done|]. set_solver.
Qed.



(* ===================================================================== *)
(** ** BlinkCameraController                                              *)
(* ===================================================================== *)

Module Recorder.

(** An entry of [videoQueue]: [{ path, timestamp }]. *)
Record segment := Segment { path : fpath; timestamp : Z }.

(** The fields of the constructor. [bufferProcess] and [cleanupInterval]
    record whether the field is non-null; [cameraName] plays no role. *)
Record controller := Controller {
  outputDir : string;
  bufferProcess : bool;
  segmentsWithBlinks : gset fpath;
  currentSegment : option fpath;
  videoQueue : list segment;
  cleanupInterval : bool;
  segmentDuration : Z;
  retentionWindow : Z
}.

(** [new BlinkCameraController()], with [dir] for
    [path.join(os.homedir(), 'BlinkVideos')]. *)
Definition new (dir : string) : controller :=
  {| outputDir := dir;
     bufferProcess := false;
     segmentsWithBlinks := ∅;
     currentSegment := None;
     videoQueue := [];
     cleanupInterval := false;
     segmentDuration := 30;
     retentionWindow := 2 |}.

Definition set_bufferProcess (c : controller) (v : bool) : controller :=
  {| outputDir := outputDir c; bufferProcess := v;
     segmentsWithBlinks := segmentsWithBlinks c;
     currentSegment := currentSegment c; videoQueue := videoQueue c;
     cleanupInterval := cleanupInterval c;
     segmentDuration := segmentDuration c; retentionWindow := retentionWindow c |}.

Definition set_segmentsWithBlinks (c : controller) (v : gset fpath) : controller :=
  {| outputDir := outputDir c; bufferProcess := bufferProcess c;
     segmentsWithBlinks := v;
     currentSegment := currentSegment c; videoQueue := videoQueue c;
     cleanupInterval := cleanupInterval c;
     segmentDuration := segmentDuration c; retentionWindow := retentionWindow c |}.

Definition set_currentSegment (c : controller) (v : option fpath) : controller :=
  {| outputDir := outputDir c; bufferProcess := bufferProcess c;
     segmentsWithBlinks := segmentsWithBlinks c;
     currentSegment := v; videoQueue := videoQueue c;
     cleanupInterval := cleanupInterval c;
     segmentDuration := segmentDuration c; retentionWindow := retentionWindow c |}.

Definition set_videoQueue (c : controller) (v : list segment) : controller :=
  {| outputDir := outputDir c; bufferProcess := bufferProcess c;
     segmentsWithBlinks := segmentsWithBlinks c;
     currentSegment := currentSegment c; videoQueue := v;
     cleanupInterval := cleanupInterval c;
     segmentDuration := segmentDuration c; retentionWindow := retentionWindow c |}.

Definition set_cleanupInterval (c : controller) (v : bool) : controller :=
  {| outputDir := outputDir c; bufferProcess := bufferProcess c;
     segmentsWithBlinks := segmentsWithBlinks c;
     currentSegment := currentSegment c; videoQueue := videoQueue c;
     cleanupInterval := v;
     segmentDuration := segmentDuration c; retentionWindow := retentionWindow c |}.

(** The controller together with what it acts on: the files, and how many
    times [Date.now()] has been read so far. *)
Record world := World {
  ctl : controller;
  files : gset fpath;
  ticks : nat
}.

(** [retentionPeriod] of [performCleanup], in milliseconds. *)
Definition retentionPeriod (c : controller) : Z :=
  segmentDuration c * 1000 * retentionWindow c.

(** [segment => path.basename(segment) === file] over
    [Array.from(this.segmentsWithBlinks)]. *)
Definition shouldSave (c : controller) (file : string) : bool :=
  existsb (λ segment, String.eqb (basename segment) file)
          (elements (segmentsWithBlinks c)).

(** The [while] loop of [performCleanup]: [shift] the head while it is older
    than the retention period, [unlinkSync] it unless it is in
    [segmentsWithBlinks]. *)
Fixpoint cleanupLoop (now period : Z) (marks : gset fpath)
    (queue : list segment) (fs : gset fpath) : list segment * gset fpath :=
  match queue with
  | [] => ([], fs)
  | segment :: rest =>
      if now - timestamp segment >? period then
        let fs :=
          if decide (path segment ∈ marks) then fs
          else try_fs (unlinkSync (path segment) fs) fs in
        cleanupLoop now period marks rest fs
      else (queue, fs)
  end.

(** [performCleanup()] when [Date.now()] returns [now]. *)
Definition performCleanup (now : Z) (c : controller) (fs : gset fpath)
  : controller * gset fpath :=
  let '(queue, fs) :=
    cleanupLoop now (retentionPeriod c) (segmentsWithBlinks c) (videoQueue c) fs in
  (set_videoQueue c queue, fs).

(** [handleBlinkDetected()]. *)
Definition handleBlinkDetected (c : controller) : controller :=
  match currentSegment c with
  | Some cur =>
      if truthy_path cur
      then set_segmentsWithBlinks c ({[cur]} ∪ segmentsWithBlinks c)
      else c
  | None => c
  end.

(** One file of the loop of [processVideos]. *)
Definition processFile (c : controller) (fs : gset fpath) (file : string)
  : gset fpath :=
  if endsWith file ".mp4" then
    let filePath := path_join (outputDir c) file in
    if shouldSave c file then
      let newName := ("blink_" ++ file)%string in
      try_fs (renameSync filePath (path_join (outputDir c) newName) fs) fs
    else try_fs (unlinkSync filePath fs) fs
  else fs.

(** [processVideos()]: the final sweep over the output directory. *)
Definition processVideos (c : controller) (fs : gset fpath) : gset fpath :=
  fold_left (processFile c) (readdirSync (outputDir c) fs) fs.

(** [cleanOutputDirectory()]. *)
Definition cleanOutputDirectory (c : controller) (fs : gset fpath) : gset fpath :=
  fold_left
    (λ fs file,
       if endsWith file ".mp4"
       then try_fs (unlinkSync (path_join (outputDir c) file) fs) fs
       else fs)
    (readdirSync (outputDir c) fs) fs.

Section Clock.

(** [clock k] is what the [k]-th call of [Date.now()] returns. *)
Variable clock : nat → Z.

Definition Date_now (w : world) : Z * world :=
  (clock (ticks w), {| ctl := ctl w; files := files w; ticks := S (ticks w) |}).

(** [performCleanup()] as a step of the world. *)
Definition cleanupNow (w : world) : world :=
  let '(now, w) := Date_now w in
  let '(c, fs) := performCleanup now (ctl w) (files w) in
  {| ctl := c; files := fs; ticks := ticks w |}.

(** The [stderr] handler of [startContinuousRecording] on a chunk for which
    [output.match(/Opening '(.+)' for writing/)] yields [opened]. *)
Definition onOpening (opened : fpath) (w : world) : world :=
  let previousSegment := currentSegment (ctl w) in
  let w := {| ctl := set_currentSegment (ctl w) (Some opened);
              files := files w; ticks := ticks w |} in
  match previousSegment with
  | Some prev =>
      if truthy_path prev then
        let '(now, w) := Date_now w in
        let c := set_videoQueue (ctl w) (videoQueue (ctl w) ++ [Segment prev now]) in
        cleanupNow {| ctl := c; files := files w; ticks := ticks w |}
      else w
  | None => w
  end.

(** What reaches the controller during a run: the encoder reports a new
    output target on [stderr] (one report per chunk), the correlator calls
    [handleBlinkDetected], or the [setInterval] callback fires. *)
Inductive event :=
| Opening (opened : fpath)
| BlinkDetected
| CleanupTick.

(** The encoder creates the file it reports as opened. *)
Definition encoderCreates (opened : fpath) (w : world) : world :=
  {| ctl := ctl w; files := {[opened]} ∪ files w; ticks := ticks w |}.

Definition step (w : world) (e : event) : world :=
  match e with
  | Opening opened => onOpening opened (encoderCreates opened w)
  | BlinkDetected =>
      {| ctl := handleBlinkDetected (ctl w); files := files w; ticks := ticks w |}
  | CleanupTick => cleanupNow w
  end.

Definition run (w : world) (evs : list event) : world := fold_left step evs w.

(** [startContinuousRecording()]: reads the clock for the run's time stamp,
    spawns the encoder and sets the cleanup interval. The output directory
    is created if missing, which adds no file. *)
Definition startContinuousRecording (w : world) : world :=
  let '(_, w) := Date_now w in
  {| ctl := set_cleanupInterval (set_bufferProcess (ctl w) true) true;
     files := files w;
     ticks := ticks w |}.

(** [initialize()], when the encoder and the camera answer: the output
    directory is emptied of [.mp4] files. *)
Definition initialize (w : world) : world :=
  {| ctl := ctl w; files := cleanOutputDirectory (ctl w) (files w); ticks := ticks w |}.

(** The state in which a run begins: a new controller, initialized and
    started, over the files [fs]. *)
Definition start (dir : string) (fs : gset fpath) : world :=
  startContinuousRecording
    (initialize {| ctl := new dir; files := fs; ticks := 0 |}).

(** [while (this.videoQueue.length > 0) await this.performCleanup()].
    [None]: the loop is still running when the fuel is spent. *)
Fixpoint drain (fuel : nat) (w : world) : option world :=
  match videoQueue (ctl w) with
  | [] => Some w
  | _ :: _ =>
      match fuel with
      | O => None
      | S fuel => drain fuel (cleanupNow w)
      end
  end.

(** [stopRecording()], from the call of [processVideos] on: the encoder's
    [exit] has been observed and the one-second wait is over. What follows
    only yields to promise jobs, so no timer and no stream callback runs in
    between. *)
Definition stopRecording (fuel : nat) (w : world) : option world :=
  let w :=
    if bufferProcess (ctl w) then
      {| ctl := set_bufferProcess (ctl w) false;
         files := processVideos (ctl w) (files w);
         ticks := ticks w |}
    else w in
  let w :=
    if cleanupInterval (ctl w) then
      {| ctl := set_cleanupInterval (ctl w) false; files := files w; ticks := ticks w |}
    else w in
  drain fuel w.

End Clock.

(** *** The cleanup loop *)

(** Older than the retention period at [now]. *)
Definition aged (now period : Z) (s : segment) : Prop := now - timestamp s > period.

(** The files the loop unlinks when it shifts [shifted]. *)
Definition unlinked (marks : gset fpath) (shifted : list segment) : gset fpath :=
  list_to_set (filter (λ p, p ∉ marks) (path <$> shifted)).

Lemma cleanupLoop_split now period marks queue fs :
  ∃ shifted,
    queue = shifted ++ fst (cleanupLoop now period marks queue fs) ∧
    Forall (aged now period) shifted ∧
    match fst (cleanupLoop now period marks queue fs) with
    | [] => True
    | s :: _ => ¬ aged now period s
    end ∧
    snd (cleanupLoop now period marks queue fs) = fs ∖ unlinked marks shifted.
Proof.
  revert fs. induction queue as [|s queue IH]; intros fs; cbn [cleanupLoop].
  - exists []. cbn. repeat split; [constructor|]. unfold unlinked. cbn. set_solver.
  - destruct (now - timestamp s >? period) eqn:E.
    + set (fs1 := if decide (path s ∈ marks) then fs
                  else try_fs (unlinkSync (path s) fs) fs).
      destruct (IH fs1) as (shifted & Hq & Hall & Hhead & Hfs).
      exists (s :: shifted). repeat split.
      * cbn. by rewrite <- Hq.
      * constructor; [|done]. unfold aged. lia.
      * done.
      * rewrite Hfs. unfold unlinked, fs1. rewrite fmap_cons.
        rewrite filter_cons. destruct (decide (path s ∈ marks)) as [Hm|Hm].
        -- rewrite decide_False by (intros ?; done). done.
        -- rewrite decide_True by done.
           rewrite unlinkSync_try. cbn. set_solver.
    + exists []. cbn. repeat split; [constructor| |].
      * unfold aged. lia.
      * unfold unlinked. cbn. set_solver.
Qed.

Lemma cleanupLoop_subset now period marks queue fs :
  snd (cleanupLoop now period marks queue fs) ⊆ fs.
Proof.
  destruct (cleanupLoop_split now period marks queue fs) as (sh & _ & _ & _ & ->).
  set_solver.
Qed.

Lemma elem_of_unlinked marks shifted p :
  p ∈ unlinked marks shifted ↔ p ∉ marks ∧ ∃ s, s ∈ shifted ∧ path s = p.
Proof.
  unfold unlinked. rewrite elem_of_list_to_set, list_elem_of_filter, list_elem_of_fmap.
  naive_solver.
Qed.

Lemma cleanupLoop_marked_kept now period marks queue fs p :
  p ∈ marks → p ∈ fs → p ∈ snd (cleanupLoop now period marks queue fs).
Proof.
  intros Hm Hin.
  destruct (cleanupLoop_split now period marks queue fs) as (sh & _ & _ & _ & ->).
  apply elem_of_difference. split; [done|].
  rewrite elem_of_unlinked. naive_solver.
Qed.

Lemma cleanupLoop_unqueued_kept now period marks queue fs p :
  p ∉ path <$> queue → p ∈ fs → p ∈ snd (cleanupLoop now period marks queue fs).
Proof.
  intros Hq Hin.
  destruct (cleanupLoop_split now period marks queue fs) as (sh & Heq & _ & _ & ->).
  apply elem_of_difference. split; [done|].
  rewrite elem_of_unlinked. intros (_ & s & Hs & <-). apply Hq.
  rewrite Heq, fmap_app. apply elem_of_app. left.
  apply list_elem_of_fmap. by exists s.
Qed.

Lemma cleanupLoop_suffix now period marks queue fs :
  fst (cleanupLoop now period marks queue fs) `suffix_of` queue.
Proof.
  destruct (cleanupLoop_split now period marks queue fs) as (sh & Heq & _).
  by exists sh.
Qed.



(** *** The final sweep *)



Lemma cleanOutputDirectory_elem c fs x :
  x ∈ cleanOutputDirectory c fs ↔
    x ∈ fs ∧ ¬ (dirname x = outputDir c ∧ endsWith (basename x) ".mp4" = true).
Proof.
  unfold cleanOutputDirectory.
  assert (∀ listing fs0,
    x ∈ fold_left
          (λ fs file,
             if endsWith file ".mp4"
             then try_fs (unlinkSync (path_join (outputDir c) file) fs) fs
             else fs) listing fs0 ↔
    x ∈ fs0 ∧ ¬ ∃ f, f ∈ listing ∧ endsWith f ".mp4" = true ∧
                     x = path_join (outputDir c) f) as Hfold.
  { induction listing as [|f listing IH]; intros fs0; cbn [fold_left].
    - split; [intros ?; split; [done|]|by intros [? _]].
      intros (g & Hg & _). by apply not_elem_of_nil in Hg.
    - rewrite IH. destruct (endsWith f ".mp4") eqn:E.
      + rewrite unlinkSync_try, elem_of_difference, elem_of_singleton. split.
        * intros [[Hx Hne] Hno]. split; [done|]. intros (g & Hg & Hm & ->).
          apply elem_of_cons in Hg as [->|Hg]; [done|]. apply Hno; eauto.
        * intros [Hx Hno]. repeat split; [done| |].
          -- intros ->. apply Hno. exists f. repeat split; [by left|done].
          -- intros (g & Hg & Hm & ->). apply Hno. exists g.
             repeat split; [by right|done].
      + split.
        * intros [Hx Hno]. split; [done|]. intros (g & Hg & Hm & ->).
          apply elem_of_cons in Hg as [->|Hg]; [congruence|]. apply Hno; eauto.
        * intros [Hx Hno]. split; [done|]. intros (g & Hg & Hm & ->).
          apply Hno. exists g. repeat split; [by right|done]. }
  rewrite Hfold. split.
  - intros [Hx Hno]. split; [done|]. intros [Hd Hm]. apply Hno.
    exists (basename x). rewrite elem_of_readdirSync.
    destruct x as [d b]; cbn in *. subst d. done.
  - intros [Hx Hno]. split; [done|]. intros (g & Hg & Hm & ->). by apply Hno.
Qed.

(** *** Runs of the recorder *)

(** The output targets the encoder opened, oldest first. *)
Definition opened (evs : list event) : list fpath :=
  omap (λ e, match e with Opening p => Some p | _ => None end) evs.


Section Runs.

Variable clock : nat → Z.
Variable dir : string.

(** What holds of the files, the marks and the queue throughout a run in
    which the encoder has opened the targets [seen], each once. *)
Record inv (seen : gset fpath) (w : world) : Prop := {
  inv_dir : outputDir (ctl w) = dir;
  inv_process : bufferProcess (ctl w) = true;
  inv_files : ∀ f, path_join dir f ∈ files w → endsWith f ".mp4" = true →
                   path_join dir f ∈ seen;
  inv_marks : ∀ p, p ∈ segmentsWithBlinks (ctl w) → p ∈ files w ∧ p ∈ seen;
  inv_current : ∀ cur, currentSegment (ctl w) = Some cur →
                       cur ∈ files w ∧ cur ∈ seen ∧
                       cur ∉ path <$> videoQueue (ctl w);
  inv_queue : ∀ s, s ∈ videoQueue (ctl w) → path s ∈ seen
}.


Lemma cleanupNow_unfold w :
  let r := cleanupLoop (clock (ticks w)) (retentionPeriod (ctl w))
             (segmentsWithBlinks (ctl w)) (videoQueue (ctl w)) (files w) in
  cleanupNow clock w
  = {| ctl := set_videoQueue (ctl w) (fst r); files := snd r; ticks := S (ticks w) |}.
Proof.
  cbn zeta. unfold cleanupNow, Date_now, performCleanup. cbn.
  by destruct (cleanupLoop _ _ _ _ _).
Qed.

Lemma cleanupNow_inv seen w : inv seen w → inv seen (cleanupNow clock w).
Proof.
  intros [Hd Hp Hf Hm Hc Hq]. rewrite cleanupNow_unfold.
  pose proof (cleanupLoop_subset (clock (ticks w)) (retentionPeriod (ctl w))
    (segmentsWithBlinks (ctl w)) (videoQueue (ctl w)) (files w)) as Hsub.
  pose proof (cleanupLoop_suffix (clock (ticks w)) (retentionPeriod (ctl w))
    (segmentsWithBlinks (ctl w)) (videoQueue (ctl w)) (files w)) as [sh Hsuf].
  assert (∀ s, s ∈ fst (cleanupLoop (clock (ticks w)) (retentionPeriod (ctl w))
    (segmentsWithBlinks (ctl w)) (videoQueue (ctl w)) (files w)) →
    s ∈ videoQueue (ctl w)) as Hin.
  { intros s Hs. rewrite Hsuf. apply elem_of_app. by right. }
  split; cbn.
  - done.
  - done.
  - intros f Hin' Hmp4. apply Hf; [|done]. by apply Hsub.
  - intros p Hp'. destruct (Hm p Hp') as [? ?]. split; [|done].
    by apply cleanupLoop_marked_kept.
  - intros cur Hcur. destruct (Hc cur Hcur) as (? & ? & Hnq). repeat split; [|done|].
    + by apply cleanupLoop_unqueued_kept.
    + intros (s & -> & Hs)%list_elem_of_fmap. apply Hnq.
      apply list_elem_of_fmap. exists s. split; [done|]. by apply Hin.
  - intros s Hs. apply Hq. by apply Hin.
Qed.


Lemma onOpening_unfold p w :
  onOpening clock p w
  = let c := set_currentSegment (ctl w) (Some p) in
    match currentSegment (ctl w) with
    | Some prev =>
        if truthy_path prev then
          cleanupNow clock
            {| ctl := set_videoQueue c
                        (videoQueue (ctl w) ++ [Segment prev (clock (ticks w))]);
               files := files w; ticks := S (ticks w) |}
        else {| ctl := c; files := files w; ticks := ticks w |}
    | None => {| ctl := c; files := files w; ticks := ticks w |}
    end.
Proof.
  unfold onOpening. destruct (currentSegment (ctl w)); [|done].
  by destruct (truthy_path _).
Qed.

Lemma step_inv seen w e :
  inv seen w →
  (∀ p, e = Opening p → p ∉ seen) →
  inv (list_to_set (opened [e]) ∪ seen) (step clock w e).
Proof.
  intros Hinv Hfresh. destruct e as [p| |].
  - assert (list_to_set (opened [Opening p]) ∪ seen = {[p]} ∪ seen) as ->
      by (cbn; set_solver).
    specialize (Hfresh p eq_refl).
    destruct Hinv as [Hd Hp Hf Hm Hc Hq].
    assert (∀ now, inv ({[p]} ∪ seen)
      {| ctl := set_currentSegment (ctl w) (Some p);
         files := {[p]} ∪ files w; ticks := now |}) as Hnopush.
    { intros now. split; cbn; try done.
      - intros f [Hin|Hin]%elem_of_union Hmp4; [set_solver|].
        apply elem_of_union. right. by apply Hf.
      - intros q Hq'. destruct (Hm q Hq'). set_solver.
      - intros cur [= <-]. repeat split; [set_solver|set_solver|].
        intros (s & -> & Hs)%list_elem_of_fmap. apply Hfresh. by apply Hq.
      - intros s Hs. apply elem_of_union. right. by apply Hq. }
    unfold step. rewrite onOpening_unfold. unfold encoderCreates.
    cbn [ctl files ticks]. cbn zeta.
    destruct (currentSegment (ctl w)) as [prev|] eqn:Eprev; [|apply Hnopush].
    destruct (truthy_path prev); [|apply Hnopush].
    apply cleanupNow_inv.
    destruct (Hnopush (S (ticks w))) as [Hd' Hp' Hf' Hm' Hc' Hq'].
    destruct (Hc prev eq_refl) as (Hprev_files & Hprev_seen & Hprev_q).
    split; cbn in *; try done.
    + intros cur [= <-]. repeat split; [set_solver|set_solver|].
      rewrite fmap_app. intros [Hin|Hin]%elem_of_app.
      * apply list_elem_of_fmap in Hin as (s & -> & Hs). apply Hfresh. by apply Hq.
      * cbn in Hin. apply list_elem_of_singleton in Hin. by subst.
    + intros s [Hs|Hs]%elem_of_app.
      * by apply Hq'.
      * apply list_elem_of_singleton in Hs. subst s. cbn. set_solver.
  - assert (list_to_set (opened [BlinkDetected]) ∪ seen = seen) as ->
      by (cbn; set_solver).
    destruct Hinv as [Hd Hp Hf Hm Hc Hq].
    unfold step, handleBlinkDetected.
    destruct (currentSegment (ctl w)) as [cur|] eqn:Ecur;
      [|split; cbn; rewrite ?Ecur; done].
    destruct (truthy_path cur); [|split; cbn; rewrite ?Ecur; done].
    destruct (Hc cur eq_refl) as (? & ? & ?).
    split; cbn; rewrite ?Ecur; try done.
    intros q [->%elem_of_singleton|Hq']%elem_of_union; [done|]. by apply Hm.
  - assert (list_to_set (opened [CleanupTick]) ∪ seen = seen) as ->
      by (cbn; set_solver).
    by apply cleanupNow_inv.
Qed.

Lemma run_inv evs : ∀ seen w,
  inv seen w →
  NoDup (opened evs) →
  (∀ p, p ∈ opened evs → p ∉ seen) →
  inv (list_to_set (opened evs) ∪ seen) (run clock w evs).
Proof.
  induction evs as [|e evs IH]; intros seen w Hinv Hnd Hfresh.
  - assert (list_to_set (opened []) ∪ seen = seen) as -> by (cbn; set_solver).
    done.
  - cbn [run fold_left].
    assert (opened (e :: evs) = opened [e] ++ opened evs) as Hop.
    { unfold opened. cbn. by destruct e. }
    rewrite Hop in Hnd, Hfresh |- *.
    apply NoDup_app in Hnd as (Hnd1 & Hdisj & Hnd2).
    replace (list_to_set (opened [e] ++ opened evs) ∪ seen)
      with (list_to_set (opened evs) ∪ (list_to_set (opened [e]) ∪ seen)).
    2:{ rewrite list_to_set_app_L. set_solver. }
    apply IH; [|done|].
    + apply step_inv; [done|]. intros p ->. apply Hfresh. cbn. set_solver.
    + intros p Hp [Hin|Hin]%elem_of_union.
      * apply elem_of_list_to_set in Hin. by apply (Hdisj p).
      * apply (Hfresh p); [|done]. apply elem_of_app. by right.
Qed.

Lemma start_inv fs : inv ∅ (start clock dir fs).
Proof.
  split; cbn; [done|done| |set_solver|done|set_solver].
  intros f Hin Hmp4. apply cleanOutputDirectory_elem in Hin as [_ Hno].
  exfalso. apply Hno. by cbn.
Qed.




(** *** The drain loop of [stopRecording] *)

Lemma cleanupNow_frame w :
  let w' := cleanupNow clock w in
  outputDir (ctl w') = outputDir (ctl w) ∧
  bufferProcess (ctl w') = bufferProcess (ctl w) ∧
  segmentsWithBlinks (ctl w') = segmentsWithBlinks (ctl w) ∧
  currentSegment (ctl w') = currentSegment (ctl w) ∧
  cleanupInterval (ctl w') = cleanupInterval (ctl w) ∧
  retentionPeriod (ctl w') = retentionPeriod (ctl w) ∧
  ticks w' = S (ticks w) ∧
  videoQueue (ctl w') `suffix_of` videoQueue (ctl w) ∧
  files w' ⊆ files w ∧
  (∀ x, x ∈ files w →
        x ∈ segmentsWithBlinks (ctl w) ∨ x ∉ path <$> videoQueue (ctl w) →
        x ∈ files w').
Proof.
  cbn zeta. rewrite cleanupNow_unfold. cbn.
  repeat split.
  - apply cleanupLoop_suffix.
  - apply cleanupLoop_subset.
  - intros x Hx [Hm|Hq].
    + by apply cleanupLoop_marked_kept.
    + by apply cleanupLoop_unqueued_kept.
Qed.

Lemma drain_frame fuel : ∀ w w',
  drain clock fuel w = Some w' →
  videoQueue (ctl w') = [] ∧
  outputDir (ctl w') = outputDir (ctl w) ∧
  bufferProcess (ctl w') = bufferProcess (ctl w) ∧
  segmentsWithBlinks (ctl w') = segmentsWithBlinks (ctl w) ∧
  currentSegment (ctl w') = currentSegment (ctl w) ∧
  cleanupInterval (ctl w') = cleanupInterval (ctl w) ∧
  files w' ⊆ files w ∧
  (∀ x, x ∈ files w →
        x ∈ segmentsWithBlinks (ctl w) ∨ x ∉ path <$> videoQueue (ctl w) →
        x ∈ files w').
Proof.
  induction fuel as [|fuel IH]; intros w w' Hd; cbn [drain] in Hd.
  - destruct (videoQueue (ctl w)) eqn:Eq; [|done]. inversion Hd; subst.
    repeat split; done.
  - destruct (videoQueue (ctl w)) as [|h rest] eqn:Eq.
    + inversion Hd; subst. repeat split; done.
    + apply IH in Hd as (Hq & Ho & Hb & Hm & Hc & Hi & Hsub & Hkeep).
      destruct (cleanupNow_frame w)
        as (Ho' & Hb' & Hm' & Hc' & Hi' & _ & _ & [sh Hsuf] & Hsub' & Hkeep').
      repeat split; try congruence.
      * set_solver.
      * intros x Hx Hcase. apply Hkeep.
        -- apply Hkeep'; [done|]. by rewrite Eq.
        -- rewrite Hm'. destruct Hcase as [?|Hnq]; [by left|right].
           intros Hin. apply Hnq. rewrite <- Eq, Hsuf, fmap_app.
           apply elem_of_app. by right.
Qed.

(** If the head of the queue is older than the retention period when the
    clock is read, [performCleanup] shortens the queue; otherwise it leaves
    the queue as it is. *)
Lemma cleanupNow_head w h rest :
  videoQueue (ctl w) = h :: rest →
  (aged (clock (ticks w)) (retentionPeriod (ctl w)) h →
     (length (videoQueue (ctl (cleanupNow clock w))) < length (h :: rest))%nat) ∧
  (¬ aged (clock (ticks w)) (retentionPeriod (ctl w)) h →
     videoQueue (ctl (cleanupNow clock w)) = h :: rest).
Proof.
  intros Eq. rewrite cleanupNow_unfold. cbn. rewrite Eq. cbn [cleanupLoop].
  unfold aged. split; intros Ha.
  - rewrite (proj2 (Z.gtb_gt _ _)) by lia.
    match goal with |- context [cleanupLoop ?n ?p ?m rest ?f] =>
      destruct (cleanupLoop_suffix n p m rest f) as [sh Hsuf] end.
    cbn [length]. rewrite Hsuf at 2. rewrite length_app. lia.
  - destruct (_ >? _) eqn:E; [|done]. apply Z.gtb_gt in E. lia.
Qed.

Lemma drain_terminates :
  (∀ T k, ∃ j, (k ≤ j)%nat ∧ T < clock j) →
  ∀ w, ∃ fuel w', drain clock fuel w = Some w'.
Proof.
  intros Hprogress w.
  remember (length (videoQueue (ctl w))) as n eqn:Hn.
  revert w Hn. induction n as [n IHn] using lt_wf_ind. intros w Hn.
  destruct (videoQueue (ctl w)) as [|h rest] eqn:Eq.
  { exists O, w. cbn. by rewrite Eq. }
  destruct (Hprogress (timestamp h + retentionPeriod (ctl w)) (ticks w))
    as (j & Hj & Hclock).
  assert (∃ d, j = (ticks w + d)%nat) as [d ->] by (exists (j - ticks w)%nat; lia).
  clear Hj. revert w Hn Eq Hclock.
  induction d as [|d IHd]; intros w Hn Eq Hclock.
  - destruct (cleanupNow_head w h rest Eq) as [Hshort _].
    rewrite Nat.add_0_r in Hclock.
    specialize (Hshort ltac:(unfold aged; lia)).
    destruct (IHn _ ltac:(subst n; exact Hshort) (cleanupNow clock w) eq_refl)
      as (fuel & w' & Hd).
    exists (S fuel), w'. cbn [drain]. by rewrite Eq.
  - destruct (cleanupNow_head w h rest Eq) as [Hshort Hsame].
    destruct (Z_gt_dec (clock (ticks w) - timestamp h) (retentionPeriod (ctl w)))
      as [Ha|Ha]; fold (aged (clock (ticks w)) (retentionPeriod (ctl w)) h) in Ha.
    + destruct (IHn _ ltac:(subst n; exact (Hshort Ha)) (cleanupNow clock w) eq_refl)
        as (fuel & w' & Hd).
      exists (S fuel), w'. cbn [drain]. by rewrite Eq.
    + specialize (Hsame Ha).
      destruct (cleanupNow_frame w) as (_ & _ & _ & _ & _ & Hper & Hticks & _).
      destruct (IHd (cleanupNow clock w)) as (fuel & w' & Hd).
      * done.
      * done.
      * rewrite Hper, Hticks. by replace (S (ticks w) + d)%nat with (ticks w + S d)%nat by lia.
      * exists (S fuel), w'. cbn [drain]. by rewrite Eq.
Qed.






End Runs.

End Recorder.


(* ===================================================================== *)
(** ** Text of the serial protocol                                        *)
(* ===================================================================== *)

(** The characters of [\d]. *)
Definition is_digit (a : ascii) : bool :=
  let n := nat_of_ascii a in (48 <=? n)%nat && (n <=? 57)%nat.

(** The ASCII characters of [\s] (and of [trim]): tab, line feed, vertical
    tab, form feed, carriage return, space. *)
Definition is_space (a : ascii) : bool :=
  let n := nat_of_ascii a in ((9 <=? n)%nat && (n <=? 13)%nat) || (n =? 32)%nat.

(** The longest prefix whose characters satisfy [p], and the rest. *)
Fixpoint span (p : ascii → bool) (s : string) : string * string :=
  match s with
  | EmptyString => (EmptyString, EmptyString)
  | String a rest =>
      if p a then let '(taken, remaining) := span p rest in (String a taken, remaining)
      else (EmptyString, s)
  end.

Fixpoint trimStart (s : string) : string :=
  match s with
  | EmptyString => EmptyString
  | String a rest => if is_space a then trimStart rest else s
  end.

Fixpoint trimEnd (s : string) : string :=
  match s with
  | EmptyString => EmptyString
  | String a rest =>
      match trimEnd rest with
      | EmptyString => if is_space a then EmptyString else String a EmptyString
      | kept => String a kept
      end
  end.

(** [s.trim()] on ASCII text: the white space it strips is that of
    [is_space]. *)
Definition trim (s : string) : string := trimEnd (trimStart s).

(** [s.split(sep)] for a one-character separator: never empty. *)
Fixpoint split (sep : ascii) (s : string) : list string :=
  match s with
  | EmptyString => [EmptyString]
  | String a rest =>
      if Ascii.eqb a sep then EmptyString :: split sep rest
      else match split sep rest with
           | field :: fields => String a field :: fields
           | [] => [String a EmptyString]
           end
  end.

(** [\d+\.\d+] at the start of [s]: the matched text and what follows. *)
Definition decimal (s : string) : option (string * string) :=
  let '(int, rest) := span is_digit s in
  match int, rest with
  | String _ _, String "." rest =>
      let '(frac, rest) := span is_digit rest in
      match frac with
      | String _ _ => Some ((int ++ "." ++ frac)%string, rest)
      | EmptyString => None
      end
  | _, _ => None
  end.

(** [s.match(/^(\d+\.\d+),\s*(\d+\.\d+)$/)]: the two groups. Each
    quantifier is followed by a character outside its class, so the greedy
    reading is the only one. *)
Definition sensor_match (s : string) : option (string * string) :=
  match decimal s with
  | Some (group1, String "," rest) =>
      match decimal (snd (span is_space rest)) with
      | Some (group2, EmptyString) => Some (group1, group2)
      | _ => None
      end
  | _ => None
  end.

(* ===================================================================== *)
(** ** DeviceSerialPort                                                   *)
(* ===================================================================== *)

Module Link.

Inductive error :=
| NoPortsFound                    (* 'No serial ports found' *)
| OpenFailed                      (* `Failed to open port: ...` *)
| WriteFailed (message : string)  (* `Failed to send command: ...` *)
| ReadTimeout                     (* 'Sensor read timeout' *)
| InvalidFormat                   (* 'Invalid sensor data format' *)
| PortError (message : string).   (* the error of an 'error' event *)

(** How the promise of a [ReadSensor] call is settled. *)
Inductive outcome :=
| Resolved (reading : Detector.reading)
| Rejected (e : error).

(** A pending [setTimeout] callback. *)
Inductive timer_action :=
| Watchdog                  (* of [sendCommand], 100 ms *)
| ReadTimeoutOf (id : nat). (* of the [ReadSensor] call [id], 5000 ms *)

Record timer := Timer { due : Z; action : timer_action }.

#[global] Instance timer_action_eq_dec : EqDecision timer_action.
Proof. solve_decision. Defined.

(** The fields of the object. [port] is [None] for [null] and otherwise
    holds [isOpen]. *)
Record device := Device {
  port : option bool;
  portPath : option string;
  isBusy : bool;
  reconnectAttempts : nat
}.

(** [new DeviceSerialPort()]. *)
Definition new_device : device :=
  {| port := None; portPath := None; isBusy := false; reconnectAttempts := 0 |}.

Definition maxReconnectAttempts : nat := 3.

(** The object together with what the event loop holds for it: the
    [buffer] of the data listener, the virtual time in milliseconds, the
    pending timers, the [once] listeners of the pending [ReadSensor] calls
    (by call number, in registration order) and the settled promises. *)
Record link := Link {
  dev : device;
  buffer : string;
  now : Z;
  timers : list timer;
  onceResponse : list nat;
  onceError : list nat;
  settled : gmap nat outcome;
  nextRead : nat
}.

Definition new : link :=
  {| dev := new_device; buffer := ""; now := 0; timers := [];
     onceResponse := []; onceError := []; settled := ∅; nextRead := 0 |}.

Definition busy (l : link) : bool := isBusy (dev l).

Definition set_dev (l : link) (d : device) : link :=
  {| dev := d; buffer := buffer l; now := now l; timers := timers l;
     onceResponse := onceResponse l; onceError := onceError l;
     settled := settled l; nextRead := nextRead l |}.

Definition set_isBusy (l : link) (v : bool) : link :=
  set_dev l {| port := port (dev l); portPath := portPath (dev l); isBusy := v;
               reconnectAttempts := reconnectAttempts (dev l) |}.

Definition set_buffer (l : link) (v : string) : link :=
  {| dev := dev l; buffer := v; now := now l; timers := timers l;
     onceResponse := onceResponse l; onceError := onceError l;
     settled := settled l; nextRead := nextRead l |}.

Definition set_now (l : link) (v : Z) : link :=
  {| dev := dev l; buffer := buffer l; now := v; timers := timers l;
     onceResponse := onceResponse l; onceError := onceError l;
     settled := settled l; nextRead := nextRead l |}.

Definition set_timers (l : link) (v : list timer) : link :=
  {| dev := dev l; buffer := buffer l; now := now l; timers := v;
     onceResponse := onceResponse l; onceError := onceError l;
     settled := settled l; nextRead := nextRead l |}.

Definition set_onceResponse (l : link) (v : list nat) : link :=
  {| dev := dev l; buffer := buffer l; now := now l; timers := timers l;
     onceResponse := v; onceError := onceError l;
     settled := settled l; nextRead := nextRead l |}.

Definition set_onceError (l : link) (v : list nat) : link :=
  {| dev := dev l; buffer := buffer l; now := now l; timers := timers l;
     onceResponse := onceResponse l; onceError := v;
     settled := settled l; nextRead := nextRead l |}.

Definition set_settled (l : link) (v : gmap nat outcome) : link :=
  {| dev := dev l; buffer := buffer l; now := now l; timers := timers l;
     onceResponse := onceResponse l; onceError := onceError l;
     settled := v; nextRead := nextRead l |}.

Definition set_nextRead (l : link) (v : nat) : link :=
  {| dev := dev l; buffer := buffer l; now := now l; timers := timers l;
     onceResponse := onceResponse l; onceError := onceError l;
     settled := settled l; nextRead := v |}.

(** [resolve]/[reject] of the promise of call [id]: only the first counts. *)
Definition settle (id : nat) (o : outcome) (l : link) : link :=
  match settled l !! id with
  | Some _ => l
  | None => set_settled l (<[id := o]> (settled l))
  end.

(** [setTimeout(callback, ms)]. *)
Definition setTimeout (a : timer_action) (ms : Z) (l : link) : link :=
  set_timers l (timers l ++ [Timer (now l + ms) a]).

(** [clearTimeout(timeout)] for the timer of call [id]. *)
Definition clearTimeout (id : nat) (l : link) : link :=
  set_timers l (filter (λ t, action t ≠ ReadTimeoutOf id) (timers l)).

Section ParseFloat.

(** [parseFloat] on a string of the form [\d+\.\d+]. *)
Variable parseFloat : string → float.

(** What [handleResponse] makes of the line. *)
Definition verdict (data : string) : outcome :=
  match sensor_match data with
  | Some (group1, group2) =>
      Resolved (Detector.Reading (parseFloat group1) (parseFloat group2))
  | None => Rejected InvalidFormat
  end.

(** [handleResponse] of the [ReadSensor] call [id]. *)
Definition handleResponse (id : nat) (data : string) (l : link) : link :=
  settle id (verdict data) (clearTimeout id l).

(** [handleError] of the [ReadSensor] call [id]. *)
Definition handleError (id : nat) (message : string) (l : link) : link :=
  settle id (Rejected (PortError message)) (clearTimeout id l).

(** [this.emit('response', response)]: the [once] listeners are removed and
    called in registration order. *)
Definition emitResponse (response : string) (l : link) : link :=
  fold_left (λ l id, handleResponse id response l) (onceResponse l)
            (set_onceResponse l []).

(** [this.emit('error', error)] with the [once] listeners of the reads.
    (With no listener at all [emit] throws; that throw is not part of the
    state and is left out.) *)
Definition emitError (message : string) (l : link) : link :=
  fold_left (λ l id, handleError id message l) (onceError l)
            (set_onceError l []).

(** [processResponse(response)]. Nothing in the repository listens to the
    ['data'] event, so only ['response'] has listeners to run. *)
Definition processResponse (response : string) (l : link) : link :=
  if truthy response then emitResponse response (set_isBusy l false)
  else l.

(** The ['data'] listener of [setupDataListener] on the chunk [received]. *)
Definition onData (received : string) (l : link) : link :=
  let messages := split "010" (buffer l ++ received) in
  let l := set_buffer l (List.last messages "") in
  fold_left (λ l message, processResponse (trim message) l)
            (removelast messages) l.

(** The callback of a timer. *)
Definition fire (a : timer_action) (l : link) : link :=
  match a with
  | Watchdog => if busy l then set_isBusy l false else l
  | ReadTimeoutOf id => settle id (Rejected ReadTimeout) (set_isBusy l false)
  end.

Definition earlier (a b : timer) : Prop := due a ≤ due b.

#[global] Instance earlier_dec a b : Decision (earlier a b).
Proof. unfold earlier. apply _. Defined.

(** [d] milliseconds pass with nothing else happening: the timers that have
    come due run, earliest first. *)
Definition elapse (d : Z) (l : link) : link :=
  let t := now l + d in
  let ready := filter (λ tm, due tm ≤ t) (timers l) in
  let later := filter (λ tm, ¬ due tm ≤ t) (timers l) in
  fold_left (λ l tm, fire (action tm) l) (merge_sort earlier ready)
            (set_timers (set_now l t) later).

(** The part of [ReadSensor] after [await this.sendCommand('s')]: arm the
    5000 ms timer and register the two [once] listeners. Returns the
    number of the call. *)
Definition awaitResponse (l : link) : link * nat :=
  let id := nextRead l in
  let l := set_nextRead l (S id) in
  let l := setTimeout (ReadTimeoutOf id) 5000 l in
  let l := set_onceResponse l (onceResponse l ++ [id]) in
  let l := set_onceError l (onceError l ++ [id]) in
  (l, id).

End ParseFloat.

(** *** sendCommand *)

Definition MAX_BUSY_WAIT : Z := 1000.

(** The [while (this.isBusy)] loop of [sendCommand]. [during k] is what the
    rest of the program does to the link during the [k]-th 10 ms sleep.
    Returns the link and [busyWaitTime]; [None] if the loop is still
    running when the fuel is spent. *)
Fixpoint busyWait (fuel : nat) (during : nat → link → link) (k : nat)
    (busyWaitTime : Z) (l : link) : option (link * Z) :=
  if busy l then
    match fuel with
    | O => None
    | S fuel =>
        let l := during k l in
        let busyWaitTime := busyWaitTime + 10 in
        if busyWaitTime >=? MAX_BUSY_WAIT then Some (set_isBusy l false, busyWaitTime)
        else busyWait fuel during (S k) busyWaitTime l
    end
  else Some (l, busyWaitTime).

(** [sendCommand] up to the call of [this.port.write]: the link as the write
    is issued, and the time spent waiting. *)
Definition sendCommand (fuel : nat) (during : nat → link → link) (l : link)
  : option (link * Z) :=
  match busyWait fuel during 0 0 l with
  | Some (l, waited) => Some (set_isBusy l true, waited)
  | None => None
  end.

(** The callback of [this.port.write]: the link, and the error the promise
    of [sendCommand] is rejected with, if any. *)
Definition writeCallback (err : option string) (l : link) : link * option error :=
  match err with
  | Some message => (set_isBusy l false, Some (WriteFailed message))
  | None => (setTimeout Watchdog 100 l, None)
  end.

(** *** handlePortError *)

(** What [handlePortError] does besides counting. *)
Inductive recovery :=
| Reinitialize   (* [this.initialize().catch(() => {})] *)
| EmitError.     (* [this.emit('error', error)] *)

(** [handlePortError(error)]. *)
Definition handlePortError (d : device) : device * recovery :=
  if (reconnectAttempts d <? maxReconnectAttempts)%nat then
    ({| port := port d; portPath := portPath d; isBusy := isBusy d;
        reconnectAttempts := S (reconnectAttempts d) |}, Reinitialize)
  else (d, EmitError).

(** *** initialize *)

(** What one pass through [initialize] meets: the ports [SerialPort.list()]
    reports, the operator's answers to the two prompts of [selectPort] (the
    number entered, as [parseInt] reads it, and whether the confirmation is
    'y'), and whether [port.open] succeeds. *)
Record attempt := Attempt {
  ports : list string;
  answers : list (option Z * bool);
  opens : bool
}.

Inductive result (A : Type) :=
| Returned (a : A)
| Thrown (e : error)
| Waiting.      (* the operator has not answered *)
Arguments Returned {A} _.
Arguments Thrown {A} _.
Arguments Waiting {A}.

(** The [while (true)] loop of [selectPort]. *)
Fixpoint promptLoop (ports : list string) (answers : list (option Z * bool))
  : result string :=
  match answers with
  | [] => Waiting
  | (portNumber, confirm) :: answers =>
      match portNumber with
      | Some n =>
          let index := n - 1 in
          if (0 <=? index) && (index <? Z.of_nat (length ports)) then
            match ports !! Z.to_nat index with
            | Some selectedPort =>
                if confirm then Returned selectedPort
                else promptLoop ports answers
            | None => promptLoop ports answers
            end
          else promptLoop ports answers
      | None => promptLoop ports answers
      end
  end.

(** [selectPort()]: the new value of the module's [savedPortPath] and the
    result. *)
Definition selectPort (savedPortPath : option string) (a : attempt)
  : option string * result string :=
  let fresh (savedPortPath : option string) :=
    match ports a with
    | [] => (savedPortPath, Thrown NoPortsFound)
    | _ :: _ =>
        match promptLoop (ports a) (answers a) with
        | Returned selected => (Some selected, Returned selected)
        | other => (savedPortPath, other)
        end
    end in
  match savedPortPath with
  | Some saved =>
      if truthy saved then
        if bool_decide (saved ∈ ports a) then (savedPortPath, Returned saved)
        else fresh None
      else fresh savedPortPath
  | None => fresh savedPortPath
  end.

(** [close()]. *)
Definition close (d : device) : device :=
  match port d with
  | None => d
  | Some _ =>
      {| port := None; portPath := None; isBusy := false;
         reconnectAttempts := reconnectAttempts d |}
  end.

(** The [try] block of [initialize]. *)
Definition tryInitialize (savedPortPath : option string) (a : attempt) (d : device)
  : option string * device * result unit :=
  let d := match port d with Some true => close d | _ => d end in
  match selectPort savedPortPath a with
  | (savedPortPath, Returned selected) =>
      let d := {| port := Some false; portPath := Some selected;
                  isBusy := isBusy d; reconnectAttempts := reconnectAttempts d |} in
      if opens a then
        (savedPortPath,
         {| port := Some true; portPath := portPath d;
            isBusy := isBusy d; reconnectAttempts := reconnectAttempts d |},
         Returned ())
      else (savedPortPath, d, Thrown OpenFailed)
  | (savedPortPath, Thrown e) => (savedPortPath, d, Thrown e)
  | (savedPortPath, Waiting) => (savedPortPath, d, Waiting)
  end.

(** [initialize()]. [env k] is what the [k]-th pass meets. [None]: still
    retrying when the fuel is spent. *)
Fixpoint initialize (fuel : nat) (env : nat → attempt) (k : nat)
    (savedPortPath : option string) (d : device)
  : option (option string * device * result unit) :=
  match fuel with
  | O => None
  | S fuel =>
      match tryInitialize savedPortPath (env k) d with
      | (savedPortPath, d, Thrown e) =>
          if decide (savedPortPath = portPath d)
          then initialize fuel env (S k) None d
          else Some (savedPortPath, d, Thrown e)
      | done => Some done
      end
  end.

(** *** Facts about the listeners and the timers *)

Section LinkFacts.

Variable parseFloat : string → float.

Lemma settle_dev id o l : dev (settle id o l) = dev l.
Proof. unfold settle. by destruct (settled l !! id). Qed.

Lemma settle_same id o l :
  settled (settle id o l) !! id
  = match settled l !! id with Some o' => Some o' | None => Some o end.
Proof.
  unfold settle. destruct (settled l !! id) eqn:E; cbn; [done|].
  by rewrite lookup_insert_eq.
Qed.

Lemma settle_other id id' o l :
  id ≠ id' → settled (settle id' o l) !! id = settled l !! id.
Proof.
  intros Hne. unfold settle. destruct (settled l !! id'); cbn; [done|].
  by rewrite lookup_insert_ne.
Qed.

(** A settled promise keeps its outcome. *)
Lemma settle_final id id' o o' l :
  settled l !! id = Some o → settled (settle id' o' l) !! id = Some o.
Proof.
  intros H. destruct (decide (id = id')) as [<-|Hne].
  - by rewrite settle_same, H.
  - by rewrite settle_other.
Qed.

Lemma handleResponse_dev id data l : dev (handleResponse parseFloat id data l) = dev l.
Proof. unfold handleResponse. by rewrite settle_dev. Qed.

Lemma emitResponse_dev response l : dev (emitResponse parseFloat response l) = dev l.
Proof.
  unfold emitResponse.
  change (dev l) with (dev (set_onceResponse l [])).
  generalize (set_onceResponse l []). induction (onceResponse l) as [|id ids IH];
    intros l0; cbn [fold_left]; [done|].
  by rewrite IH, handleResponse_dev.
Qed.

Lemma processResponse_busy response l :
  busy (processResponse parseFloat response l)
  = if truthy response then false else busy l.
Proof.
  unfold processResponse, busy. destruct (truthy response); [|done].
  by rewrite emitResponse_dev.
Qed.

Lemma processResponse_fold_busy messages : ∀ l,
  busy l = false ∨ (∃ m, m ∈ messages ∧ truthy (trim m) = true) →
  busy (fold_left (λ l message, processResponse parseFloat (trim message) l)
                  messages l) = false.
Proof.
  induction messages as [|m messages IH]; intros l H; cbn [fold_left].
  - destruct H as [?|(m & Hm & _)]; [done|]. by apply not_elem_of_nil in Hm.
  - apply IH. rewrite processResponse_busy.
    destruct (truthy (trim m)) eqn:E; [by left|].
    destruct H as [?|(m' & Hm' & Ht)]; [by left|].
    apply elem_of_cons in Hm' as [->|Hm']; [congruence|]. right. eauto.
Qed.

(** The listeners of a ['response'] event settle the read [id] with the
    verdict on the line, if it is registered and unsettled. *)
Lemma handleResponse_fold_settled response id ids : ∀ l,
  settled (fold_left (λ l id, handleResponse parseFloat id response l) ids l) !! id
  = match settled l !! id with
    | Some o => Some o
    | None => if bool_decide (id ∈ ids) then Some (verdict parseFloat response) else None
    end.
Proof.
  induction ids as [|id' ids IH]; intros l; cbn [fold_left].
  - by destruct (settled l !! id).
  - rewrite IH. unfold handleResponse.
    destruct (decide (id = id')) as [<-|Hne].
    + rewrite settle_same. cbn.
      destruct (settled l !! id); [done|].
      by rewrite (bool_decide_eq_true_2 (id ∈ id :: ids)) by left.
    + rewrite settle_other by done. cbn.
      destruct (settled l !! id); [done|].
      destruct (decide (id ∈ ids)) as [Hin|Hnin].
      * rewrite !bool_decide_eq_true_2; [done|by right|done].
      * rewrite !bool_decide_eq_false_2; [done| |done].
        intros [?|?]%elem_of_cons; done.
Qed.

Lemma fire_busy a l : busy (fire a l) = false.
Proof.
  destruct a; cbn.
  - unfold busy. by destruct (isBusy (dev l)) eqn:E.
  - unfold busy. by rewrite settle_dev.
Qed.

Lemma fire_fold_busy tms : ∀ l,
  tms ≠ [] → busy (fold_left (λ l tm, fire (action tm) l) tms l) = false.
Proof.
  induction tms as [|tm tms IH] using rev_ind; intros l Hne; [done|].
  rewrite fold_left_app. cbn [fold_left]. apply fire_busy.
Qed.

Lemma fire_fold_frame tms : ∀ l,
  let l' := fold_left (λ l tm, fire (action tm) l) tms l in
  now l' = now l ∧ timers l' = timers l ∧ onceResponse l' = onceResponse l ∧
  onceError l' = onceError l ∧ buffer l' = buffer l ∧ nextRead l' = nextRead l.
Proof.
  induction tms as [|tm tms IH]; intros l; cbn; [done|].
  destruct (IH (fire (action tm) l)) as (-> & -> & -> & -> & -> & ->).
  destruct tm as [t [|id]]; cbn; unfold settle.
  - by destruct (busy l).
  - by destruct (settled _ !! id).
Qed.

(** What the timers that run leave for the read [id]. *)
Lemma fire_fold_settled id tms : ∀ l,
  settled (fold_left (λ l tm, fire (action tm) l) tms l) !! id
  = match settled l !! id with
    | Some o => Some o
    | None =>
        if bool_decide (ReadTimeoutOf id ∈ action <$> tms)
        then Some (Rejected ReadTimeout) else None
    end.
Proof.
  induction tms as [|[t a] tms IH]; intros l; cbn [fold_left].
  - by destruct (settled l !! id).
  - rewrite IH. rewrite fmap_cons. cbn [action].
    destruct a as [|id']; cbn [fire].
    + assert (settled (if busy l then set_isBusy l false else l) = settled l) as ->
        by (by destruct (busy l)).
      destruct (settled l !! id); [done|].
      destruct (decide (ReadTimeoutOf id ∈ action <$> tms)) as [Hin|Hnin].
      * rewrite !bool_decide_eq_true_2; [done|by right|done].
      * rewrite !bool_decide_eq_false_2; [done| |done].
        intros [?|?]%elem_of_cons; done.
    + destruct (decide (id = id')) as [<-|Hne].
      * rewrite settle_same. cbn.
        destruct (settled l !! id); [done|].
        by rewrite (bool_decide_eq_true_2 (_ ∈ _ :: _)) by left.
      * rewrite settle_other by done. cbn.
        destruct (settled l !! id); [done|].
        destruct (decide (ReadTimeoutOf id ∈ action <$> tms)) as [Hin|Hnin].
        -- rewrite !bool_decide_eq_true_2; [done|by right|done].
        -- rewrite !bool_decide_eq_false_2; [done| |done].
           intros [[=]|?]%elem_of_cons; done.
Qed.

Lemma elem_of_ready tm t tms :
  tm ∈ merge_sort earlier (filter (λ tm, due tm ≤ t) tms) ↔ tm ∈ tms ∧ due tm ≤ t.
Proof.
  rewrite merge_sort_Permutation, list_elem_of_filter. naive_solver.
Qed.

(** A read waiting for its response: unsettled, its [once] listener
    registered, its timer armed for [deadline], which has not come. *)
Definition pending (id : nat) (deadline : Z) (l : link) : Prop :=
  settled l !! id = None ∧
  id ∈ onceResponse l ∧
  Timer deadline (ReadTimeoutOf id) ∈ timers l ∧
  (∀ tm, tm ∈ timers l → action tm = ReadTimeoutOf id → due tm = deadline) ∧
  now l < deadline.

Lemma awaitResponse_pending l :
  settled l !! nextRead l = None →
  (∀ tm, tm ∈ timers l → action tm ≠ ReadTimeoutOf (nextRead l)) →
  pending (snd (awaitResponse l)) (now l + 5000) (fst (awaitResponse l)).
Proof.
  intros Hs Ht. unfold pending, awaitResponse, setTimeout. cbn.
  repeat split; [done|set_solver|set_solver| |lia].
  intros tm [Hin|Hin]%elem_of_app Ha.
  - by destruct (Ht tm Hin).
  - apply list_elem_of_singleton in Hin. by subst.
Qed.

Lemma pending_response id deadline response l :
  pending id deadline l → truthy response = true →
  settled (processResponse parseFloat response l) !! id
  = Some (verdict parseFloat response).
Proof.
  intros (Hs & Hin & _) Ht. unfold processResponse. rewrite Ht.
  unfold emitResponse. rewrite handleResponse_fold_settled. cbn.
  rewrite Hs. by rewrite bool_decide_eq_true_2.
Qed.

Lemma pending_timeout id deadline d l :
  pending id deadline l → deadline ≤ now l + d →
  settled (elapse d l) !! id = Some (Rejected ReadTimeout) ∧
  busy (elapse d l) = false.
Proof.
  intros (Hs & _ & Htm & _ & _) Hd. unfold elapse.
  assert (Timer deadline (ReadTimeoutOf id)
          ∈ merge_sort earlier (filter (λ tm, due tm ≤ now l + d) (timers l))) as Hin.
  { apply elem_of_ready. by split. }
  split.
  - rewrite fire_fold_settled. cbn. rewrite Hs.
    rewrite bool_decide_eq_true_2; [done|].
    apply list_elem_of_fmap. by exists (Timer deadline (ReadTimeoutOf id)).
  - apply fire_fold_busy. intros E. rewrite E in Hin. by apply not_elem_of_nil in Hin.
Qed.

Lemma pending_elapse id deadline d l :
  pending id deadline l → 0 ≤ d → now l + d < deadline →
  pending id deadline (elapse d l).
Proof.
  intros (Hs & Hin & Htm & Huniq & Hnow) Hd Hlt. unfold elapse.
  set (ready := merge_sort earlier (filter (λ tm, due tm ≤ now l + d) (timers l))).
  set (l0 := set_timers (set_now l (now l + d)) _).
  destruct (fire_fold_frame ready l0) as (Hn & Ht & Hr & _).
  unfold pending. rewrite Hn, Ht, Hr. cbn.
  repeat split; try done.
  - rewrite fire_fold_settled. cbn. rewrite Hs.
    rewrite bool_decide_eq_false_2; [done|].
    intros (tm & Ha & Htm')%list_elem_of_fmap.
    apply elem_of_ready in Htm' as [Htm' Hdue].
    rewrite (Huniq tm Htm' (eq_sym Ha)) in Hdue. lia.
  - apply list_elem_of_filter. split; [cbn; lia|done].
  - intros tm [_ Htm']%list_elem_of_filter. by apply Huniq.
Qed.

(** *** The busy wait of sendCommand *)

Lemma busyWait_bounded during : ∀ fuel k steps l,
  (100 ≤ fuel + steps)%nat → (steps < 100)%nat →
  ∃ l' waited,
    busyWait fuel during k (10 * Z.of_nat steps) l = Some (l', waited) ∧
    busy l' = false ∧
    10 * Z.of_nat steps ≤ waited ≤ MAX_BUSY_WAIT ∧
    (∃ n : nat, waited = 10 * Z.of_nat n) ∧
    (busy l = false → waited = 10 * Z.of_nat steps ∧ l' = l).
Proof.
  induction fuel as [|fuel IH]; intros k steps l Hfuel Hsteps; [lia|].
  cbn [busyWait]. destruct (busy l) eqn:Eb.
  2:{ exists l, (10 * Z.of_nat steps). unfold MAX_BUSY_WAIT.
      repeat split; try done; try lia. by exists steps. }
  destruct (10 * Z.of_nat steps + 10 >=? MAX_BUSY_WAIT) eqn:E.
  - exists (set_isBusy (during k l) false), (10 * Z.of_nat steps + 10).
    unfold MAX_BUSY_WAIT in *. apply Z.geb_le in E.
    repeat split; try done; try lia. exists (S steps). lia.
  - unfold MAX_BUSY_WAIT in E.
    assert (10 * Z.of_nat steps + 10 < 1000) as Hlt.
    { destruct (Z.geb_spec (10 * Z.of_nat steps + 10) 1000); [done|lia]. }
    replace (10 * Z.of_nat steps + 10) with (10 * Z.of_nat (S steps)) by lia.
    destruct (IH (S k) (S steps) (during k l)) as (l' & waited & Hw & Hb & Hr & Hn & _);
      [lia|lia|].
    exists l', waited. repeat split; try done; lia.
Qed.

(** If the link is found busy at every check, the wait lasts to the
    ceiling. *)
Lemma busyWait_ceiling during : ∀ fuel k steps l l' waited,
  (∀ k l, busy (during k l) = true) → busy l = true →
  busyWait fuel during k (10 * Z.of_nat steps) l = Some (l', waited) →
  (steps < 100)%nat →
  waited = MAX_BUSY_WAIT.
Proof.
  induction fuel as [|fuel IH]; intros k steps l l' waited Hd Hb Hw Hsteps;
    cbn [busyWait] in Hw; rewrite Hb in Hw; [done|].
  unfold MAX_BUSY_WAIT in *.
  destruct (10 * Z.of_nat steps + 10 >=? 1000) eqn:E.
  - inversion Hw; subst. apply Z.geb_le in E. lia.
  - assert (10 * Z.of_nat steps + 10 < 1000) as Hlt.
    { destruct (Z.geb_spec (10 * Z.of_nat steps + 10) 1000); [done|lia]. }
    replace (10 * Z.of_nat steps + 10) with (10 * Z.of_nat (S steps)) in Hw by lia.
    eapply (IH (S k) (S steps)); [done|apply Hd|exact Hw|lia].
Qed.

(** Once time has passed the due point of a pending timer, the busy flag
    is clear: every timer callback leaves it so. *)
Lemma elapse_due_clears d l tm :
  tm ∈ timers l → due tm ≤ now l + d → busy (elapse d l) = false.
Proof.
  intros Hin Hdue. unfold elapse. apply fire_fold_busy. intros E.
  assert (tm ∈ merge_sort earlier (filter (λ tm, due tm ≤ now l + d) (timers l)))
    as Hready by (by apply elem_of_ready).
  rewrite E in Hready. by apply not_elem_of_nil in Hready.
Qed.

End LinkFacts.

(** *** The reconnection of handlePortError *)

(** [n] port errors in a row: the device, and how many times
    [handlePortError] started a reinitialization. *)
Fixpoint portErrors (n : nat) (d : device) : device * nat :=
  match n with
  | O => (d, O)
  | S n =>
      let '(d, r) := handlePortError d in
      let '(d, started) := portErrors n d in
      (d, match r with Reinitialize => S started | EmitError => started end)
  end.

(** The reconnection of [handlePortError] is bounded: at most
    [maxReconnectAttempts] reinitializations are ever started. *)
Lemma portErrors_bounded n : ∀ d,
  (snd (portErrors n d) + reconnectAttempts d
   ≤ Nat.max (reconnectAttempts d) maxReconnectAttempts)%nat.
Proof.
  induction n as [|n IH]; intros d; cbn [portErrors]; [cbn; lia|].
  unfold handlePortError.
  destruct (Nat.ltb_spec (reconnectAttempts d) maxReconnectAttempts) as [Hlt|Hge].
  - match goal with |- context [portErrors n ?d0] =>
      specialize (IH d0); destruct (portErrors n d0) as [d1 started] end.
    unfold maxReconnectAttempts in *. cbn in *. lia.
  - specialize (IH d). destruct (portErrors n d) as [d1 started].
    unfold maxReconnectAttempts in *. cbn in *. lia.
Qed.

(** *** The retry of initialize *)

(** The saved port is listed, the operator confirms port 1 when asked, and
    [port.open] fails. *)
Definition failing_attempt : attempt :=
  {| ports := ["COM3"%string]; answers := [(Some 1, true)]; opens := false |}.

(** As [failing_attempt], but [port.open] succeeds. *)
Definition working_attempt : attempt :=
  {| ports := ["COM3"%string]; answers := [(Some 1, true)]; opens := true |}.

(** No port is listed. *)
Definition empty_attempt : attempt :=
  {| ports := []; answers := []; opens := false |}.

Lemma tryInitialize_failing savedPortPath d :
  savedPortPath = None ∨ savedPortPath = Some "COM3"%string →
  ∃ d', tryInitialize savedPortPath failing_attempt d
        = (Some "COM3"%string, d', Thrown OpenFailed) ∧
        portPath d' = Some "COM3"%string.
Proof.
  intros [->| ->]; destruct d as [[[|]|] pp b r]; cbn; eauto.
Qed.

Lemma initialize_failing_loops fuel : ∀ k savedPortPath d,
  savedPortPath = None ∨ savedPortPath = Some "COM3"%string →
  initialize fuel (λ _, failing_attempt) k savedPortPath d = None.
Proof.
  induction fuel as [|fuel IH]; intros k saved d Hs; cbn [initialize]; [done|].
  destruct (tryInitialize_failing saved d Hs) as (d' & -> & Hp).
  rewrite decide_True by done. apply IH. by left.
Qed.

Lemma initialize_empty_loops fuel : ∀ k,
  initialize fuel (λ _, empty_attempt) k None new_device = None.
Proof.
  induction fuel as [|fuel IH]; intros k; cbn [initialize]; [done|].
  cbn. apply IH.
Qed.

End Link.


(* ===================================================================== *)
(** ** IntegratedBlinkTest                                                *)
(* ===================================================================== *)

Module Correlator.

(** The fields of the constructor that the polling loop touches. [logged]
    stands for the CSV file: the lines [logBlink] has appended to it, each
    as the pair of the sensor and the value (the time stamp is left out). *)
Record test := Test {
  flickerDetector : Detector.detector;
  cameraController : Recorder.controller;
  blinkCount : Z;
  currentLogFile : option string;
  logged : list (sensor * float)
}.

Definition new (dir : string) : test :=
  {| flickerDetector := Detector.new;
     cameraController := Recorder.new dir;
     blinkCount := 0;
     currentLogFile := None;
     logged := [] |}.

(** [logBlink(sensorIndex, value)] of the test; [fs.appendFileSync] is
    taken to succeed. *)
Definition logBlink (i : sensor) (value : float) (t : test) : list (sensor * float) :=
  match currentLogFile t with
  | Some file => if truthy file then logged t ++ [(i, value)] else logged t
  | None => logged t
  end.

(** The body of [for (let i = 0; i < 2; i++)] in [startTest]. *)
Definition onSensor (reading : Detector.reading) (changes : arr2 bool)
    (i : sensor) (t : test) : test :=
  if get changes i then
    let d := flickerDetector t in
    let t :=
      if get (Detector.isOn d) i && negb (get (Detector.wasOn d) i) then
        {| flickerDetector := d;
           cameraController := Recorder.handleBlinkDetected (cameraController t);
           blinkCount := blinkCount t + 1;
           currentLogFile := currentLogFile t;
           logged := logBlink i (Detector.value reading i) t |}
      else t in
    {| flickerDetector :=
         Detector.set_wasOn d (set (Detector.wasOn d) i (get (Detector.isOn d) i));
       cameraController := cameraController t;
       blinkCount := blinkCount t;
       currentLogFile := currentLogFile t;
       logged := logged t |}
  else t.

(** One pass of the [while] loop of [startTest] in which [ReadSensor]
    resolves with [reading]. *)
Definition cycle (t : test) (reading : Detector.reading) : test :=
  let '(d, changes) :=
    Detector.detectStateChange (Detector.value1 reading) (Detector.value2 reading)
                               (flickerDetector t) in
  let t := {| flickerDetector := d; cameraController := cameraController t;
              blinkCount := blinkCount t; currentLogFile := currentLogFile t;
              logged := logged t |} in
  onSensor reading changes Sensor2 (onSensor reading changes Sensor1 t).

Definition cycles (t : test) (readings : list Detector.reading) : test :=
  fold_left cycle readings t.

(** Channel [i] is evaluated in this cycle and goes from off (at the
    previous cycle) to on. *)
Definition rising (i : sensor) (t : test) (reading : Detector.reading) : bool :=
  let '(d, changes) :=
    Detector.detectStateChange (Detector.value1 reading) (Detector.value2 reading)
                               (flickerDetector t) in
  get changes i && get (Detector.isOn d) i
  && negb (get (Detector.wasOn (flickerDetector t)) i).




End Correlator.


(* ===================================================================== *)
(** ** The data listener and the line stream                             *)
(* ===================================================================== *)

Module Stream.
Import Link.

(** The string contains the character. *)
Fixpoint has_char (a : ascii) (s : string) : bool :=
  match s with
  | EmptyString => false
  | String b rest => Ascii.eqb b a || has_char a rest
  end.


Lemma split_nonempty sep s : split sep s ≠ [].
Proof.
  destruct s as [|a s]; cbn; [done|].
  destruct (Ascii.eqb a sep); [done|]. by destruct (split sep s).
Qed.

Lemma split_cons sep a s :
  split sep (String a s)
  = if Ascii.eqb a sep then EmptyString :: split sep s
    else match split sep s with
         | field :: fields => String a field :: fields
         | [] => [String a EmptyString]
         end.
Proof. done. Qed.

Lemma split_app sep s1 s2 :
  split sep (s1 ++ s2)
  = removelast (split sep s1) ++ split sep (List.last (split sep s1) "" ++ s2).
Proof.
  induction s1 as [|a s1 IH]; [done|].
  change (String a s1 ++ s2)%string with (String a (s1 ++ s2)).
  rewrite !split_cons, IH. pose proof (split_nonempty sep s1) as Hne.
  destruct (split sep s1) as [|f fs] eqn:E; [done|].
  destruct (Ascii.eqb a sep) eqn:Ea.
  - destruct fs; done.
  - destruct fs as [|g gs].
    + cbn [removelast List.last app].
      change (String a f ++ s2)%string with (String a (f ++ s2)).
      by rewrite split_cons, Ea.
    + done.
Qed.


Lemma split_clean sep s : has_char sep s = false → split sep s = [s].
Proof.
  induction s as [|a s IH]; cbn; [done|].
  intros [Ha Hs]%orb_false_iff. rewrite Ha, (IH Hs). done.
Qed.


Lemma last_removelast {A} (l : list A) (d : A) :
  l ≠ [] → l = removelast l ++ [List.last l d].
Proof. intros H. by apply app_removelast_last. Qed.

Section StreamFacts.

Variable parseFloat : string → float.

(** The listeners never look at the buffer: setting it commutes with
    processing a response. *)
Lemma settle_set_buffer id o l b :
  settle id o (set_buffer l b) = set_buffer (settle id o l) b.
Proof. unfold settle. cbn. by destruct (settled l !! id). Qed.

Lemma handleResponse_fold_set_buffer response ids : ∀ l b,
  fold_left (λ l id, handleResponse parseFloat id response l) ids (set_buffer l b)
  = set_buffer (fold_left (λ l id, handleResponse parseFloat id response l) ids l) b.
Proof.
  induction ids as [|id ids IH]; intros l b; cbn [fold_left]; [done|].
  rewrite <- IH. f_equal. unfold handleResponse, clearTimeout.
  by rewrite <- settle_set_buffer.
Qed.

Lemma processResponse_set_buffer response l b :
  processResponse parseFloat response (set_buffer l b)
  = set_buffer (processResponse parseFloat response l) b.
Proof.
  unfold processResponse. destruct (truthy response); [|done].
  unfold emitResponse. by rewrite <- handleResponse_fold_set_buffer.
Qed.

Lemma processResponse_fold_set_buffer messages : ∀ l b,
  fold_left (λ l message, processResponse parseFloat (trim message) l) messages
            (set_buffer l b)
  = set_buffer
      (fold_left (λ l message, processResponse parseFloat (trim message) l) messages l) b.
Proof.
  induction messages as [|m messages IH]; intros l b; cbn [fold_left]; [done|].
  by rewrite processResponse_set_buffer, IH.
Qed.

Lemma onData_unfold received l :
  onData parseFloat received l
  = set_buffer
      (fold_left (λ l message, processResponse parseFloat (trim message) l)
                 (removelast (split "010" (buffer l ++ received))) l)
      (List.last (split "010" (buffer l ++ received)) "").
Proof. unfold onData. by rewrite processResponse_fold_set_buffer. Qed.

Lemma onData_buffer received l :
  buffer (onData parseFloat received l)
  = List.last (split "010" (buffer l ++ received)) "".
Proof. by rewrite onData_unfold. Qed.

End StreamFacts.

End Stream.

Lemma string_app_assoc (a b c : string) : ((a ++ b) ++ c = a ++ (b ++ c))%string.
Proof.
  induction a as [|x a IH]; [done|].
  change (String x ((a ++ b) ++ c) = String x (a ++ (b ++ c)))%string. by rewrite IH.
Qed.

Lemma string_app_nil_r (a : string) : (a ++ "" = a)%string.
Proof.
  induction a as [|x a IH]; [done|].
  change (String x (a ++ "") = String x a)%string. by rewrite IH.
Qed.


(* ===================================================================== *)
(** ** The sensor pattern                                                *)
(* ===================================================================== *)

Module Pattern.

(** Every character of the string satisfies [p]. *)
Fixpoint all_chars (p : ascii → bool) (s : string) : bool :=
  match s with
  | EmptyString => true
  | String a rest => p a && all_chars p rest
  end.

(** A string of [\d+]: one or more digits. *)
Definition digits (s : string) : bool := truthy s && all_chars is_digit s.

(** The string does not begin with a character that satisfies [p]. *)
Definition stops (p : ascii → bool) (s : string) : bool :=
  match s with
  | EmptyString => true
  | String a _ => negb (p a)
  end.

Lemma span_app p a r :
  all_chars p a = true → stops p r = true → span p (a ++ r) = (a, r).
Proof.
  intros Ha Hr. induction a as [|x a IH].
  - change ("" ++ r)%string with r.
    destruct r as [|y r]; [done|]. cbn in Hr. apply negb_true_iff in Hr.
    cbn [span]. by rewrite Hr.
  - cbn in Ha. apply andb_true_iff in Ha as [Hx Ha].
    change (String x a ++ r)%string with (String x (a ++ r)).
    cbn [span]. by rewrite Hx, (IH Ha).
Qed.

Lemma span_spec p s :
  s = (fst (span p s) ++ snd (span p s))%string ∧
  all_chars p (fst (span p s)) = true ∧
  stops p (snd (span p s)) = true.
Proof.
  induction s as [|x s (IH1 & IH2 & IH3)]; [done|]. cbn [span].
  destruct (p x) eqn:Hx.
  - destruct (span p s) as [t r]. cbn in *. rewrite Hx. split; [|done].
    change (String x t ++ r)%string with (String x (t ++ r)). by rewrite <- IH1.
  - cbn. by rewrite Hx.
Qed.

Lemma decimal_complete a b r :
  digits a = true → digits b = true → stops is_digit r = true →
  decimal (a ++ "." ++ b ++ r) = Some ((a ++ "." ++ b)%string, r).
Proof.
  unfold digits. intros [Ha1 Ha2]%andb_true_iff [Hb1 Hb2]%andb_true_iff Hr.
  unfold decimal.
  rewrite (span_app is_digit a ("." ++ b ++ r) Ha2 eq_refl).
  destruct a as [|x a]; [done|].
  change ("." ++ b ++ r)%string with (String "." (b ++ r)).
  cbv beta iota zeta.
  rewrite (span_app is_digit b r Hb2 Hr).
  destruct b as [|y b]; [done|]. done.
Qed.

Lemma decimal_sound s g r :
  decimal s = Some (g, r) →
  ∃ a b, digits a = true ∧ digits b = true ∧ stops is_digit r = true ∧
         g = (a ++ "." ++ b)%string ∧ s = (g ++ r)%string.
Proof.
  unfold decimal. intros H.
  destruct (span_spec is_digit s) as (Hs & Ha & _).
  destruct (span is_digit s) as [a r1]. cbn in Hs, Ha.
  destruct a as [|x a]; [done|]. destruct r1 as [|dot r1]; [done|].
  destruct (Ascii.eqb_spec dot ".") as [->|Hne].
  2:{ destruct dot as [[] [] [] [] [] [] [] []]; try done. }
  destruct (span_spec is_digit r1) as (Hr1 & Hb & Hstop).
  destruct (span is_digit r1) as [b r2]. cbn in Hr1, Hb, Hstop.
  destruct b as [|y b]; [done|]. inversion H; subst g r.
  exists (String x a), (String y b). unfold digits.
  rewrite Ha, Hb. repeat split; try done.
  rewrite Hs, Hr1. rewrite !string_app_assoc. done.
Qed.

End Pattern.


(* ===================================================================== *)
(** ** Responses, errors and timeouts of reads                           *)
(* ===================================================================== *)

Module Reads.
Import Link.

(** What [handleResponse] and [handleError] have in common: clear the
    timer of the call and settle it with [o]. *)
Definition conclude (o : outcome) (l : link) (id : nat) : link :=
  settle id o (clearTimeout id l).

Lemma conclude_fold_frame o ids : ∀ l,
  let l' := fold_left (conclude o) ids l in
  dev l' = dev l ∧ buffer l' = buffer l ∧ now l' = now l ∧
  onceResponse l' = onceResponse l ∧ onceError l' = onceError l ∧
  nextRead l' = nextRead l.
Proof.
  induction ids as [|id ids IH]; intros l; cbn; [done|].
  destruct (IH (conclude o l id)) as (-> & -> & -> & -> & -> & ->).
  unfold conclude, settle. by destruct (settled _ !! id).
Qed.

Lemma conclude_fold_settled o id ids : ∀ l,
  settled (fold_left (conclude o) ids l) !! id
  = match settled l !! id with
    | Some o' => Some o'
    | None => if bool_decide (id ∈ ids) then Some o else None
    end.
Proof.
  induction ids as [|id' ids IH]; intros l; cbn [fold_left].
  - by destruct (settled l !! id).
  - rewrite IH. unfold conclude.
    destruct (decide (id = id')) as [<-|Hne].
    + rewrite settle_same. cbn.
      destruct (settled l !! id); [done|].
      by rewrite (bool_decide_eq_true_2 (id ∈ id :: ids)) by left.
    + rewrite settle_other by done. cbn.
      destruct (settled l !! id); [done|].
      destruct (decide (id ∈ ids)) as [Hin|Hnin].
      * rewrite !bool_decide_eq_true_2; [done|by right|done].
      * rewrite !bool_decide_eq_false_2; [done| |done].
        intros [?|?]%elem_of_cons; done.
Qed.

Lemma conclude_fold_timers o ids : ∀ l tm,
  tm ∈ timers (fold_left (conclude o) ids l) ↔
  tm ∈ timers l ∧ ∀ id, id ∈ ids → action tm ≠ ReadTimeoutOf id.
Proof.
  induction ids as [|id ids IH]; intros l tm; cbn [fold_left].
  - split; [intros ?; split; [done|]|by intros [? _]].
    intros id Hid. by apply not_elem_of_nil in Hid.
  - rewrite IH.
    assert (timers (conclude o l id)
            = filter (λ t, action t ≠ ReadTimeoutOf id) (timers l)) as ->.
    { unfold conclude, settle. by destruct (settled _ !! id). }
    rewrite list_elem_of_filter. split.
    + intros [[Hne Hin] Hrest]. split; [done|].
      intros id' [->|Hid']%elem_of_cons; [done|]. by apply Hrest.
    + intros [Hin Hall]. repeat split; [|done|].
      * apply Hall. by left.
      * intros id' Hid'. apply Hall. by right.
Qed.

Lemma emitResponse_conclude parseFloat response l :
  emitResponse parseFloat response l
  = fold_left (conclude (verdict parseFloat response)) (onceResponse l)
              (set_onceResponse l []).
Proof. done. Qed.

Lemma emitError_conclude message l :
  emitError message l
  = fold_left (conclude (Rejected (PortError message))) (onceError l)
              (set_onceError l []).
Proof. done. Qed.

End Reads.


(* ===================================================================== *)
(** ** Actuation commands                                                *)
(* ===================================================================== *)

Module Actuation.
Import Link.



End Actuation.


(* ===================================================================== *)
(** ** Port selection, initialization and reconnection                   *)
(* ===================================================================== *)

Module Ports.
Import Link.

(** An answer that ends the prompt loop: a number from 1 to the number of
    ports, confirmed. *)
Definition valid (ports : list string) (answer : option Z * bool) : bool :=
  match answer with
  | (Some n, true) => (1 <=? n) && (n <=? Z.of_nat (length ports))
  | _ => false
  end.

Lemma promptLoop_invalid ports answer answers :
  valid ports answer = false →
  promptLoop ports (answer :: answers) = promptLoop ports answers.
Proof.
  destruct answer as [[n|] confirm]; cbn [promptLoop valid]; [|done].
  intros Hv.
  destruct ((0 <=? n - 1) && (n - 1 <? Z.of_nat (length ports))) eqn:E; [|done].
  destruct (ports !! Z.to_nat (n - 1)); [|done].
  destruct confirm; [|done]. lia.
Qed.

Lemma promptLoop_valid ports n answers :
  valid ports (Some n, true) = true →
  ∃ p, ports !! Z.to_nat (n - 1) = Some p ∧
       promptLoop ports ((Some n, true) :: answers) = Returned p.
Proof.
  cbn [valid promptLoop]. intros Hv.
  destruct (lookup_lt_is_Some_2 ports (Z.to_nat (n - 1))) as [p Hp]; [lia|].
  exists p. split; [done|]. rewrite Hp.
  by replace ((0 <=? n - 1) && (n - 1 <? Z.of_nat (length ports))) with true by lia.
Qed.

Lemma promptLoop_Returned ports answers p :
  promptLoop ports answers = Returned p →
  ∃ pre n post,
    answers = pre ++ (Some n, true) :: post ∧
    Forall (λ a, valid ports a = false) pre ∧
    valid ports (Some n, true) = true ∧
    ports !! Z.to_nat (n - 1) = Some p.
Proof.
  induction answers as [|answer answers IH]; [done|].
  destruct (valid ports answer) eqn:Hv.
  - destruct answer as [[n|] [|]]; try done.
    destruct (promptLoop_valid ports n answers Hv) as (q & Hq & ->).
    intros [= ->]. by exists [], n, answers.
  - rewrite promptLoop_invalid by done. intros H.
    destruct (IH H) as (pre & n & post & -> & Hpre & Hn & Hp).
    exists (answer :: pre), n, post. split; [done|]. split; [|done].
    by constructor.
Qed.

Lemma promptLoop_not_Thrown ports answers e : promptLoop ports answers ≠ Thrown e.
Proof.
  induction answers as [|answer answers IH]; [done|].
  destruct (valid ports answer) eqn:Hv.
  - destruct answer as [[n|] [|]]; try done.
    by destruct (promptLoop_valid ports n answers Hv) as (q & Hq & ->).
  - by rewrite promptLoop_invalid.
Qed.

Lemma promptLoop_elem_of ports answers p :
  promptLoop ports answers = Returned p → p ∈ ports.
Proof.
  intros (_ & n & _ & _ & _ & _ & Hp)%promptLoop_Returned.
  by eapply list_elem_of_lookup_2.
Qed.

(** A value of [savedPortPath] that [if (savedPortPath)] takes for absent. *)
Definition falsy (savedPortPath : option string) : Prop :=
  ∀ s, savedPortPath = Some s → truthy s = false.

Lemma selectPort_spec savedPortPath a :
  match selectPort savedPortPath a with
  | (saved, Returned p) => p ∈ ports a ∧ saved = Some p
  | (saved, Thrown e) => e = NoPortsFound ∧ ports a = [] ∧ falsy saved
  | (saved, Waiting) =>
      ports a ≠ [] ∧ promptLoop (ports a) (answers a) = Waiting ∧ falsy saved
  end.
Proof.
  assert (∀ saved, falsy saved →
    match (match ports a with
           | [] => (saved, Thrown NoPortsFound)
           | _ :: _ =>
               match promptLoop (ports a) (answers a) with
               | Returned selected => (Some selected, Returned selected)
               | other => (saved, other)
               end
           end) with
    | (saved, Returned p) => p ∈ ports a ∧ saved = Some p
    | (saved, Thrown e) => e = NoPortsFound ∧ ports a = [] ∧ falsy saved
    | (saved, Waiting) =>
        ports a ≠ [] ∧ promptLoop (ports a) (answers a) = Waiting ∧ falsy saved
    end) as Hfresh.
  { intros saved Hf. destruct (ports a) as [|p0 ps] eqn:Eports; [done|].
    destruct (promptLoop (p0 :: ps) (answers a)) as [p|e|] eqn:Eloop.
    - split; [|done]. by eapply promptLoop_elem_of.
    - by destruct (promptLoop_not_Thrown _ _ _ Eloop).
    - done. }
  unfold selectPort. destruct savedPortPath as [saved|].
  - destruct (truthy saved) eqn:Et.
    + destruct (bool_decide (saved ∈ ports a)) eqn:Ein.
      * split; [|done]. by apply bool_decide_eq_true in Ein.
      * apply Hfresh. by intros s.
    + apply Hfresh. by intros s [= <-].
  - apply Hfresh. by intros s.
Qed.

Lemma close_reconnectAttempts d : reconnectAttempts (close d) = reconnectAttempts d.
Proof. unfold close. by destruct (port d). Qed.

(** What one pass through the [try] block of [initialize] leaves. *)
Lemma tryInitialize_spec savedPortPath a d :
  match tryInitialize savedPortPath a d with
  | (saved, d', r) =>
      reconnectAttempts d' = reconnectAttempts d ∧
      match r with
      | Returned _ =>
          port d' = Some true ∧ portPath d' = saved ∧ opens a = true ∧
          ∃ p, saved = Some p ∧ p ∈ ports a
      | Thrown OpenFailed => portPath d' = saved
      | Thrown NoPortsFound => ports a = []
      | Thrown _ => False
      | Waiting => True
      end
  end.
Proof.
  unfold tryInitialize.
  set (d0 := match port d with Some true => close d | _ => d end).
  assert (reconnectAttempts d0 = reconnectAttempts d) as Hr.
  { unfold d0. destruct (port d) as [[|]|]; [apply close_reconnectAttempts|done|done]. }
  pose proof (selectPort_spec savedPortPath a) as Hs.
  destruct (selectPort savedPortPath a) as [saved [p|e|]].
  - destruct Hs as [Hin ->]. destruct (opens a) eqn:Eo; cbn; [|done].
    split; [done|]. split; [done|]. split; [done|]. split; [done|]. by exists p.
  - destruct Hs as (-> & Hports & _). done.
  - done.
Qed.

(** What happens to the object between two port errors. *)
Inductive op :=
| PortErrorEvent                                          (* [handlePortError] *)
| InitializePass (savedPortPath : option string) (a : attempt)
                                                          (* the [try] of [initialize] *)
| Close.                                                  (* [close] *)

(** The device after [o], and the number of reinitializations
    [handlePortError] started. *)
Definition perform (d : device) (o : op) : device * nat :=
  match o with
  | PortErrorEvent =>
      let '(d, r) := handlePortError d in
      (d, match r with Reinitialize => 1%nat | EmitError => 0%nat end)
  | InitializePass savedPortPath a => (snd (fst (tryInitialize savedPortPath a d)), 0%nat)
  | Close => (close d, 0%nat)
  end.

Fixpoint lifetime (ops : list op) (d : device) : device * nat :=
  match ops with
  | [] => (d, 0%nat)
  | o :: ops =>
      let '(d, started) := perform d o in
      let '(d, rest) := lifetime ops d in
      (d, (started + rest)%nat)
  end.

(** The number of port errors among [ops]. *)
Fixpoint errors (ops : list op) : nat :=
  match ops with
  | [] => 0%nat
  | PortErrorEvent :: ops => S (errors ops)
  | _ :: ops => errors ops
  end.

End Ports.


(* ===================================================================== *)
(** ** The polling loop                                                  *)
(* ===================================================================== *)

Module Polling.
Import Correlator.


(** The lines a cycle appends to the log. *)
Definition lines (t : test) (reading : Detector.reading) : list (sensor * float) :=
  (if rising Sensor1 t reading then [(Sensor1, Detector.value1 reading)] else [])
  ++ (if rising Sensor2 t reading then [(Sensor2, Detector.value2 reading)] else []).






End Polling.


(* ===================================================================== *)
(** ** Calibration of the detector                                       *)
(* ===================================================================== *)

Module Calibration.

(** The module-level [savedCalibration]. The arrays are copied with
    [[...a]] whenever they pass between it and a detector, so the two
    never share an array. *)
Record calibration := Calibration {
  whiteValue : arr2 (option float);
  blackValue : arr2 (option float);
  threshold : arr2 (option float)
}.

(** The literal with [[null, null]] three times. *)
Definition cleared : calibration :=
  {| whiteValue := Arr2 None None; blackValue := Arr2 None None;
     threshold := Arr2 None None |}.

(** What an [await] of the calibration can end in besides a value. *)
Inductive thrown :=
| ReadError (e : Link.error)  (* [ReadSensor] rejected *)
| TypeError.                  (* [.toFixed] of [null] *)

Inductive result (A : Type) :=
| Returned (a : A)
| Thrown (e : thrown)
| Waiting.                    (* the operator has not pressed Enter *)
Arguments Returned {A} _.
Arguments Thrown {A} _.
Arguments Waiting {A}.

(** The detector, the saved calibration, the number of [ReadSensor] calls
    made so far and the number of prompts the operator will still
    answer. *)
Record world := World {
  detector : Detector.detector;
  savedCalibration : calibration;
  reads : nat;
  enters : nat
}.

Definition M (A : Type) : Type := world → result A * world.

#[export] Instance M_ret : MRet M := λ A a w, (Returned a, w).

#[export] Instance M_bind : MBind M := λ A B f m w,
  match m w with
  | (Returned a, w) => f a w
  | (Thrown e, w) => (Thrown e, w)
  | (Waiting, w) => (Waiting, w)
  end.

Definition modify (f : Detector.detector → Detector.detector) : M unit :=
  λ w, (Returned (),
        {| detector := f (detector w); savedCalibration := savedCalibration w;
           reads := reads w; enters := enters w |}).

Definition setSaved (s : calibration) : M unit :=
  λ w, (Returned (),
        {| detector := detector w; savedCalibration := s;
           reads := reads w; enters := enters w |}).

(** [rl.question(..., resolve)]. *)
Definition question : M unit :=
  λ w, match enters w with
       | O => (Waiting, w)
       | S n => (Returned (),
                 {| detector := detector w; savedCalibration := savedCalibration w;
                    reads := reads w; enters := n |})
       end.

Definition set_whiteValue (d : Detector.detector) (v : arr2 (option float))
  : Detector.detector :=
  {| Detector.isOn := Detector.isOn d; Detector.wasOn := Detector.wasOn d;
     Detector.lastValue := Detector.lastValue d;
     Detector.threshold := Detector.threshold d;
     Detector.blinkCount := Detector.blinkCount d;
     Detector.whiteValue := v; Detector.blackValue := Detector.blackValue d |}.

Definition set_blackValue (d : Detector.detector) (v : arr2 (option float))
  : Detector.detector :=
  {| Detector.isOn := Detector.isOn d; Detector.wasOn := Detector.wasOn d;
     Detector.lastValue := Detector.lastValue d;
     Detector.threshold := Detector.threshold d;
     Detector.blinkCount := Detector.blinkCount d;
     Detector.whiteValue := Detector.whiteValue d; Detector.blackValue := v |}.

(** [v !== null]. *)
Definition notNull {A} (v : option A) : bool :=
  match v with Some _ => true | None => false end.

(** [hasSavedCalibration()]. *)
Definition hasSavedCalibration (s : calibration) : bool :=
  notNull (at0 (whiteValue s)) && notNull (at0 (blackValue s))
  && notNull (at1 (whiteValue s)) && notNull (at1 (blackValue s)).

(** The object [saveCalibration()] stores. *)
Definition snapshot (d : Detector.detector) : calibration :=
  {| whiteValue := Detector.whiteValue d;
     blackValue := Detector.blackValue d;
     threshold := Detector.threshold d |}.

Definition saveCalibration : M unit :=
  λ w, setSaved (snapshot (detector w)) w.

(** [clearSavedCalibration()]. *)
Definition clearSavedCalibration : M unit := setSaved cleared.

(** The first three statements of [loadCalibration]. *)
Definition restore (s : calibration) (d : Detector.detector) : Detector.detector :=
  Detector.set_threshold
    (set_blackValue (set_whiteValue d (whiteValue s)) (blackValue s)) (threshold s).

(** [samples.length] as a number. *)
Fixpoint number_of_nat (n : nat) : float :=
  match n with
  | O => 0%float
  | S n => (number_of_nat n + 1)%float
  end.

(** [samples.reduce((a, b) => a + b, 0) / samples.length]. *)
Definition average (samples : list float) : float :=
  (fold_left PrimFloat.add samples 0 / number_of_nat (length samples))%float.

Section Sensor.

(** [sensor_reads k] is how the [k]-th [ReadSensor] call is settled. *)
Variable sensor_reads : nat → Link.outcome.

Definition ReadSensor : M Detector.reading :=
  λ w,
    let w' := {| detector := detector w; savedCalibration := savedCalibration w;
                 reads := S (reads w); enters := enters w |} in
    match sensor_reads (reads w) with
    | Link.Resolved reading => (Returned reading, w')
    | Link.Rejected e => (Thrown (ReadError e), w')
    end.

(** The [for] loop of [calibrateScreen], with [n] passes to go. *)
Fixpoint sample (sensorIndex : sensor) (n : nat) (samples : list float)
  : M (list float) :=
  match n with
  | O => mret samples
  | S n =>
      reading ← ReadSensor;
      sample sensorIndex n (samples ++ [Detector.value reading sensorIndex])
  end.

(** [calibrateScreen(rl, screenType, sensorIndex)]: the standard deviation
    only decides about a warning on the console. *)
Definition calibrateScreen (sensorIndex : sensor) : M float :=
  question;;
  samples ← sample sensorIndex 10 [];
  mret (average samples).

(** The part of [calibrate] for one sensor. *)
Definition calibrateSensor (i : sensor) : M unit :=
  white ← calibrateScreen i;
  modify (λ d, set_whiteValue d (set (Detector.whiteValue d) i (Some white)));;
  black ← calibrateScreen i;
  modify (λ d, set_blackValue d (set (Detector.blackValue d) i (Some black)));;
  modify (λ d,
    let range :=
      Detector.absdiff (Detector.toNumber (get (Detector.whiteValue d) i))
                       (Detector.toNumber (get (Detector.blackValue d) i)) in
    Detector.set_threshold d
      (set (Detector.threshold d) i (Some (range * 0.5)%float))).

(** [calibrate()]. *)
Definition calibrate : M bool :=
  calibrateSensor Sensor1;;
  question;;
  calibrateSensor Sensor2;;
  saveCalibration;;
  mret true.

(** [x.toFixed(3)] for the six values [loadCalibration] prints. *)
Definition printable (d : Detector.detector) : bool :=
  notNull (at0 (Detector.whiteValue d)) && notNull (at0 (Detector.blackValue d))
  && notNull (at0 (Detector.threshold d))
  && notNull (at1 (Detector.whiteValue d)) && notNull (at1 (Detector.blackValue d))
  && notNull (at1 (Detector.threshold d)).

(** [loadCalibration()]. *)
Definition loadCalibration : M unit :=
  λ w,
    let w := {| detector := restore (savedCalibration w) (detector w);
                savedCalibration := savedCalibration w;
                reads := reads w; enters := enters w |} in
    if printable (detector w) then
      match ReadSensor w with
      | (Returned _, w) => (Returned (), w)
      | (Thrown _, w) => (clearSavedCalibration;; calibrate;; mret ()) w
      | (Waiting, w) => (Waiting, w)
      end
    else (Thrown TypeError, w).

(** [initialize()], after [this.device.initialize()] has returned. *)
Definition initialize : M unit :=
  λ w,
    if hasSavedCalibration (savedCalibration w) then loadCalibration w
    else (calibrate;; mret ()) w.

(** [recalibrate()]. *)
Definition recalibrate : M unit :=
  clearSavedCalibration;; calibrate;; mret ().

(** The value of channel [i] in the [n] reads from the [k]-th on. *)
Definition values (i : sensor) (k n : nat) : list float :=
  omap (λ j, match sensor_reads j with
             | Link.Resolved reading => Some (Detector.value reading i)
             | Link.Rejected _ => None
             end) (seq k n).

(** How a part of the calibration ends: with a value and a world that
    satisfy [P]; or it fails, and then the saved calibration is as it was
    and what is thrown is the rejection of the last read made, one of the
    first [n]; or the operator is asked more often than the [m] answers
    they give, and the saved calibration is as it was. *)
Definition ends {A} (n m : nat) (P : A → world → Prop) (w : world)
    (r : result A * world) : Prop :=
  match r with
  | (Returned a, w') => P a w'
  | (Thrown e, w') =>
      savedCalibration w' = savedCalibration w ∧
      ∃ e', e = ReadError e' ∧ sensor_reads (pred (reads w')) = Link.Rejected e' ∧
            (reads w < reads w' ≤ reads w + n)%nat
  | (Waiting, w') => savedCalibration w' = savedCalibration w ∧ (enters w < m)%nat
  end.

(** The [n] reads from the [k]-th on are all resolved. *)
Definition all_resolved (k n : nat) : Prop :=
  ∀ j, (k ≤ j < k + n)%nat → ∃ reading, sensor_reads j = Link.Resolved reading.

Lemma all_resolved_app k n m :
  all_resolved k n → all_resolved (k + n) m → all_resolved k (n + m).
Proof.
  intros H1 H2 j Hj. destruct (decide (j < k + n)%nat); [apply H1|apply H2]; lia.
Qed.

Lemma values_S i k n :
  values i k (S n)
  = match sensor_reads k with
    | Link.Resolved reading => Detector.value reading i :: values i (S k) n
    | Link.Rejected _ => values i (S k) n
    end.
Proof. unfold values. cbn [seq omap list_omap]. by destruct (sensor_reads k). Qed.

Lemma sample_spec i n : ∀ samples w,
  ends n 0
    (λ l w', l = samples ++ values i (reads w) n ∧
             all_resolved (reads w) n ∧
             detector w' = detector w ∧ savedCalibration w' = savedCalibration w ∧
             reads w' = (reads w + n)%nat ∧ enters w' = enters w)
    w (sample i n samples w).
Proof.
  induction n as [|n IH]; intros samples w; cbn [sample].
  - cbn. destruct w; cbn. rewrite app_nil_r.
    split; [done|]. split; [intros j ?; lia|]. repeat split; try done; lia.
  - unfold mbind, M_bind, ReadSensor. rewrite values_S.
    destruct (sensor_reads (reads w)) as [reading|e] eqn:Er.
    + match goal with |- context [sample i n ?s ?w0] =>
        pose proof (IH s w0) as Hs; destruct (sample i n s w0) as [[l|e|] w'] end;
        unfold ends in Hs |- *.
      * destruct Hs as (-> & Hall & -> & -> & -> & ->). cbn.
        rewrite <- app_assoc. split; [done|]. split; [|repeat split; try done; lia].
        intros j Hj. destruct (decide (j = reads w)) as [->|Hne]; [by exists reading|].
        apply Hall. cbn. lia.
      * destruct Hs as (Hsaved & e' & -> & Hrej & Hreads).
        cbn in *. split; [done|]. exists e'. repeat split; try done; lia.
      * destruct Hs as [_ Hs]. cbn in Hs. lia.
    + cbn. split; [done|]. exists e. repeat split; try done; lia.
Qed.

Lemma calibrateScreen_spec i w :
  ends 10 1
    (λ avg w', avg = average (values i (reads w) 10) ∧
               all_resolved (reads w) 10 ∧
               detector w' = detector w ∧ savedCalibration w' = savedCalibration w ∧
               reads w' = (reads w + 10)%nat ∧ S (enters w') = enters w)
    w (calibrateScreen i w).
Proof.
  unfold calibrateScreen, mbind, M_bind, question.
  destruct (enters w) as [|n] eqn:En; [cbn; split; [done|lia]|].
  match goal with |- context [sample i 10 [] ?w0] =>
    pose proof (sample_spec i 10 [] w0) as Hs;
    destruct (sample i 10 [] w0) as [[l|e|] w'] end; unfold ends in Hs |- *.
  - cbn in *. by destruct Hs as (-> & ? & -> & -> & -> & ->).
  - exact Hs.
  - destruct Hs as [_ Hs]. cbn in Hs. lia.
Qed.

(** The detector with channel [i] calibrated to [white] and [black]. *)
Definition calibrated (i : sensor) (white black : float) (d : Detector.detector)
  : Detector.detector :=
  Detector.set_threshold
    (set_blackValue
       (set_whiteValue d (set (Detector.whiteValue d) i (Some white)))
       (set (Detector.blackValue d) i (Some black)))
    (set (Detector.threshold d) i (Some (Detector.absdiff white black * 0.5)%float)).

Lemma calibrateSensor_spec i w :
  ends 20 2
    (λ _ w',
       detector w'
       = calibrated i (average (values i (reads w) 10))
                      (average (values i (reads w + 10) 10)) (detector w) ∧
       all_resolved (reads w) 20 ∧
       savedCalibration w' = savedCalibration w ∧
       reads w' = (reads w + 20)%nat ∧ S (S (enters w')) = enters w)
    w (calibrateSensor i w).
Proof.
  unfold calibrateSensor, mbind, M_bind.
  pose proof (calibrateScreen_spec i w) as Hs1.
  destruct (calibrateScreen i w) as [[white|e|] w1]; unfold ends in Hs1 |- *.
  2:{ destruct Hs1 as (? & e' & ? & ? & ?).
      split; [done|]. exists e'. repeat split; try done; lia. }
  2:{ destruct Hs1. split; [done|lia]. }
  destruct Hs1 as (Hw & Ha1 & Hd1 & Hs1 & Hr1 & He1). unfold modify. cbv beta iota.
  match goal with |- context [calibrateScreen i ?w0] =>
    pose proof (calibrateScreen_spec i w0) as Hs2;
    destruct (calibrateScreen i w0) as [[black|e|] w2] end;
    unfold ends in Hs2 |- *;
    cbn [reads detector savedCalibration enters] in Hs2.
  2:{ destruct Hs2 as (? & e' & ? & ? & ?).
      split; [congruence|]. exists e'. repeat split; try done; lia. }
  2:{ destruct Hs2. split; [congruence|lia]. }
  destruct Hs2 as (Hb & Ha2 & Hd2 & Hs2 & Hr2 & He2).
  cbn [reads detector savedCalibration enters]. rewrite Hd2.
  split; [|split; [|split; [congruence|split; lia]]].
  2:{ rewrite Hr1 in Ha2. apply (all_resolved_app _ 10 10); done. }
  unfold calibrated, Detector.set_threshold, set_blackValue, set_whiteValue.
  cbn [Detector.isOn Detector.wasOn Detector.lastValue Detector.threshold
       Detector.blinkCount Detector.whiteValue Detector.blackValue].
  rewrite !get_set_same. cbn [Detector.toNumber].
  rewrite Hw, Hb, Hr1, Hd1. done.
Qed.

Lemma calibrate_spec w :
  ends 40 5
    (λ b w',
       b = true ∧
       detector w'
       = calibrated Sensor2 (average (values Sensor2 (reads w + 20) 10))
                            (average (values Sensor2 (reads w + 30) 10))
           (calibrated Sensor1 (average (values Sensor1 (reads w) 10))
                               (average (values Sensor1 (reads w + 10) 10))
                               (detector w)) ∧
       all_resolved (reads w) 40 ∧
       savedCalibration w' = snapshot (detector w') ∧
       reads w' = (reads w + 40)%nat ∧ (enters w' + 5)%nat = enters w)
    w (calibrate w).
Proof.
  unfold calibrate, mbind, M_bind.
  pose proof (calibrateSensor_spec Sensor1 w) as Hs1.
  destruct (calibrateSensor Sensor1 w) as [[[]|e|] w1]; unfold ends in Hs1 |- *.
  2:{ destruct Hs1 as (? & e' & ? & ? & ?).
      split; [done|]. exists e'. repeat split; try done; lia. }
  2:{ destruct Hs1. split; [done|lia]. }
  destruct Hs1 as (Hd1 & Ha1 & Hs1 & Hr1 & He1). unfold question.
  destruct (enters w1) as [|n] eqn:En; [split; [done|lia]|].
  match goal with |- context [calibrateSensor Sensor2 ?w0] =>
    pose proof (calibrateSensor_spec Sensor2 w0) as Hs2;
    destruct (calibrateSensor Sensor2 w0) as [[[]|e|] w2] end;
    unfold ends in Hs2 |- *;
    cbn [reads detector savedCalibration enters] in Hs2.
  2:{ destruct Hs2 as (? & e' & ? & ? & ?).
      split; [congruence|]. exists e'. repeat split; try done; lia. }
  2:{ destruct Hs2. split; [congruence|lia]. }
  destruct Hs2 as (Hd2 & Ha2 & Hs2 & Hr2 & He2).
  unfold saveCalibration, setSaved, mret, M_ret. cbv beta iota.
  cbn [reads detector savedCalibration enters].
  split; [done|]. split; [|split; [|split; [done|split; lia]]].
  2:{ rewrite Hr1 in Ha2. apply (all_resolved_app _ 20 20); done. }
  rewrite Hd2, Hd1, Hr1.
  by replace (reads w + 20 + 10)%nat with (reads w + 30)%nat by lia.
Qed.

Lemma hasSavedCalibration_calibrated w1 b1 w2 b2 d :
  hasSavedCalibration
    (snapshot (calibrated Sensor2 w2 b2 (calibrated Sensor1 w1 b1 d))) = true ∧
  printable (calibrated Sensor2 w2 b2 (calibrated Sensor1 w1 b1 d)) = true.
Proof. done. Qed.

Lemma snapshot_restore s d : snapshot (restore s d) = s.
Proof. by destruct s. Qed.

Lemma printable_hasSavedCalibration d :
  printable d = true → hasSavedCalibration (snapshot d) = true.
Proof.
  unfold printable, hasSavedCalibration, snapshot. cbn.
  destruct (at0 (Detector.whiteValue d)), (at0 (Detector.blackValue d)),
    (at1 (Detector.whiteValue d)), (at1 (Detector.blackValue d)); cbn; try done.
  all: by rewrite ?andb_false_r.
Qed.

(** What [calibrate] leaves of the saved calibration. *)
Lemma calibrate_saved w :
  match calibrate w with
  | (Returned _, w') =>
      hasSavedCalibration (savedCalibration w') = true ∧
      snapshot (detector w') = savedCalibration w'
  | (_, w') => savedCalibration w' = savedCalibration w
  end.
Proof.
  pose proof (calibrate_spec w) as H.
  destruct (calibrate w) as [[b|e|] w']; unfold ends in H.
  - destruct H as (_ & Hd & _ & Hs & _). rewrite Hs. split; [|done].
    rewrite Hd. apply hasSavedCalibration_calibrated.
  - by destruct H.
  - by destruct H.
Qed.

End Sensor.

End Calibration.


(* ===================================================================== *)
(** ** Runs of the recorder                                              *)
(* ===================================================================== *)

Module RunFacts.
Import Recorder.

Section Clocked.

Variable clock : nat → Z.

Lemma run_snoc w evs e : run clock w (evs ++ [e]) = step clock (run clock w evs) e.
Proof. unfold run. by rewrite fold_left_app. Qed.

Lemma opened_snoc evs e : opened (evs ++ [e]) = opened evs ++ opened [e].
Proof. unfold opened. by rewrite omap_app. Qed.

Lemma cleanupNow_paths w :
  (path <$> videoQueue (ctl (cleanupNow clock w)))
    `suffix_of` (path <$> videoQueue (ctl w)) ∧
  currentSegment (ctl (cleanupNow clock w)) = currentSegment (ctl w).
Proof.
  destruct (cleanupNow_frame clock w) as (_ & _ & _ & -> & _ & _ & _ & [sh ->] & _).
  split; [|done]. rewrite fmap_app. by eexists.
Qed.

(** What a step does to the current segment and to the paths queued. *)
Lemma step_paths w e :
  currentSegment (ctl (step clock w e))
  = match e with Opening p => Some p | _ => currentSegment (ctl w) end ∧
  (path <$> videoQueue (ctl (step clock w e)))
    `suffix_of`
    ((path <$> videoQueue (ctl w))
     ++ match e, currentSegment (ctl w) with
        | Opening _, Some prev => if truthy_path prev then [prev] else []
        | _, _ => []
        end).
Proof.
  destruct e as [p| |]; unfold step.
  - rewrite onOpening_unfold. unfold encoderCreates. cbn [ctl files ticks]. cbn zeta.
    destruct (currentSegment (ctl w)) as [prev|]; [|by rewrite app_nil_r].
    destruct (truthy_path prev); [|by rewrite app_nil_r].
    match goal with |- context [cleanupNow clock ?w0] =>
      destruct (cleanupNow_paths w0) as [Hsuf ->] end.
    split; [done|]. cbn in Hsuf. by rewrite fmap_app in Hsuf.
  - rewrite app_nil_r. cbn. unfold handleBlinkDetected.
    destruct (currentSegment (ctl w)) as [cur|] eqn:E; [|by rewrite E].
    destruct (truthy_path cur); cbn; by rewrite E.
  - rewrite app_nil_r. destruct (cleanupNow_paths w) as [Hsuf ->]. done.
Qed.

(** The cleanup loop at [now2] after the cleanup loop at an earlier
    [now1] leaves what the loop at [now2] alone leaves. *)
Lemma cleanupLoop_compose now1 now2 period marks queue : ∀ fs,
  now1 ≤ now2 →
  cleanupLoop now2 period marks
    (fst (cleanupLoop now1 period marks queue fs))
    (snd (cleanupLoop now1 period marks queue fs))
  = cleanupLoop now2 period marks queue fs.
Proof.
  induction queue as [|s queue IH]; intros fs Hle; [done|].
  cbn [cleanupLoop].
  destruct (now1 - timestamp s >? period) eqn:E1.
  - apply Z.gtb_gt in E1.
    rewrite (proj2 (Z.gtb_gt (now2 - timestamp s) period)) by lia.
    by apply IH.
  - done.
Qed.

End Clocked.

Lemma length_app_string (a b : string) :
  String.length (a ++ b) = (String.length a + String.length b)%nat.
Proof.
  induction a as [|x a IH]; [done|].
  change (String x a ++ b)%string with (String x (a ++ b)). cbn. by rewrite IH.
Qed.

Lemma substring_skip (p s : string) (n k : nat) :
  substring (String.length p + n) k (p ++ s) = substring n k s.
Proof.
  induction p as [|x p IH]; [done|].
  change (String x p ++ s)%string with (String x (p ++ s)). cbn. exact IH.
Qed.

(** A name ends as its last part does. *)
Lemma endsWith_app (p s suffix : string) :
  endsWith s suffix = true → endsWith (p ++ s) suffix = true.
Proof.
  unfold endsWith. rewrite length_app_string.
  intros [Hle Heq]%andb_true_iff. apply Nat.leb_le in Hle.
  apply andb_true_iff. split; [apply Nat.leb_le; lia|].
  replace (String.length p + String.length s - String.length suffix)%nat
    with (String.length p + (String.length s - String.length suffix))%nat by lia.
  by rewrite substring_skip.
Qed.

End RunFacts.


(* ===================================================================== *)
(** ** FlickerDetector, the single-channel detector                      *)
(* ===================================================================== *)

From Stdlib Require Import Floats.

Module Single.

(** The fields of the constructor (the [device] is a separate object). *)
Record detector := Detector {
  isOn : bool;
  wasOn : bool;
  lastValue : option float;
  threshold : float;
  blinkCount : Z
}.

Definition new : detector :=
  {| isOn := false; wasOn := false; lastValue := None;
     threshold := 0.75; blinkCount := 0 |}.

(** [detectStateChange(currentValue)]: the difference is signed. *)
Definition detectStateChange (currentValue : float) (d : detector) : detector * bool :=
  match lastValue d with
  | None =>
      ({| isOn := isOn d; wasOn := wasOn d; lastValue := Some currentValue;
          threshold := threshold d; blinkCount := blinkCount d |}, false)
  | Some last =>
      let change := PrimFloat.sub currentValue last in
      ({| isOn := Detector.geq change (threshold d); wasOn := wasOn d;
          lastValue := Some currentValue;
          threshold := threshold d; blinkCount := blinkCount d |}, true)
  end.

(** [logBlink()]. *)
Definition logBlink (d : detector) : detector :=
  {| isOn := isOn d; wasOn := wasOn d; lastValue := lastValue d;
     threshold := threshold d; blinkCount := blinkCount d + 1 |}.

(** Feeding a sequence of values, oldest first. *)
Definition feed (d : detector) (values : list float) : detector :=
  fold_left (λ d v, fst (detectStateChange v d)) values d.

(** The single-channel detector [s] and channel [i] of the calibrated
    detector [d] have seen the same values with the same threshold. *)
Definition follows (i : sensor) (s : detector) (d : Detector.detector) : Prop :=
  lastValue s = get (Detector.lastValue d) i ∧
  get (Detector.threshold d) i = Some (threshold s) ∧
  (isOn s = true → get (Detector.isOn d) i = true).

(** A signed change that reaches the threshold reaches it in magnitude. *)
Lemma geq_abs (x t : float) :
  Detector.geq x t = true → Detector.geq (PrimFloat.abs x) t = true.
Proof.
  unfold Detector.geq. rewrite !leb_spec, abs_spec.
  destruct (Prim2SF x) as [s|s| |s m e]; destruct (Prim2SF t) as [s'|s'| |s' m' e'];
    try destruct s; try destruct s'; cbn; done.
Qed.

Lemma detectStateChange_follows i s d (reading : Detector.reading) :
  follows i s d →
  follows i (fst (detectStateChange (Detector.value reading i) s))
            (fst (Detector.detectStateChange (Detector.value1 reading)
                    (Detector.value2 reading) d)) ∧
  snd (detectStateChange (Detector.value reading i) s)
  = get (snd (Detector.detectStateChange (Detector.value1 reading)
                (Detector.value2 reading) d)) i.
Proof.
  intros (Hl & Ht & Hon).
  destruct (Detector.detectStateChange_channel (Detector.value1 reading)
              (Detector.value2 reading) d i) as (Hc & Hlast & Hison & Hthr & _).
  assert (Detector.value (Detector.Reading (Detector.value1 reading)
                            (Detector.value2 reading)) i
          = Detector.value reading i) as Hv by (by destruct reading).
  rewrite Hv in Hc, Hlast, Hison.
  unfold follows. rewrite Hc, Hlast, Hison, Hthr, Ht.
  unfold detectStateChange. rewrite Hl.
  destruct (get (Detector.lastValue d) i) as [last|] eqn:El.
  - destruct (Detector.processSensor_later i (Detector.value reading i) d last El)
      as (-> & -> & ->).
    cbn. rewrite Ht. cbn. split; [|done]. split; [done|]. split; [done|].
    apply geq_abs.
  - destruct (Detector.processSensor_first i (Detector.value reading i) d El)
      as (-> & -> & ->).
    cbn. done.
Qed.

End Single.


(* ===================================================================== *)
(** ** DeviceSnapshotComparer                                            *)
(* ===================================================================== *)

Module Snapshot.

(** A device as [takeSnapshot] maps it. *)
Record device := Device {
  Status : string;
  Class : string;
  FriendlyName : string;
  InstanceId : string
}.

(** A JavaScript [Map] from strings to devices: the entries in insertion
    order, each key once. *)
Definition jsmap : Type := list (string * device).

(** [map.get(key)]; [None] is [undefined]. *)
Fixpoint map_get (m : jsmap) (key : string) : option device :=
  match m with
  | [] => None
  | (k, v) :: m => if decide (k = key) then Some v else map_get m key
  end.

(** [map.has(key)]. *)
Definition map_has (m : jsmap) (key : string) : bool :=
  match map_get m key with Some _ => true | None => false end.

(** [map.set(key, value)]: a key that is present keeps its place. *)
Fixpoint map_set (m : jsmap) (key : string) (value : device) : jsmap :=
  match m with
  | [] => [(key, value)]
  | (k, v) :: m =>
      if decide (k = key) then (k, value) :: m else (k, v) :: map_set m key value
  end.

(** [new Map(snapshot.map(device => [device.InstanceId, device]))]. *)
Definition Map (snapshot : list device) : jsmap :=
  fold_left (λ m device, map_set m (InstanceId device) device) snapshot [].

(** The object [compareSnapshots] returns; an entry of [modified] is the
    pair of [before] and [after]. *)
Record changes := Changes {
  added : list device;
  removed : list device;
  modified : list (device * device)
}.

Section Stringify.

(** [JSON.stringify] on a device. *)
Variable stringify : device → string.

(** The body of the loop over [map2]. *)
Definition visit2 (map1 : jsmap) (ch : changes) (entry : string * device) : changes :=
  let '(id, device2) := entry in
  match map_get map1 id with
  | None =>
      {| added := added ch ++ [device2]; removed := removed ch;
         modified := modified ch |}
  | Some device1 =>
      if decide (stringify device1 = stringify device2) then ch
      else {| added := added ch; removed := removed ch;
              modified := modified ch ++ [(device1, device2)] |}
  end.

(** The body of the loop over [map1]. *)
Definition visit1 (map2 : jsmap) (ch : changes) (entry : string * device) : changes :=
  let '(id, device1) := entry in
  if map_has map2 id then ch
  else {| added := added ch; removed := removed ch ++ [device1];
          modified := modified ch |}.

(** [compareSnapshots(snapshot1, snapshot2)]. *)
Definition compareSnapshots (snapshot1 snapshot2 : list device) : changes :=
  let map1 := Map snapshot1 in
  let map2 := Map snapshot2 in
  let ch := {| added := []; removed := []; modified := [] |} in
  let ch := fold_left (visit2 map1) map2 ch in
  fold_left (visit1 map2) map1 ch.

(** The last device of the snapshot with the id. *)
Definition last_with (id : string) (snapshot : list device) : option device :=
  last (filter (λ d, InstanceId d = id) snapshot).

(** What the two loops push. *)
Definition adds (map1 l : jsmap) : list device :=
  omap (λ entry : string * device,
          match map_get map1 entry.1 with None => Some entry.2 | Some _ => None end) l.

Definition mods (map1 l : jsmap) : list (device * device) :=
  omap (λ entry : string * device,
          match map_get map1 entry.1 with
          | Some device1 =>
              if decide (stringify device1 = stringify entry.2) then None
              else Some (device1, entry.2)
          | None => None
          end) l.

Definition rems (map2 l : jsmap) : list device :=
  omap (λ entry : string * device,
          if map_has map2 entry.1 then None else Some entry.2) l.

Lemma fold_visit2 map1 l : ∀ ch,
  fold_left (visit2 map1) l ch
  = {| added := added ch ++ adds map1 l; removed := removed ch;
       modified := modified ch ++ mods map1 l |}.
Proof.
  induction l as [|[id d2] l IH]; intros ch; cbn [fold_left].
  - unfold adds, mods. cbn. rewrite !app_nil_r. by destruct ch.
  - rewrite IH. unfold visit2, adds, mods. cbn [omap list_omap fst snd].
    destruct (map_get map1 id) as [d1|]; cbn.
    + destruct (decide (stringify d1 = stringify d2)); cbn; [done|].
      by rewrite <- app_assoc.
    + by rewrite <- app_assoc.
Qed.

Lemma fold_visit1 map2 l : ∀ ch,
  fold_left (visit1 map2) l ch
  = {| added := added ch; removed := removed ch ++ rems map2 l;
       modified := modified ch |}.
Proof.
  induction l as [|[id d1] l IH]; intros ch; cbn [fold_left].
  - unfold rems. cbn. rewrite app_nil_r. by destruct ch.
  - rewrite IH. unfold visit1, rems. cbn [omap list_omap fst snd].
    destruct (map_has map2 id); cbn; [done|]. by rewrite <- app_assoc.
Qed.

Lemma compareSnapshots_unfold s1 s2 :
  compareSnapshots s1 s2
  = {| added := adds (Map s1) (Map s2);
       removed := rems (Map s2) (Map s1);
       modified := mods (Map s1) (Map s2) |}.
Proof. unfold compareSnapshots. by rewrite fold_visit1, fold_visit2. Qed.

End Stringify.

(** *** The map of a snapshot *)

Lemma map_get_set m key value key' :
  map_get (map_set m key value) key'
  = if decide (key = key') then Some value else map_get m key'.
Proof.
  induction m as [|[k v] m IH]; cbn.
  - done.
  - destruct (decide (k = key)) as [->|Hne]; cbn.
    + by destruct (decide (key = key')).
    + rewrite IH. destruct (decide (k = key')) as [->|?]; [|done].
      by rewrite decide_False.
Qed.

Lemma map_set_keys m key value :
  (map_set m key value).*1
  = if decide (key ∈ m.*1) then m.*1 else m.*1 ++ [key].
Proof.
  induction m as [|[k v] m IH]; cbn.
  - rewrite decide_False; [done|]. apply not_elem_of_nil.
  - destruct (decide (k = key)) as [->|Hne]; cbn.
    + rewrite decide_True; [done|]. by left.
    + rewrite IH. destruct (decide (key ∈ m.*1)) as [Hin|Hnin].
      * rewrite decide_True; [done|]. by right.
      * rewrite decide_False; [done|]. intros [?|?]%elem_of_cons; done.
Qed.

Lemma map_set_elem m key value k v :
  (k, v) ∈ map_set m key value → (k, v) ∈ m ∨ (k = key ∧ v = value).
Proof.
  induction m as [|[k0 v0] m IH]; cbn.
  - intros [=]%list_elem_of_singleton. by right.
  - destruct (decide (k0 = key)) as [->|Hne].
    + intros [[=]|Hin]%elem_of_cons; [by right|]. left. by right.
    + intros [[=]|Hin]%elem_of_cons; [subst; left; by left|].
      destruct (IH Hin) as [?|?]; [left; by right|by right].
Qed.

(** The map of a snapshot has each key once, every value under its own
    id, and under an id the last device of the snapshot with that id. *)
Lemma Map_spec snapshot :
  NoDup (Map snapshot).*1 ∧
  (∀ k v, (k, v) ∈ Map snapshot → k = InstanceId v) ∧
  (∀ id, map_get (Map snapshot) id = last_with id snapshot).
Proof.
  unfold Map, last_with.
  assert (∀ (m : jsmap),
    NoDup m.*1 → (∀ k v, (k, v) ∈ m → k = InstanceId v) →
    let m' := fold_left (λ m device, map_set m (InstanceId device) device) snapshot m in
    NoDup m'.*1 ∧ (∀ k v, (k, v) ∈ m' → k = InstanceId v) ∧
    ∀ id, map_get m' id
          = match last (filter (λ d, InstanceId d = id) snapshot) with
            | Some d => Some d
            | None => map_get m id
            end) as H.
  { induction snapshot as [|d snapshot IH]; intros m Hnd Hkey; cbn [fold_left].
    - by cbn.
    - destruct (IH (map_set m (InstanceId d) d)) as (Hnd' & Hkey' & Hget).
      + rewrite map_set_keys. case_decide; [done|].
        apply NoDup_app. split; [done|]. split; [|apply NoDup_singleton].
        intros x Hx ->%list_elem_of_singleton. done.
      + intros k v [Hin|[-> ->]]%map_set_elem; [by apply Hkey|done].
      + split; [done|]. split; [done|]. intros id. rewrite Hget, map_get_set.
        rewrite filter_cons. destruct (decide (InstanceId d = id)) as [Heq|Hne].
        * rewrite last_cons. by destruct (last _).
        * done. }
  destruct (H []) as (? & ? & Hget); [constructor|by intros ?? ?%not_elem_of_nil|].
  split; [done|]. split; [done|]. intros id. rewrite Hget. by destruct (last _).
Qed.

Lemma map_get_elem m k v :
  NoDup m.*1 → (k, v) ∈ m ↔ map_get m k = Some v.
Proof.
  induction m as [|[k0 v0] m IH]; intros Hnd; cbn.
  - split; [by intros ?%not_elem_of_nil|done].
  - apply NoDup_cons in Hnd as [Hnotin Hnd]. cbn in Hnotin.
    destruct (decide (k0 = k)) as [->|Hne].
    + split.
      * intros [[=]|Hin]%elem_of_cons; [by subst|].
        destruct Hnotin. apply list_elem_of_fmap. by exists (k, v).
      * intros [= ->]. by left.
    + rewrite <- (IH Hnd). split.
      * intros [[=]|Hin]%elem_of_cons; done.
      * intros Hin. by right.
Qed.

(** An entry of the map of a snapshot, said with the snapshot. *)
Lemma Map_elem snapshot k v :
  (k, v) ∈ Map snapshot ↔ k = InstanceId v ∧ last_with (InstanceId v) snapshot = Some v.
Proof.
  destruct (Map_spec snapshot) as (Hnd & Hkey & Hget). split.
  - intros Hin. pose proof (Hkey k v Hin) as ->. split; [done|].
    rewrite <- Hget. by apply map_get_elem.
  - intros [-> Hlast]. apply map_get_elem; [done|]. by rewrite Hget.
Qed.

Lemma last_with_None id snapshot :
  last_with id snapshot = None ↔ id ∉ InstanceId <$> snapshot.
Proof.
  unfold last_with. rewrite last_None. split.
  - intros Hnil (d & -> & Hin)%list_elem_of_fmap.
    assert (d ∈ filter (λ d0, InstanceId d0 = InstanceId d) snapshot) as Hf
      by (by apply list_elem_of_filter).
    rewrite Hnil in Hf. by apply not_elem_of_nil in Hf.
  - intros Hnotin.
    destruct (filter (λ d, InstanceId d = id) snapshot) as [|d l] eqn:E; [done|].
    assert (d ∈ filter (λ d, InstanceId d = id) snapshot) as Hf
      by (rewrite E; by left).
    apply list_elem_of_filter in Hf as [<- Hin].
    destruct Hnotin. apply list_elem_of_fmap. by exists d.
Qed.

Lemma last_with_id id snapshot d :
  last_with id snapshot = Some d → InstanceId d = id.
Proof.
  unfold last_with. intros [l Hl]%last_Some.
  assert (d ∈ filter (λ d, InstanceId d = id) snapshot) as Hin
    by (rewrite Hl; apply elem_of_app; right; by left).
  by apply list_elem_of_filter in Hin as [? _].
Qed.

Lemma adds_elem s1 s2 d :
  d ∈ adds (Map s1) (Map s2) ↔
  last_with (InstanceId d) s2 = Some d ∧ InstanceId d ∉ InstanceId <$> s1.
Proof.
  unfold adds. rewrite list_elem_of_omap, <- last_with_None.
  destruct (Map_spec s1) as (_ & _ & Hget). split.
  - intros ([id d2] & Hin & Hsome). cbn [fst snd] in Hsome.
    apply Map_elem in Hin as [-> Hlast]. rewrite Hget in Hsome.
    destruct (last_with (InstanceId d2) s1) eqn:E; [done|].
    by inversion Hsome; subst.
  - intros [Hlast Hnone]. exists (InstanceId d, d). split.
    + by apply Map_elem.
    + cbn [fst snd]. by rewrite Hget, Hnone.
Qed.

Lemma rems_elem s1 s2 d :
  d ∈ rems (Map s2) (Map s1) ↔
  last_with (InstanceId d) s1 = Some d ∧ InstanceId d ∉ InstanceId <$> s2.
Proof.
  unfold rems, map_has. rewrite list_elem_of_omap, <- last_with_None.
  destruct (Map_spec s2) as (_ & _ & Hget). split.
  - intros ([id d1] & Hin & Hsome). cbn [fst snd] in Hsome.
    apply Map_elem in Hin as [-> Hlast]. rewrite Hget in Hsome.
    destruct (last_with (InstanceId d1) s2) eqn:E; [done|].
    by inversion Hsome; subst.
  - intros [Hlast Hnone]. exists (InstanceId d, d). split.
    + by apply Map_elem.
    + cbn [fst snd]. by rewrite Hget, Hnone.
Qed.

Lemma mods_elem stringify s1 s2 before after :
  (before, after) ∈ mods stringify (Map s1) (Map s2) ↔
  last_with (InstanceId after) s2 = Some after ∧
  last_with (InstanceId after) s1 = Some before ∧
  stringify before ≠ stringify after.
Proof.
  unfold mods. rewrite list_elem_of_omap.
  destruct (Map_spec s1) as (_ & _ & Hget). split.
  - intros ([id d] & Hin & Hsome). cbn [fst snd] in Hsome.
    apply Map_elem in Hin as [-> Hlast]. rewrite Hget in Hsome.
    destruct (last_with (InstanceId d) s1) as [d1|] eqn:E; [|done].
    destruct (decide (stringify d1 = stringify d)); [done|].
    by inversion Hsome; subst.
  - intros (Ha & Hb & Hne). exists (InstanceId after, after). split.
    + by apply Map_elem.
    + cbn [fst snd]. rewrite Hget, Hb. by rewrite decide_False.
Qed.

End Snapshot.


(* ===================================================================== *)
(** ** The recipe runner of the main process                             *)
(* ===================================================================== *)

Module Recipe.

(** How the promise of a call of [executeRecipeCommand] ends. [Pends]: it is
    never settled, as when [startDetection] waits in
    [waitForDetectionStart] for a ['detection-fully-initialized'] message
    that does not come, or a serial command waits in
    [device.initialize()]. *)
Inductive ending :=
| Resolves
| Rejects (message : string)
| Pends.

(** What happens while the [k]-th call of [executeRecipeCommand] is
    awaited: how the call ends, and whether a ['stop-recipe'] message is
    handled meanwhile. *)
Record during := During { settles : ending; stop : bool }.

(** The module-level flags and the commands started so far, each as
    [cmd.split(',')] destructures it into [command] and [param]. *)
Record state := State {
  isRecipeRunning : bool;
  shouldStopRecipe : bool;
  calls : nat;
  started : list (string * option string)
}.

(** How the loops of the handler are left. *)
Inductive exit :=
| Finished
| Threw (message : string)
| Stuck.                 (* in an [await] that never ends *)

Inductive status :=
| Complete               (* ['recipe-complete'] *)
| Failed (message : string)  (* ['recipe-error'] *)
| Ignored                (* a recipe was running *)
| Pending.               (* the handler has not ended and never will *)

(** [const [command, param] = cmd.split(',')]. *)
Definition destructure (cmd : string) : string * option string :=
  let fields := split "," cmd in
  (List.hd ""%string fields, fields !! 1%nat).

Section Environment.

Variable env : nat → during.

(** [for (const cmd of commands)] in the handler of ['run-recipe']. *)
Fixpoint forLoop (commands : list string) (s : state) : state * exit :=
  match commands with
  | [] => (s, Finished)
  | cmd :: commands =>
      if shouldStopRecipe s then (s, Finished)
      else
        let d := env (calls s) in
        let s := {| isRecipeRunning := isRecipeRunning s;
                    shouldStopRecipe := shouldStopRecipe s || stop d;
                    calls := S (calls s);
                    started := started s ++ [destructure cmd] |} in
        match settles d with
        | Resolves => forLoop commands s
        | Rejects message => (s, Threw message)
        | Pends => (s, Stuck)
        end
  end.

(** The [do ... while] loop; [None] if the fuel runs out. *)
Fixpoint doWhile (fuel : nat) (commands : list string) (loop : bool) (count : Z)
    (currentLoop : Z) (s : state) : option (state * exit) :=
  match fuel with
  | O => None
  | S fuel =>
      let currentLoop := currentLoop + 1 in
      match forLoop commands s with
      | (s, Finished) =>
          if loop && (currentLoop <? count) && negb (shouldStopRecipe s)
          then doWhile fuel commands loop count currentLoop s
          else Some (s, Finished)
      | other => Some other
      end
  end.

(** The handler of ['run-recipe']. [early]: a ['stop-recipe'] message is
    handled during the first 500 ms. The [catch] and the [finally] run only
    when the [try] block is left: a handler stuck in an [await] keeps
    [isRecipeRunning] set. *)
Definition runRecipe (commands : list string) (loop : bool) (count : Z)
    (early : bool) (s : state) : option (state * status) :=
  if isRecipeRunning s then Some (s, Ignored)
  else
    let s := {| isRecipeRunning := true; shouldStopRecipe := early;
                calls := calls s; started := started s |} in
    let finally (s : state) :=
      {| isRecipeRunning := false; shouldStopRecipe := false;
         calls := calls s; started := started s |} in
    match doWhile (S (Z.to_nat count)) commands loop count 0 s with
    | Some (s, Finished) => Some (finally s, Complete)
    | Some (s, Threw message) => Some (finally s, Failed message)
    | Some (s, Stuck) => Some (s, Pending)
    | None => None
    end.

(** The passes that remain after [currentLoop] of them if nothing stops
    the recipe. *)
Definition passes (loop : bool) (count currentLoop : Z) : nat :=
  if loop then Z.to_nat (Z.max 1 (count - currentLoop)) else 1%nat.

(** From the [k]-th call on every command returns, and nobody stops the
    recipe. *)
Definition quiet (k : nat) : Prop :=
  ∀ j, (k ≤ j)%nat → settles (env j) = Resolves ∧ stop (env j) = false.

(** A command started from the [k]-th call on never returns. *)
Definition hangs (k : nat) : Prop :=
  ∃ j, (k ≤ j)%nat ∧ settles (env j) = Pends.

Lemma forLoop_spec commands : ∀ s,
  let r := forLoop commands s in
  isRecipeRunning (fst r) = isRecipeRunning s ∧
  (calls s ≤ calls (fst r))%nat ∧
  (∃ done, started (fst r) = started s ++ done ∧
           done `prefix_of` (destructure <$> commands)) ∧
  (snd r = Finished → shouldStopRecipe (fst r) = false →
   started (fst r) = started s ++ (destructure <$> commands)) ∧
  (snd r = Stuck → hangs (calls s)) ∧
  (shouldStopRecipe s = false → quiet (calls s) →
   snd r = Finished ∧ shouldStopRecipe (fst r) = false ∧
   calls (fst r) = (calls s + length commands)%nat).
Proof.
  induction commands as [|cmd commands IH]; intros s; cbn [forLoop].
  - cbn. rewrite app_nil_r. split; [done|]. split; [done|].
    split; [by exists []; rewrite app_nil_r|].
    split; [done|]. split; [done|]. intros Hs _. split; [done|]. split; [done|lia].
  - destruct (shouldStopRecipe s) eqn:Estop.
    { cbn. split; [done|]. split; [done|]. split; [|split; [congruence|split; done]].
      exists []. rewrite app_nil_r. split; [done|apply prefix_nil]. }
    destruct (settles (env (calls s))) as [|message|] eqn:Eend.
    + match goal with |- context [forLoop commands ?s0] =>
        destruct (IH s0) as (Hrun & Hmono & (done & Hst & Hpre) & Hfull & Hstuck & Hquiet)
      end.
      cbn zeta. cbn [isRecipeRunning shouldStopRecipe calls started] in *.
      split; [done|]. split; [lia|]. split; [|split; [|split]].
      * exists (destructure cmd :: done). rewrite Hst, <- app_assoc.
        split; [done|]. by apply prefix_cons.
      * intros Hn Hs. rewrite (Hfull Hn Hs), <- app_assoc. done.
      * intros Hn. destruct (Hstuck Hn) as (j & Hj & Hp). exists j. split; [lia|done].
      * intros _ Hq. destruct (Hq (calls s)) as [_ Hstop]; [lia|].
        rewrite Hstop in Hquiet |- *. cbn [orb] in Hquiet |- *.
        destruct Hquiet as (Hn & Hs & Hc); [done|intros j Hj; apply Hq; lia|].
        split; [done|]. split; [done|]. rewrite Hc. cbn [length]. lia.
    + cbn. split; [done|]. split; [lia|]. split; [|split; [done|split; [done|]]].
      * exists [destructure cmd]. split; [done|]. by apply prefix_cons, prefix_nil.
      * intros _ Hq. destruct (Hq (calls s)) as [Hth _]; [lia|]. congruence.
    + cbn. split; [done|]. split; [lia|]. split; [|split; [done|split]].
      * exists [destructure cmd]. split; [done|]. by apply prefix_cons, prefix_nil.
      * intros _. exists (calls s). split; [lia|done].
      * intros _ Hq. destruct (Hq (calls s)) as [Hth _]; [lia|]. congruence.
Qed.

Lemma passes_step loop count currentLoop :
  passes loop count currentLoop
  = S (if loop && (currentLoop + 1 <? count)
       then passes loop count (currentLoop + 1) else 0).
Proof.
  unfold passes. destruct loop; cbn [andb]; [|done].
  destruct (Z.ltb_spec (currentLoop + 1) count); lia.
Qed.

Lemma doWhile_spec commands loop count : ∀ fuel currentLoop s,
  (count - currentLoop ≤ Z.of_nat fuel) → (0 < fuel)%nat →
  ∃ s' how,
    doWhile fuel commands loop count currentLoop s = Some (s', how) ∧
    isRecipeRunning s' = isRecipeRunning s ∧
    (∃ done, started s' = started s ++ done ∧
             done `prefix_of`
               concat (replicate (passes loop count currentLoop)
                                 (destructure <$> commands))) ∧
    (how = Stuck → hangs (calls s)) ∧
    (shouldStopRecipe s = false → quiet (calls s) →
     how = Finished ∧
     started s'
     = started s ++ concat (replicate (passes loop count currentLoop)
                                      (destructure <$> commands))).
Proof.
  induction fuel as [|fuel IH]; intros currentLoop s Hfuel Hpos; [lia|].
  cbn [doWhile]. rewrite (passes_step loop count currentLoop).
  destruct (forLoop_spec commands s)
    as (Hrun & Hmono & (done & Hst & Hpre) & Hfull & Hstuck & Hquiet).
  cbn zeta in Hrun, Hmono, Hst, Hfull, Hstuck, Hquiet.
  destruct (forLoop commands s) as [s1 [|message|]]; cbn [fst snd] in *.
  - destruct (loop && (currentLoop + 1 <? count)) eqn:Econt; cbn [andb].
    2:{ eexists _, _. split; [reflexivity|]. split; [done|]. split; [|split; [done|]].
        - exists done. split; [done|]. cbn [replicate concat]. by rewrite app_nil_r.
        - intros Hs Hq. destruct (Hquiet Hs Hq) as (_ & Hs1 & _).
          split; [done|]. cbn [replicate concat]. rewrite app_nil_r. by apply Hfull. }
    assert (currentLoop + 1 < count) as Hlt.
    { apply andb_prop in Econt as [_ H]. by apply Z.ltb_lt in H. }
    destruct (shouldStopRecipe s1) eqn:Estop; cbn [negb].
    + eexists _, _. split; [reflexivity|]. split; [done|]. split; [|split; [done|]].
      * exists done. split; [done|]. cbn [replicate concat]. by apply prefix_app_r.
      * intros Hs Hq. destruct (Hquiet Hs Hq) as (_ & ? & _). congruence.
    + destruct (IH (currentLoop + 1) s1)
        as (s' & how & Hdo & Hrun' & Hdone & Hstuck' & Hq'); [lia|lia|].
      exists s', how. split; [done|]. split; [congruence|].
      specialize (Hfull eq_refl eq_refl). split; [|split].
      * destruct Hdone as (done' & Hst' & Hpre').
        exists ((destructure <$> commands) ++ done'). rewrite Hst', Hfull, <- app_assoc.
        split; [done|]. cbn [replicate concat]. by apply prefix_app.
      * intros Hl. destruct (Hstuck' Hl) as (j & Hj & Hp). exists j. split; [lia|done].
      * intros Hs Hq. destruct (Hquiet Hs Hq) as (_ & _ & Hcalls).
        destruct Hq' as [-> Hst']; [done|intros j Hj; apply Hq; lia|].
        split; [done|]. rewrite Hst', Hfull. cbn [replicate concat].
        by rewrite <- app_assoc.
  - eexists _, _. split; [reflexivity|]. split; [done|]. split; [|split; [done|]].
    + exists done. split; [done|]. cbn [replicate concat]. by apply prefix_app_r.
    + intros Hs Hq. by destruct (Hquiet Hs Hq).
  - eexists _, _. split; [reflexivity|]. split; [done|]. split; [|split].
    + exists done. split; [done|]. cbn [replicate concat]. by apply prefix_app_r.
    + intros _. by apply Hstuck.
    + intros Hs Hq. by destruct (Hquiet Hs Hq).
Qed.

End Environment.

End Recipe.


(* ===================================================================== *)
(** ** Chunks of bytes and blank lines                                    *)
(* ===================================================================== *)

Module Chunks.
Import Link.

(** A byte below 0x80. *)
Definition ascii_byte (a : ascii) : bool := (nat_of_ascii a <? 128)%nat.

(** A chunk, or a text, of ASCII characters only. *)
Definition ascii_only (data : string) : bool := Pattern.all_chars ascii_byte data.

(** [data.toString()] on the chunk [data] of a ['data'] event, its bytes
    given as the characters with their codes. A chunk of ASCII bytes is the
    text of the characters with the same codes. Any other chunk is decoded
    as UTF-8, each chunk for itself, into characters that a [string] does
    not hold: it is left out ([None]). *)
Definition toString (data : string) : option string :=
  if ascii_only data then Some data else None.

(** The ['data'] listener of [setupDataListener] on the chunk [data]. *)
Definition onChunk (parseFloat : string → float) (data : string) (l : link)
  : option link :=
  match toString data with
  | Some received => Some (onData parseFloat received l)
  | None => None
  end.

(** A line of white space only (or empty). *)
Definition blank (line : string) : bool := Pattern.all_chars is_space line.

Lemma ascii_only_app a b : ascii_only (a ++ b) = ascii_only a && ascii_only b.
Proof.
  unfold ascii_only. induction a as [|x a IH]; [done|].
  change (String x a ++ b)%string with (String x (a ++ b)). cbn.
  by rewrite IH, andb_assoc.
Qed.

Lemma trimEnd_blank s : trimEnd s = ""%string ↔ blank s = true.
Proof.
  unfold blank. induction s as [|a s IH]; cbn; [done|].
  destruct (trimEnd s) as [|b kept].
  - destruct (is_space a); cbn; [tauto|]. split; done.
  - split; [done|]. intros [_ H]%andb_prop. apply IH in H. done.
Qed.

Lemma blank_trimStart s : blank (trimStart s) = blank s.
Proof.
  unfold blank. induction s as [|a s IH]; cbn; [done|].
  destruct (is_space a) eqn:E; cbn; [done|]. by rewrite E.
Qed.

(** A line is empty after [trim] exactly when it is blank. *)
Lemma trim_blank s : trim s = ""%string ↔ blank s = true.
Proof. unfold trim. by rewrite trimEnd_blank, blank_trimStart. Qed.

Lemma trim_blank_b s : String.eqb (trim s) "" = blank s.
Proof.
  destruct (blank s) eqn:E.
  - apply String.eqb_eq. by apply trim_blank.
  - apply String.eqb_neq. intros H%trim_blank. congruence.
Qed.

(** The busy flag after the lines of a chunk have been processed. *)
Lemma processResponse_fold_busy_exact parseFloat lines : ∀ l,
  busy (fold_left (λ l message, processResponse parseFloat (trim message) l) lines l)
  = busy l && forallb blank lines.
Proof.
  induction lines as [|m lines IH]; intros l; cbn [fold_left forallb].
  - by rewrite andb_true_r.
  - rewrite IH, (processResponse_busy parseFloat). unfold truthy.
    rewrite trim_blank_b. destruct (blank m); cbn; [done|]. by rewrite andb_false_r.
Qed.

(** On text, receiving [c1] and then [c2] is receiving [c1 ++ c2]. *)
Lemma onData_app (parseFloat : string → float) : ∀ (l : link) (c1 c2 : string),
  onData parseFloat c2 (onData parseFloat c1 l) = onData parseFloat (c1 ++ c2) l.
Proof.
  revert parseFloat. intros pf l c1 c2.
  rewrite (Stream.onData_unfold pf c2), Stream.onData_buffer.
  rewrite (Stream.onData_unfold pf c1 l), (Stream.onData_unfold pf (c1 ++ c2) l).
  rewrite <- string_app_assoc, (Stream.split_app "010" (buffer l ++ c1) c2).
  set (M1 := split "010" (buffer l ++ c1)).
  set (M2 := split "010" (List.last M1 "" ++ c2)).
  assert (M2 ≠ []) as Hne by apply Stream.split_nonempty.
  rewrite removelast_app by done. rewrite fold_left_app.
  rewrite Stream.processResponse_fold_set_buffer.
  assert (List.last (removelast M1 ++ M2) ""%string = List.last M2 ""%string) as ->.
  { rewrite (Stream.last_removelast M2 ""%string Hne) at 1.
    rewrite app_assoc, last_last.
    rewrite (Stream.last_removelast M2 ""%string Hne) at 2. by rewrite last_last. }
  done.
Qed.

End Chunks.


(* ===================================================================== *)
(** ** The busy wait, sleep by sleep                                      *)
(* ===================================================================== *)

Module Wait.
Import Link.

(** The link after the first [n] sleeps of the busy wait: [during k] is
    what happens to it during the [k]-th one. *)
Fixpoint slept (during : nat → link → link) (n : nat) (l : link) : link :=
  match n with
  | O => l
  | S n => during n (slept during n l)
  end.

(** The wait ends at the first check that finds the flag clear, after as
    many sleeps as went before, or with the hundredth sleep. *)
Lemma busyWait_slept during l0 : ∀ fuel steps,
  (100 ≤ fuel + steps)%nat → (steps < 100)%nat →
  (∀ n, (steps ≤ n < 100)%nat →
        (∀ k, (steps ≤ k < n)%nat → busy (slept during k l0) = true) →
        busy (slept during n l0) = false →
        busyWait fuel during steps (10 * Z.of_nat steps) (slept during steps l0)
        = Some (slept during n l0, 10 * Z.of_nat n)) ∧
  ((∀ k, (steps ≤ k < 100)%nat → busy (slept during k l0) = true) →
   busyWait fuel during steps (10 * Z.of_nat steps) (slept during steps l0)
   = Some (set_isBusy (slept during 100 l0) false, 1000)).
Proof.
  induction fuel as [|fuel IH]; intros steps Hfuel Hsteps; [lia|].
  destruct (decide (steps = 99%nat)) as [->|Hne].
  - split.
    + intros n Hn _ Hfree. assert (n = 99%nat) as -> by lia.
      cbn [busyWait]. by rewrite Hfree.
    + intros Hbusy. cbn [busyWait]. rewrite Hbusy by lia. reflexivity.
  - destruct (IH (S steps)) as [IHfree IHbusy]; [lia|lia|].
    assert (10 * Z.of_nat steps + 10 = 10 * Z.of_nat (S steps)) as Hten by lia.
    assert (10 * Z.of_nat (S steps) >=? MAX_BUSY_WAIT = false) as Hbelow.
    { unfold MAX_BUSY_WAIT. destruct (Z.geb_spec (10 * Z.of_nat (S steps)) 1000); lia. }
    split.
    + intros n Hn Hbusy Hfree. cbn [busyWait].
      destruct (decide (n = steps)) as [->|Hlater]; [by rewrite Hfree|].
      rewrite Hbusy by lia. cbv zeta. rewrite Hten, Hbelow.
      apply IHfree; [lia| |done]. intros k Hk. apply Hbusy. lia.
    + intros Hbusy. cbn [busyWait]. rewrite Hbusy by lia. cbv zeta.
      rewrite Hten, Hbelow. apply IHbusy. intros k Hk. apply Hbusy. lia.
Qed.

End Wait.


(* ===================================================================== *)
(** ** stopRecording and the encoder process                              *)
(* ===================================================================== *)

Module Shutdown.
Import Recorder.

(** The encoder process as [stopRecording] finds it. The handler that
    [startContinuousRecording] registers for its ['exit'] event only logs:
    [bufferProcess] stays set when the encoder exits during the run. *)
Inductive encoder :=
| Alive (quits : bool)  (* running; [quits]: it ends within 2000 ms of the ['q'] *)
| Exited.               (* it has exited, and its ['exit'] event has been emitted *)

(** What ends the wait of [stopRecording] for an ['exit'] event, counted
    from the registration of its listener: the encoder's reaction to the
    ['q'], or the [SIGKILL] of the timer after 2000 ms. An encoder that has
    exited emits no further ['exit'] event, and [kill] finds no process to
    end. *)
Inductive exit_cause := Quit | Killed.

Definition awaitExit (e : encoder) : option exit_cause :=
  match e with
  | Alive true => Some Quit
  | Alive false => Some Killed
  | Exited => None
  end.

(** How a call of [stopRecording] ends: it returns, or it stays in the
    [await] of the ['exit'] event and keeps the world as it found it. *)
Inductive result :=
| Returned (w : world)
| Pending (w : world).

(** [stopRecording()] from its first line. What follows the wait for the
    encoder's exit and the one-second wait is [Recorder.stopRecording]. *)
Definition stopRecording (clock : nat → Z) (fuel : nat) (e : encoder) (w : world)
  : option result :=
  if bufferProcess (ctl w) then
    match awaitExit e with
    | Some _ => Returned <$> Recorder.stopRecording clock fuel w
    | None => Some (Pending w)
    end
  else Returned <$> Recorder.stopRecording clock fuel w.

Lemma step_bufferProcess clock w e :
  bufferProcess (ctl (step clock w e)) = bufferProcess (ctl w).
Proof.
  destruct e as [p| |]; unfold step.
  - rewrite onOpening_unfold. unfold encoderCreates. cbn [ctl files ticks]. cbn zeta.
    destruct (currentSegment (ctl w)) as [prev|]; [|done].
    destruct (truthy_path prev); [|done].
    match goal with |- context [cleanupNow clock ?w0] =>
      destruct (cleanupNow_frame clock w0) as (_ & -> & _) end.
    done.
  - cbn. unfold handleBlinkDetected.
    destruct (currentSegment (ctl w)) as [cur|]; [|done].
    by destruct (truthy_path cur).
  - by destruct (cleanupNow_frame clock w) as (_ & -> & _).
Qed.

(** Once recording has started, [bufferProcess] is set whatever happens
    during the run. *)
Lemma run_bufferProcess clock dir fs evs :
  bufferProcess (ctl (run clock (start clock dir fs) evs)) = true.
Proof.
  induction evs as [|e evs IH] using rev_ind; [done|].
  unfold run in *. rewrite fold_left_app. cbn [fold_left].
  by rewrite step_bufferProcess.
Qed.

End Shutdown.


(* ===================================================================== *)
(** ** Concrete inputs used below                                         *)
(* ===================================================================== *)

(** A detector calibrated to the same threshold on both sensors. *)
Definition calibrated (thr : float) : Detector.detector :=
  Detector.set_threshold Detector.new (Arr2 (Some thr) (Some thr)).

(** The integrated test around such a detector. *)
Definition calibrated_test (thr : float) : Correlator.test :=
  {| Correlator.flickerDetector := calibrated thr;
     Correlator.cameraController := Recorder.new "BlinkVideos";
     Correlator.blinkCount := 0;
     Correlator.currentLogFile := Some "blink_log.csv"%string;
     Correlator.logged := [] |}.

(** Two segment files of one run. *)
Definition segment_000 : fpath := path_join "BlinkVideos" "segment_000_1700000000000.mp4".
Definition segment_001 : fpath := path_join "BlinkVideos" "segment_001_1700000000000.mp4".

(** A controller whose queue holds both, enqueued at 0 and at 30000, the
    first one marked. *)
Definition marked_first : Recorder.controller :=
  Recorder.set_videoQueue
    (Recorder.set_segmentsWithBlinks (Recorder.new "BlinkVideos") {[segment_000]})
    [Recorder.Segment segment_000 0; Recorder.Segment segment_001 30000].

(** [parseFloat] on a decimal [\d+\.\d+] of at most 15 digits: its digits
    read as an integer and the power of ten below them are both exact
    floats, so their quotient is the correctly rounded value. *)
Definition digit_value (a : ascii) : float :=
  match (nat_of_ascii a - 48)%nat with
  | 0%nat => 0 | 1%nat => 1 | 2%nat => 2 | 3%nat => 3 | 4%nat => 4
  | 5%nat => 5 | 6%nat => 6 | 7%nat => 7 | 8%nat => 8 | _ => 9
  end%float.

Fixpoint digits_value (s : string) (acc : float) : float :=
  match s with
  | EmptyString => acc
  | String a rest => digits_value rest (acc * 10 + digit_value a)%float
  end.

Fixpoint pow10 (n : nat) : float :=
  match n with
  | O => 1%float
  | S n => (10 * pow10 n)%float
  end.

Definition parseDecimal (s : string) : float :=
  let '(int, rest) := span is_digit s in
  match rest with
  | String "." frac =>
      (digits_value (int ++ frac) 0 / pow10 (String.length frac))%float
  | _ => PrimFloat.nan
  end.

(** A link on which one [ReadSensor] call waits for its response. *)
Definition awaiting : Link.link := fst (Link.awaitResponse Link.new).

(** A link whose busy flag is set. *)
Definition busy_link : Link.link := Link.set_isBusy Link.new true.

(** Other callers set the busy flag again during every sleep. *)
Definition kept_busy (k : nat) (l : Link.link) : Link.link := Link.set_isBusy l true.

(** The busy flag is set during every sleep but the seventh, in which it
    is cleared. *)
Definition cleared_in_seventh_sleep (k : nat) (l : Link.link) : Link.link :=
  Link.set_isBusy l (negb (k =? 6)%nat).

(** A blank line ended by carriage return and line feed. *)
Definition blank_crlf_line : string := String "013" (String "010" "").

(** The line [OK], newline-terminated. *)
Definition ok_line : string := "OK" ++ String "010" "".

(** A sensor line with a carriage return before the newline. *)
Definition sensor_line : string := "0.25, 1.5" ++ String "013" (String "010" "").

(** A clock that advances by 40 seconds between two readings. *)
Definition slow_clock (k : nat) : Z := 40000 * Z.of_nat k.

(** A clock that advances by one millisecond between two readings. *)
Definition ms_clock (k : nat) : Z := Z.of_nat k.

(** A run: the encoder opens two targets, a blink falls into the first, and
    the cleanup timer fires twice. *)
Definition short_run : list Recorder.event :=
  [Recorder.Opening segment_000; Recorder.BlinkDetected;
   Recorder.Opening segment_001; Recorder.CleanupTick; Recorder.CleanupTick].

(** Two reads wait on the same link: the first was registered, 150 ms
    passed, and the second was registered. *)
Definition two_awaiting : Link.link :=
  fst (Link.awaitResponse (Link.elapse 150 awaiting)).

(** The operator shows a white and a black screen in turn: the reads come
    in tens, bright ones first. *)
Definition shown_screens (k : nat) : Link.outcome :=
  Link.Resolved (if Nat.even (k / 10) then Detector.Reading 0.75 0.5
                 else Detector.Reading 0.25 0.125).

(** A new detector, nothing saved, and an operator who answers five
    prompts. *)
Definition uncalibrated : Calibration.world :=
  {| Calibration.detector := Detector.new;
     Calibration.savedCalibration := Calibration.cleared;
     Calibration.reads := 0; Calibration.enters := 5 |}.

(** Nothing is running and nothing has been started. *)
Definition idle : Recipe.state :=
  {| Recipe.isRecipeRunning := false; Recipe.shouldStopRecipe := false;
     Recipe.calls := 0; Recipe.started := [] |}.

(** Every command returns and no stop is requested. *)
Definition undisturbed (k : nat) : Recipe.during :=
  {| Recipe.settles := Recipe.Resolves; Recipe.stop := false |}.

(** The second command started never returns. *)
Definition second_hangs (k : nat) : Recipe.during :=
  {| Recipe.settles := if (k =? 1)%nat then Recipe.Pends else Recipe.Resolves;
     Recipe.stop := false |}.


(* ===================================================================== *)
(** ** The claims of the specification                                    *)
(* ===================================================================== *)

(** C1. For every sequence of readings fed to [detectStateChange] and for
    each sensor: a reading that finds no stored magnitude for the sensor
    (which happens exactly on the first reading of a detector that had
    none) stores the reading, reports the sensor as not evaluated and leaves
    its on/off state as it was; every other reading reports the sensor as
    evaluated, stores the reading, and sets the on/off state to
    [|current - previous| >= threshold], where the previous magnitude is
    the preceding reading of the sequence. The comparison is said with the
    binary64 operations themselves: the state is on exactly when the
    threshold (0 if it is [null]) is less than or equal to the absolute
    value of the difference of the current and the previous magnitude, in
    the primitive operations and in the IEEE 754 operations that specify
    them. *)
Theorem C1_detectStateChange_first_then_threshold :
  ∀ (d : Detector.detector) (rs : list Detector.reading)
    (r : Detector.reading) (i : sensor),
    let before := Detector.feed d rs in
    let res := Detector.detectStateChange (Detector.value1 r) (Detector.value2 r) before in
    (get (Detector.lastValue before) i = None ↔
       rs = [] ∧ get (Detector.lastValue d) i = None) ∧
    (get (Detector.lastValue before) i = None →
       get (snd res) i = false ∧
       get (Detector.isOn (fst res)) i = get (Detector.isOn before) i ∧
       get (Detector.lastValue (fst res)) i = Some (Detector.value r i)) ∧
    (∀ previous, get (Detector.lastValue before) i = Some previous →
       get (snd res) i = true ∧
       get (Detector.lastValue (fst res)) i = Some (Detector.value r i) ∧
       get (Detector.isOn (fst res)) i
       = Detector.geq (Detector.absdiff (Detector.value r i) previous)
                      (Detector.toNumber (get (Detector.threshold d) i)) ∧
       let current := match i with
                      | Sensor1 => Detector.value1 r
                      | Sensor2 => Detector.value2 r
                      end in
       let threshold := match get (Detector.threshold d) i with
                        | Some t => t
                        | None => 0%float
                        end in
       get (Detector.isOn (fst res)) i
       = PrimFloat.leb threshold (PrimFloat.abs (PrimFloat.sub current previous)) ∧
       get (Detector.isOn (fst res)) i
       = SFleb (Prim2SF threshold)
               (SFabs (SF64sub (Prim2SF current) (Prim2SF previous)))) ∧
    (∀ rs' q, rs = rs' ++ [q] →
       get (Detector.lastValue before) i = Some (Detector.value q i)).
Proof.
  intros d rs r i before res.
  destruct (Detector.detectStateChange_channel (Detector.value1 r) (Detector.value2 r)
              before i) as (Hc & Hl & Ho & _).
  fold res in Hc, Hl, Ho.
  assert (Detector.value (Detector.Reading (Detector.value1 r) (Detector.value2 r)) i
          = Detector.value r i) as Hv by (by destruct r).
  rewrite Hv in Hc, Hl, Ho.
  assert (∀ rs' q, rs = rs' ++ [q] →
            get (Detector.lastValue before) i = Some (Detector.value q i)) as Hlast.
  { intros rs' q ->. apply Detector.feed_lastValue. }
  split; [|split; [|split]].
  - split.
    + intros Hnone. destruct rs as [|q rs _] using rev_ind.
      * by split.
      * rewrite (Hlast rs q eq_refl) in Hnone. done.
    + by intros [-> ?].
  - intros Hnone.
    destruct (Detector.processSensor_first i (Detector.value r i) before Hnone)
      as (H1 & H2 & H3).
    rewrite Hc, Hl, Ho, H3. done.
  - intros previous Hsome.
    destruct (Detector.processSensor_later i (Detector.value r i) before previous Hsome)
      as (H1 & H2 & H3).
    rewrite Hc, Hl, Ho, H3. unfold before. rewrite Detector.feed_threshold.
    split; [done|]. split; [done|]. split; [done|]. cbn zeta.
    assert (Detector.value r i
            = match i with
              | Sensor1 => Detector.value1 r
              | Sensor2 => Detector.value2 r
              end) as -> by (by destruct i).
    split; [reflexivity|].
    unfold Detector.geq, Detector.absdiff, Detector.toNumber.
    by rewrite leb_spec, abs_spec, sub_spec.
  - exact Hlast.
Qed.

(** The scenario of the specification: readings (1.0, 1.0), (1.0, 1.0),
    (2.0, 1.0) at threshold 0.75 give one event, on sensor 1. *)
Example scenario_three_readings :
  let t := Correlator.cycles (calibrated_test 0.75)
             [Detector.Reading 1 1; Detector.Reading 1 1; Detector.Reading 2 1] in
  Correlator.blinkCount t = 1 ∧
  fst <$> Correlator.logged t = [Sensor1].
Proof. vm_compute. split; reflexivity. Qed.



(** C3 (as stated, refuted). The head of the queue is marked and older than
    the retention period, the segment behind it is unmarked and older too:
    cleanup does not stop at the marked head and does not leave it in the
    queue. It shifts both and unlinks the file of the second. *)
Lemma C3_counterexample_must_keep_is_shifted :
  let fs : gset fpath := {[segment_000; segment_001]} in
  let res := Recorder.performCleanup 100000 marked_first fs in
  segment_000 ∈ Recorder.segmentsWithBlinks marked_first ∧
  Recorder.videoQueue (fst res) ≠ Recorder.videoQueue marked_first ∧
  Recorder.videoQueue (fst res) = [] ∧
  segment_001 ∉ snd res ∧
  segment_000 ∈ snd res.
Proof.
  cbn zeta. split; [|split; [|split; [|split]]].
  - compute_done.
  - vm_compute. congruence.
  - vm_compute. reflexivity.
  - compute_done.
  - compute_done.
Qed.

(** C3 (amended). [performCleanup] works on the queue strictly from the
    front: it shifts every segment whose age since enqueue exceeds the
    retention period ([retentionWindow] segment durations) and stops at the
    first segment that is not older than that; it unlinks the files of the
    shifted segments that are not marked must-keep and no other file. A
    marked segment that is old enough is shifted like the others, but its
    file is never unlinked; the marks are left as they were. *)
Theorem C3_performCleanup_amended :
  ∀ (now : Z) (c : Recorder.controller) (fs : gset fpath),
    let c' := fst (Recorder.performCleanup now c fs) in
    let fs' := snd (Recorder.performCleanup now c fs) in
    Recorder.retentionPeriod c
    = Recorder.segmentDuration c * 1000 * Recorder.retentionWindow c ∧
    (∃ shifted,
       Recorder.videoQueue c = shifted ++ Recorder.videoQueue c' ∧
       Forall (Recorder.aged now (Recorder.retentionPeriod c)) shifted ∧
       match Recorder.videoQueue c' with
       | [] => True
       | s :: _ => ¬ Recorder.aged now (Recorder.retentionPeriod c) s
       end ∧
       fs' = fs ∖ Recorder.unlinked (Recorder.segmentsWithBlinks c) shifted) ∧
    Recorder.segmentsWithBlinks c' = Recorder.segmentsWithBlinks c ∧
    (∀ p, p ∈ Recorder.segmentsWithBlinks c → p ∈ fs → p ∈ fs').
Proof.
  intros now c fs. cbn zeta. unfold Recorder.performCleanup.
  pose proof (Recorder.cleanupLoop_split now (Recorder.retentionPeriod c)
    (Recorder.segmentsWithBlinks c) (Recorder.videoQueue c) fs) as Hsplit.
  pose proof (λ p, Recorder.cleanupLoop_marked_kept now (Recorder.retentionPeriod c)
    (Recorder.segmentsWithBlinks c) (Recorder.videoQueue c) fs p) as Hkept.
  destruct (Recorder.cleanupLoop _ _ _ _ _) as [queue fs'] eqn:E. cbn in *.
  split; [done|split; [exact Hsplit|split; [done|exact Hkept]]].
Qed.



Lemma truthy_nonempty s : truthy s = true ↔ s ≠ ""%string.
Proof.
  unfold truthy. rewrite negb_true_iff. apply String.eqb_neq.
Qed.

(** C5 (as stated, refuted). While a [ReadSensor] call waits, the line
    [OK], which does not match the sensor pattern, is not ignored: it
    settles the call, as rejected for its format. *)
Lemma C5_counterexample_non_sensor_line_decides :
  sensor_match "OK" = None ∧
  Link.settled awaiting !! 0%nat = None ∧
  Link.settled (Link.onData parseDecimal ok_line awaiting) !! 0%nat ≠ None ∧
  Link.settled (Link.onData parseDecimal ok_line awaiting) !! 0%nat
  = Some (Link.Rejected Link.InvalidFormat).
Proof. vm_compute. repeat split; congruence. Qed.

(** C5 (amended). A [ReadSensor] call whose command has been sent arms a
    5000 ms timer and waits. While it waits: the first complete line that
    is not empty after trimming settles it, resolved with the two parsed
    numbers if the line matches the two-decimal pattern and rejected with
    the invalid-format error if it does not (so a non-sensor line is not
    ignored, it fails the read); a line that is empty after trimming is
    ignored; time passing short of the deadline leaves it waiting; and
    when the 5000 ms have passed with no such line it is rejected with
    the timeout error and the busy flag is clear. *)
Theorem C5_readSensor_outcome :
  ∀ (parseFloat : string → float) (l0 : Link.link),
    Link.settled l0 !! Link.nextRead l0 = None →
    (∀ tm, tm ∈ Link.timers l0 →
           Link.action tm ≠ Link.ReadTimeoutOf (Link.nextRead l0)) →
    let id := snd (Link.awaitResponse l0) in
    let deadline := Link.now l0 + 5000 in
    Link.pending id deadline (fst (Link.awaitResponse l0)) ∧
    ∀ l, Link.pending id deadline l →
      (∀ response, truthy response = true →
         Link.settled (Link.processResponse parseFloat response l) !! id
         = Some match sensor_match response with
                | Some (group1, group2) =>
                    Link.Resolved
                      (Detector.Reading (parseFloat group1) (parseFloat group2))
                | None => Link.Rejected Link.InvalidFormat
                end) ∧
      Link.processResponse parseFloat "" l = l ∧
      (∀ d, 0 ≤ d → Link.now l + d < deadline →
            Link.pending id deadline (Link.elapse d l)) ∧
      (∀ d, deadline ≤ Link.now l + d →
            Link.settled (Link.elapse d l) !! id
            = Some (Link.Rejected Link.ReadTimeout) ∧
            Link.busy (Link.elapse d l) = false).
Proof.
  intros parseFloat l0 Hfresh Htimers id deadline. split.
  - by apply Link.awaitResponse_pending.
  - intros l Hp. split; [|split; [|split]].
    + intros response Ht. by apply Link.pending_response with deadline.
    + done.
    + intros d Hd Hlt. by apply Link.pending_elapse.
    + intros d Hd. by apply Link.pending_timeout with deadline.
Qed.

(** C5 (amended) on a new link: the sensor line resolves the read with
    0.25 and 1.5, and 5000 ms of silence reject it with the timeout. *)
Lemma C5_witness_new_link :
  Link.settled (Link.processResponse parseDecimal "0.25, 1.5" awaiting) !! 0%nat
  = Some (Link.Resolved (Detector.Reading 0.25 1.5)) ∧
  Link.settled (Link.elapse 5000 awaiting) !! 0%nat
  = Some (Link.Rejected Link.ReadTimeout).
Proof.
  destruct (C5_readSensor_outcome parseDecimal Link.new) as [Hp Hl].
  - reflexivity.
  - intros tm Htm. cbn in Htm. by apply not_elem_of_nil in Htm.
  - destruct (Hl awaiting Hp) as (Hresp & _ & _ & Htimeout). split.
    + etrans; [exact (Hresp "0.25, 1.5"%string eq_refl)|]. vm_compute. reflexivity.
    + destruct (Htimeout 5000) as [Hrejected _]; [|exact Hrejected].
      vm_compute. congruence.
Defined.

(** C6. [sendCommand] does not wait without bound for a busy link: with
    the flag found set it sleeps in steps of 10 ms, whatever the rest of
    the program does meanwhile, and after at most 1000 ms of waiting (the
    ceiling, reached when the flag is found set at every check) the flag is
    cleared by force; the command then proceeds, setting the flag and
    writing. After a successful write a timer is armed that clears the flag
    100 ms later: the flag is clear once that time has passed with nothing
    else happening, and in whatever state the link then is, it is clear
    right after the moment the timer comes due; a failed write clears it
    at once. The wait is exactly as long as the flag stays set: if the
    flag is first found clear after [n] sleeps ([n] below 100), the wait is
    [10 * n] ms and the command proceeds on the link as those [n] sleeps
    left it; if it is found set before each of the first 100 sleeps, the
    wait is 1000 ms and the command proceeds on the link as the hundredth
    sleep left it, with the flag cleared by force. *)
Theorem C6_sendCommand_bounded_wait_and_watchdog :
  ∀ (fuel : nat) (during : nat → Link.link → Link.link) (l : Link.link),
    (100 ≤ fuel)%nat →
    (∃ l' waited,
       Link.busyWait fuel during 0 0 l = Some (l', waited) ∧
       Link.sendCommand fuel during l = Some (Link.set_isBusy l' true, waited) ∧
       Link.busy l' = false ∧
       0 ≤ waited ≤ 1000 ∧
       (∃ n : nat, waited = 10 * Z.of_nat n) ∧
       (Link.busy l = false → waited = 0) ∧
       (Link.busy l = true → (∀ k l, Link.busy (during k l) = true) → waited = 1000)) ∧
    (∀ l1,
       Link.timers (fst (Link.writeCallback None l1))
       = Link.timers l1 ++ [Link.Timer (Link.now l1 + 100) Link.Watchdog] ∧
       snd (Link.writeCallback None l1) = None ∧
       (∀ d, 100 ≤ d →
             Link.busy (Link.elapse d (fst (Link.writeCallback None l1))) = false) ∧
       (∀ l2 d, Link.Timer (Link.now l1 + 100) Link.Watchdog ∈ Link.timers l2 →
                Link.now l1 + 100 ≤ Link.now l2 + d →
                Link.busy (Link.elapse d l2) = false)) ∧
    (∀ l1 message,
       Link.busy (fst (Link.writeCallback (Some message) l1)) = false ∧
       snd (Link.writeCallback (Some message) l1) = Some (Link.WriteFailed message)) ∧
    (∀ n : nat, (n < 100)%nat →
       (∀ k, (k < n)%nat → Link.busy (Wait.slept during k l) = true) →
       Link.busy (Wait.slept during n l) = false →
       Link.busyWait fuel during 0 0 l = Some (Wait.slept during n l, 10 * Z.of_nat n) ∧
       Link.sendCommand fuel during l
       = Some (Link.set_isBusy (Wait.slept during n l) true, 10 * Z.of_nat n)) ∧
    ((∀ k, (k < 100)%nat → Link.busy (Wait.slept during k l) = true) →
     Link.busyWait fuel during 0 0 l
     = Some (Link.set_isBusy (Wait.slept during 100 l) false, 1000) ∧
     Link.sendCommand fuel during l
     = Some (Link.set_isBusy (Link.set_isBusy (Wait.slept during 100 l) false) true,
             1000)).
Proof.
  intros fuel during l Hfuel.
  destruct (Wait.busyWait_slept during l fuel 0) as [Hfirst Hforced]; [lia|lia|].
  change (10 * Z.of_nat 0) with 0 in Hfirst, Hforced.
  change (Wait.slept during 0 l) with l in Hfirst, Hforced.
  split; [|split; [|split; [|split]]].
  - destruct (Link.busyWait_bounded during fuel 0 0 l) as (l' & waited & Hw & Hb & Hr & Hn & H0);
      [lia|lia|].
    change (10 * Z.of_nat 0) with 0 in *.
    exists l', waited. unfold Link.sendCommand. rewrite Hw.
    unfold Link.MAX_BUSY_WAIT in Hr.
    repeat split; try done; try lia.
    + intros Hfree. by destruct (H0 Hfree).
    + intros Hbusy Hkept.
      by apply (Link.busyWait_ceiling during fuel 0 0 l l' waited Hkept Hbusy Hw); lia.
  - intros l1. split; [done|]. split; [done|]. split.
    + intros d Hd.
      apply (Link.elapse_due_clears d _ (Link.Timer (Link.now l1 + 100) Link.Watchdog)).
      * cbn. set_solver.
      * cbn. lia.
    + intros l2 d Hin Hdue.
      by apply (Link.elapse_due_clears d l2 (Link.Timer (Link.now l1 + 100) Link.Watchdog)).
  - intros l1 message. done.
  - intros n Hn Hbusy Hclear.
    assert (Link.busyWait fuel during 0 0 l
            = Some (Wait.slept during n l, 10 * Z.of_nat n)) as Hw.
    { apply Hfirst; [lia| |done]. intros k Hk. apply Hbusy. lia. }
    split; [done|]. unfold Link.sendCommand. by rewrite Hw.
  - intros Hbusy.
    assert (Link.busyWait fuel during 0 0 l
            = Some (Link.set_isBusy (Wait.slept during 100 l) false, 1000)) as Hw.
    { apply Hforced. intros k Hk. apply Hbusy. lia. }
    split; [done|]. unfold Link.sendCommand. by rewrite Hw.
Qed.

(** C6 on a link that other callers keep busy: the wait ends at the
    1000 ms ceiling and the command proceeds. On a link whose flag is
    cleared during the seventh sleep the wait is 70 ms. *)
Lemma C6_witness_kept_busy :
  (∃ l', Link.sendCommand 100 kept_busy busy_link = Some (l', 1000) ∧
         Link.busy l' = true) ∧
  Link.sendCommand 100 cleared_in_seventh_sleep busy_link
  = Some (busy_link, 70).
Proof.
  split.
  - destruct (C6_sendCommand_bounded_wait_and_watchdog 100 kept_busy busy_link)
      as ((l' & waited & _ & Hs & _ & _ & _ & _ & Hceil) & _).
    + lia.
    + exists (Link.set_isBusy l' true). split; [|reflexivity].
      rewrite Hs. f_equal. f_equal. apply Hceil; reflexivity.
  - destruct (C6_sendCommand_bounded_wait_and_watchdog 100 cleared_in_seventh_sleep
                busy_link) as (_ & _ & _ & Hexact & _); [lia|].
    destruct (Hexact 7%nat) as [_ Hs].
    + lia.
    + intros k Hk. do 7 (destruct k as [|k]; [reflexivity|]). lia.
    + reflexivity.
    + rewrite Hs. reflexivity.
Defined.

(** C7 (as stated, refuted). After [short_run], [stopRecording] returns with
    the must-keep set still holding the marked segment, and a following
    [startContinuousRecording] on the same controller starts with it. *)
Lemma C7_counterexample_marks_survive_stop :
  let w := Recorder.run slow_clock (Recorder.start slow_clock "BlinkVideos" ∅) short_run in
  ∃ w', Recorder.stopRecording slow_clock 0 w = Some w' ∧
        Recorder.segmentsWithBlinks (Recorder.ctl w') ≠ ∅ ∧
        segment_000 ∈ Recorder.segmentsWithBlinks
                         (Recorder.ctl (Recorder.startContinuousRecording slow_clock w')).
Proof.
  cbn zeta. eexists. split; [vm_compute; reflexivity|]. split.
  - intros Hempty.
    assert (segment_000 ∈ (∅ : gset fpath)) as H; [|by apply not_elem_of_empty in H].
    rewrite <- Hempty. compute_done.
  - compute_done.
Qed.

(** C7 (amended). When [stopRecording] returns, the queue is empty, but the
    must-keep set is exactly what it was before the call, and a following
    [startContinuousRecording] on the same controller begins with that set
    (and with the empty queue). Only a newly constructed controller has an
    empty must-keep set and an empty queue. *)
Theorem C7_stop_empties_queue_keeps_marks :
  ∀ (clock : nat → Z) (fuel : nat) (w w' : Recorder.world),
    Recorder.stopRecording clock fuel w = Some w' →
    Recorder.videoQueue (Recorder.ctl w') = [] ∧
    Recorder.segmentsWithBlinks (Recorder.ctl w')
    = Recorder.segmentsWithBlinks (Recorder.ctl w) ∧
    Recorder.segmentsWithBlinks
      (Recorder.ctl (Recorder.startContinuousRecording clock w'))
    = Recorder.segmentsWithBlinks (Recorder.ctl w) ∧
    Recorder.videoQueue (Recorder.ctl (Recorder.startContinuousRecording clock w')) = [] ∧
    (∀ dir, Recorder.segmentsWithBlinks (Recorder.new dir) = ∅ ∧
            Recorder.videoQueue (Recorder.new dir) = []).
Proof.
  intros clock fuel w w' Hstop. unfold Recorder.stopRecording in Hstop.
  apply Recorder.drain_frame in Hstop as (Hq & _ & _ & Hm & _).
  assert (Recorder.segmentsWithBlinks (Recorder.ctl w')
          = Recorder.segmentsWithBlinks (Recorder.ctl w)) as Hm'.
  { rewrite Hm. destruct (Recorder.bufferProcess (Recorder.ctl w)); cbn;
      destruct (Recorder.cleanupInterval (Recorder.ctl w)); done. }
  split; [done|]. split; [done|]. split; [|split; [|done]].
  - cbn. exact Hm'.
  - cbn. exact Hq.
Qed.

(** C7 (amended) at [short_run]. *)
Lemma C7_witness_short_run :
  let w := Recorder.run slow_clock (Recorder.start slow_clock "BlinkVideos" ∅) short_run in
  let w' := default w (Recorder.stopRecording slow_clock 0 w) in
  Recorder.videoQueue (Recorder.ctl w') = [] ∧
  Recorder.segmentsWithBlinks (Recorder.ctl w')
  = Recorder.segmentsWithBlinks (Recorder.ctl w).
Proof.
  intros w w'.
  destruct (C7_stop_empties_queue_keeps_marks slow_clock 0 w w') as (Hq & Hm & _).
  - vm_compute. reflexivity.
  - split; [exact Hq|exact Hm].
Defined.

(** C8 (the code at the failing input). The encoder has exited before
    [stopRecording] is called, at whatever point of a run of a new,
    initialized and started controller: [bufferProcess] is still set, so
    [stopRecording] writes the ['q'], arms the kill timer and awaits an
    ['exit'] event that was emitted before its listener was registered. It
    never returns, whatever the queue holds and however much time passes,
    and nothing of the world changes: no sweep, no drain. With the encoder
    alive at the call, whether it quits on the ['q'] or is killed by the
    timer, [stopRecording] does return for every queue, also one that holds
    segments younger than the retention period, with the queue drained
    empty, provided the clock eventually passes every instant. *)
Theorem C8_stopRecording_hangs_after_encoder_exit :
  ∀ (clock : nat → Z) (dir : string) (fs : gset fpath) (evs : list Recorder.event),
    let w := Recorder.run clock (Recorder.start clock dir fs) evs in
    Recorder.bufferProcess (Recorder.ctl w) = true ∧
    (∀ fuel, Shutdown.stopRecording clock fuel Shutdown.Exited w
             = Some (Shutdown.Pending w)) ∧
    (∀ quits,
       (∀ T k, ∃ j, (k ≤ j)%nat ∧ T < clock j) →
       ∃ fuel w',
         Shutdown.stopRecording clock fuel (Shutdown.Alive quits) w
         = Some (Shutdown.Returned w') ∧
         Recorder.videoQueue (Recorder.ctl w') = [] ∧
         Recorder.bufferProcess (Recorder.ctl w') = false).
Proof.
  intros clock dir fs evs w.
  pose proof (Shutdown.run_bufferProcess clock dir fs evs) as Hb. fold w in Hb.
  split; [done|]. split.
  - intros fuel. unfold Shutdown.stopRecording. by rewrite Hb.
  - intros quits Hprogress. unfold Shutdown.stopRecording. rewrite Hb.
    assert (∃ fuel w', Recorder.stopRecording clock fuel w = Some w' ∧
                       Recorder.videoQueue (Recorder.ctl w') = [] ∧
                       Recorder.bufferProcess (Recorder.ctl w') = false)
      as (fuel & w' & Hstop & Hq & Hb').
    { unfold Recorder.stopRecording. rewrite Hb. cbv zeta.
      match goal with |- ∃ fuel w', Recorder.drain clock fuel ?w0 = _ ∧ _ =>
        destruct (Recorder.drain_terminates clock Hprogress w0) as (fuel & w' & Hd);
        assert (Recorder.bufferProcess (Recorder.ctl w0) = false) as Hb0
          by (cbn; by destruct (Recorder.cleanupInterval (Recorder.ctl w)))
      end.
      exists fuel, w'. split; [done|].
      apply Recorder.drain_frame in Hd as (Hq & _ & Hb' & _). split; [done|].
      by rewrite Hb'. }
    exists fuel, w'. split; [|done].
    destruct quits; cbn [Shutdown.awaitExit]; by rewrite Hstop.
Qed.

(** The short run, then a shutdown: with the encoder alive
    [stopRecording] returns, with the encoder exited it stays pending. *)
Example scenario_shutdown_after_short_run :
  let w := Recorder.run slow_clock (Recorder.start slow_clock "BlinkVideos" ∅) short_run in
  (∃ w', Shutdown.stopRecording slow_clock 0 (Shutdown.Alive true) w
         = Some (Shutdown.Returned w')) ∧
  Shutdown.stopRecording slow_clock 0 Shutdown.Exited w = Some (Shutdown.Pending w).
Proof.
  cbn zeta. split; [eexists|]; vm_compute; reflexivity.
Qed.

(** C9 (the code at the failing input). The cached port COM3 is listed,
    the operator confirms it each time [selectPort] asks, and [port.open]
    fails on every pass: [initialize] never surfaces the failure, however
    many passes it is given. With two failures followed by a success it
    returns normally after the third pass, so the second consecutive
    failure was retried, not surfaced. On a new object with no cached port
    and no port listed, it retries without end as well. *)
Theorem C9_initialize_retries_without_bound :
  (∀ fuel, Link.initialize fuel (λ _, Link.failing_attempt) 0
             (Some "COM3"%string) Link.new_device = None) ∧
  Link.initialize 3
    (λ k, if (k <? 2)%nat then Link.failing_attempt else Link.working_attempt) 0
    (Some "COM3"%string) Link.new_device
  = Some (Some "COM3"%string,
          {| Link.port := Some true; Link.portPath := Some "COM3"%string;
             Link.isBusy := false; Link.reconnectAttempts := 0 |},
          Link.Returned ()) ∧
  (∀ fuel, Link.initialize fuel (λ _, Link.empty_attempt) 0 None Link.new_device = None).
Proof.
  split; [|split].
  - intros fuel. apply Link.initialize_failing_loops. by right.
  - vm_compute. reflexivity.
  - intros fuel. apply Link.initialize_empty_loops.
Qed.

(** C10 (as stated, refuted). A busy link receives a blank line ended
    by carriage return and line feed: the complete line is the carriage
    return, which is not empty, and the link is busy afterwards. *)
Lemma C10_counterexample_blank_line :
  removelast (split "010" (Link.buffer busy_link ++ blank_crlf_line)) = [String "013" ""] ∧
  String "013" "" ≠ ""%string ∧
  Link.busy (Link.onData parseDecimal blank_crlf_line busy_link) = true.
Proof. vm_compute. split; [reflexivity|]. split; [congruence|reflexivity]. Qed.

(** C10 (amended). On the ASCII text of the protocol: a complete line of
    the inbound data that holds a character other than white space, that
    is, a line not empty after trimming, clears the busy flag, whether or
    not it matches the sensor pattern; a complete line of white space only
    is ignored. So after the data listener has handled a chunk, the link
    is busy exactly if it was busy before and every line the chunk
    completed was blank. *)
Theorem C10_complete_line_clears_busy :
  ∀ (parseFloat : string → float) (l : Link.link) (received : string),
    Chunks.ascii_only (Link.buffer l ++ received) = true →
    let lines := removelast (split "010" (Link.buffer l ++ received)) in
    (∀ message, message ∈ lines → trim message ≠ ""%string →
       Link.busy (Link.processResponse parseFloat (trim message) l) = false ∧
       Link.busy (Link.onData parseFloat received l) = false) ∧
    (∀ message, message ∈ lines → trim message = ""%string →
       Link.processResponse parseFloat (trim message) l = l) ∧
    Link.busy (Link.onData parseFloat received l)
    = Link.busy l && forallb Chunks.blank lines ∧
    (∀ line, trim line = ""%string ↔ Pattern.all_chars is_space line = true) ∧
    Chunks.onChunk parseFloat received l = Some (Link.onData parseFloat received l).
Proof.
  intros parseFloat l received Hascii lines. split; [|split; [|split; [|split]]].
  - intros message Hin Hne. apply truthy_nonempty in Hne. split.
    + by rewrite Link.processResponse_busy, Hne.
    + unfold Link.onData. apply Link.processResponse_fold_busy. right. by exists message.
  - intros message _ Hempty. by rewrite Hempty.
  - unfold Link.onData. by rewrite Chunks.processResponse_fold_busy_exact.
  - intros line. apply Chunks.trim_blank.
  - rewrite Chunks.ascii_only_app in Hascii. apply andb_prop in Hascii as [_ Hr].
    unfold Chunks.onChunk, Chunks.toString. by rewrite Hr.
Qed.

(** A sensor line ending in carriage return and newline resolves the
    waiting read with the two numbers and leaves the link not busy. *)
Example scenario_sensor_line :
  let l := Link.onData parseDecimal sensor_line awaiting in
  Link.settled l !! 0%nat = Some (Link.Resolved (Detector.Reading 0.25 1.5)) ∧
  Link.busy l = false ∧
  Link.buffer l = ""%string.
Proof. vm_compute. repeat split; reflexivity. Qed.

(** C10 (amended) on a busy link that receives the line [OK]. *)
Lemma C10_witness_ok_line :
  Link.busy busy_link = true ∧
  Link.busy (Link.onData parseDecimal ok_line busy_link) = false.
Proof.
  split; [reflexivity|].
  destruct (C10_complete_line_clears_busy parseDecimal busy_link ok_line) as (Hclear & _).
  - vm_compute. reflexivity.
  - destruct (Hclear "OK"%string) as [_ H].
    + compute_done.
    + vm_compute. congruence.
    + exact H.
Defined.


(* ===================================================================== *)
(** ** Further properties of the code                                    *)
(* ===================================================================== *)

(** X1. On ASCII input the data listener does not depend on how the byte
    stream is cut into chunks: for two chunks [c1] and [c2] whose bytes are
    all below 0x80, which [data.toString()] turns into the characters with
    the same codes, receiving [c1] and then [c2] leaves the link exactly as
    receiving [c1 ++ c2] at once. (A chunk with other bytes is decoded as
    UTF-8 chunk by chunk; such chunks are left out.) *)
Theorem X1_ascii_chunking_independent :
  ∀ (parseFloat : string → float) (l : Link.link) (c1 c2 : string),
    Chunks.ascii_only c1 = true → Chunks.ascii_only c2 = true →
    Chunks.onChunk parseFloat c1 l ≫= Chunks.onChunk parseFloat c2
    = Chunks.onChunk parseFloat (c1 ++ c2) l ∧
    Chunks.onChunk parseFloat (c1 ++ c2) l
    = Some (Link.onData parseFloat (c1 ++ c2) l).
Proof.
  intros pf l c1 c2 H1 H2. unfold Chunks.onChunk, Chunks.toString.
  rewrite Chunks.ascii_only_app, H1, H2. cbn. split; [|done].
  by rewrite Chunks.onData_app.
Qed.

(** X1 on a waiting link: a sensor line that arrives in two chunks
    resolves the read as the line in one chunk does. *)
Lemma X1_witness_line_in_two_chunks :
  Chunks.onChunk parseDecimal "0.25, " awaiting
    ≫= Chunks.onChunk parseDecimal ("1.5" ++ String "010" "")
  = Chunks.onChunk parseDecimal ("0.25, " ++ "1.5" ++ String "010" "") awaiting ∧
  (Chunks.onChunk parseDecimal ("0.25, " ++ "1.5" ++ String "010" "") awaiting
     ≫= λ l, Link.settled l !! 0%nat)
  = Some (Link.Resolved (Detector.Reading 0.25 1.5)).
Proof.
  destruct (X1_ascii_chunking_independent parseDecimal awaiting
              "0.25, " ("1.5" ++ String "010" "")) as [Hcut Hone].
  - reflexivity.
  - reflexivity.
  - split; [exact Hcut|]. rewrite Hone. vm_compute. reflexivity.
Defined.


(** X3. A chunk that completes no line is only buffered: if the buffer
    followed by the chunk contains no line feed, no response is processed
    and the link changes in its buffer alone. *)
Theorem X3_onData_partial_line_is_buffered :
  ∀ (parseFloat : string → float) (l : Link.link) (received : string),
    Stream.has_char "010" (Link.buffer l ++ received) = false →
    Link.onData parseFloat received l
    = Link.set_buffer l (Link.buffer l ++ received).
Proof.
  intros pf l received Hclean. unfold Link.onData.
  by rewrite (Stream.split_clean _ _ Hclean).
Qed.

(** X3 on a waiting link that receives the first half of a sensor line:
    the read is still unsettled and the half line is in the buffer. *)
Lemma X3_witness_half_line :
  Link.buffer (Link.onData parseDecimal "0.25, " awaiting) = "0.25, "%string ∧
  Link.settled (Link.onData parseDecimal "0.25, " awaiting) !! 0%nat = None.
Proof.
  rewrite (X3_onData_partial_line_is_buffered parseDecimal awaiting "0.25, ").
  - split; reflexivity.
  - reflexivity.
Defined.

(** X4. The lines the sensor pattern accepts: [sensor_match] yields the two
    groups [g1] and [g2] exactly when the line is [g1], a comma, any number
    of white-space characters and [g2], with each group one or more digits,
    a point and one or more digits. Nothing may precede the first number or
    follow the second. *)
Theorem X4_sensor_match_accepts_exactly :
  ∀ (line g1 g2 : string),
    sensor_match line = Some (g1, g2) ↔
    ∃ a b w c d,
      Pattern.digits a = true ∧ Pattern.digits b = true ∧
      Pattern.all_chars is_space w = true ∧
      Pattern.digits c = true ∧ Pattern.digits d = true ∧
      g1 = (a ++ "." ++ b)%string ∧ g2 = (c ++ "." ++ d)%string ∧
      line = (g1 ++ "," ++ w ++ g2)%string.
Proof.
  intros line g1 g2. split.
  - unfold sensor_match. intros H.
    destruct (decimal line) as [[h1 r]|] eqn:E1; [|done].
    destruct r as [|comma r]; [done|].
    destruct (Ascii.eqb_spec comma ",") as [->|Hne].
    2:{ destruct comma as [[] [] [] [] [] [] [] []]; try done. }
    destruct (Pattern.span_spec is_space r) as (Hr & Hw & _).
    destruct (span is_space r) as [w r2]. cbn in H, Hr, Hw.
    destruct (decimal r2) as [[h2 r3]|] eqn:E2; [|done].
    destruct r3; [|done]. inversion H; subst h1 h2.
    apply Pattern.decimal_sound in E1 as (a & b & Ha & Hb & _ & Hg1 & Hline).
    apply Pattern.decimal_sound in E2 as (c & d & Hc & Hd & _ & Hg2 & Hr2).
    exists a, b, w, c, d. repeat split; try done.
    rewrite Hline. f_equal. change ("," ++ w ++ g2)%string with (String "," (w ++ g2)).
    f_equal. rewrite Hr, Hr2. by rewrite string_app_nil_r.
  - intros (a & b & w & c & d & Ha & Hb & Hw & Hc & Hd & -> & -> & ->).
    assert (decimal (c ++ "." ++ d) = Some ((c ++ "." ++ d)%string, ""%string)) as Hdec2.
    { pose proof (Pattern.decimal_complete c d "" Hc Hd eq_refl) as Hdec.
      by rewrite string_app_nil_r in Hdec. }
    assert (Pattern.stops is_space (c ++ "." ++ d) = true) as Hstop.
    { unfold Pattern.digits in Hc. apply andb_true_iff in Hc as [Hc1 Hc2].
      destruct c as [|x c]; [done|]. cbn in Hc2.
      apply andb_true_iff in Hc2 as [Hx _].
      change (String x c ++ "." ++ d)%string with (String x (c ++ "." ++ d)).
      cbn [Pattern.stops].
      destruct x as [[] [] [] [] [] [] [] []]; done. }
    assert (decimal (a ++ "." ++ b ++ String "," (w ++ c ++ "." ++ d))
            = Some ((a ++ "." ++ b)%string, String "," (w ++ c ++ "." ++ d))) as Hdec1
      by (by apply Pattern.decimal_complete).
    assert (((a ++ "." ++ b) ++ "," ++ w ++ c ++ "." ++ d)%string
            = (a ++ "." ++ b ++ String "," (w ++ c ++ "." ++ d))%string) as ->.
    { change ("," ++ w ++ c ++ "." ++ d)%string with (String "," (w ++ c ++ "." ++ d)).
      by rewrite !string_app_assoc. }
    unfold sensor_match. rewrite Hdec1.
    rewrite (Pattern.span_app is_space w _ Hw Hstop). cbn [snd].
    by rewrite Hdec2.
Qed.

(** X5. One response line serves every waiting read: a nonempty response
    removes all [once] listeners, clears the timer of each read that was
    listening, settles each of them that was still unsettled with the same
    verdict on that line, and leaves the link not busy. *)
Theorem X5_one_response_settles_every_waiting_read :
  ∀ (parseFloat : string → float) (l : Link.link) (response : string),
    truthy response = true →
    let l' := Link.processResponse parseFloat response l in
    Link.onceResponse l' = [] ∧
    Link.busy l' = false ∧
    (∀ id, id ∈ Link.onceResponse l → Link.settled l !! id = None →
           Link.settled l' !! id = Some (Link.verdict parseFloat response)) ∧
    (∀ id tm, id ∈ Link.onceResponse l → tm ∈ Link.timers l' →
              Link.action tm ≠ Link.ReadTimeoutOf id).
Proof.
  intros pf l response Ht l'. unfold l', Link.processResponse. rewrite Ht.
  rewrite Reads.emitResponse_conclude.
  destruct (Reads.conclude_fold_frame (Link.verdict pf response)
              (Link.onceResponse (Link.set_isBusy l false))
              (Link.set_onceResponse (Link.set_isBusy l false) []))
    as (Hdev & _ & _ & Honce & _).
  split; [by rewrite Honce|]. split; [unfold Link.busy; by rewrite Hdev|]. split.
  - intros id Hin Hnone. rewrite Reads.conclude_fold_settled. cbn.
    rewrite Hnone. by rewrite bool_decide_eq_true_2.
  - intros id tm Hin Htm. apply Reads.conclude_fold_timers in Htm as [_ Hall].
    by apply Hall.
Qed.

(** X5 with two reads waiting: the one sensor line resolves both. *)
Lemma X5_witness_two_reads :
  Link.settled (Link.processResponse parseDecimal "0.25, 1.5" two_awaiting) !! 0%nat
  = Some (Link.Resolved (Detector.Reading 0.25 1.5)) ∧
  Link.settled (Link.processResponse parseDecimal "0.25, 1.5" two_awaiting) !! 1%nat
  = Some (Link.Resolved (Detector.Reading 0.25 1.5)).
Proof.
  destruct (X5_one_response_settles_every_waiting_read parseDecimal two_awaiting
              "0.25, 1.5" eq_refl) as (_ & _ & Hsettled & _).
  split.
  - rewrite (Hsettled 0%nat); [vm_compute; reflexivity|compute_done|reflexivity].
  - rewrite (Hsettled 1%nat); [vm_compute; reflexivity|compute_done|reflexivity].
Defined.

(** X6. The timeout of a read is final, and its listener outlives it: once
    the 5000 ms have passed, the read is rejected with the timeout error
    but its [once] listener for responses is still registered; a response
    that arrives later removes that listener and leaves the outcome as it
    is. *)
Theorem X6_timeout_is_final :
  ∀ (parseFloat : string → float) (l : Link.link) (id : nat) (deadline d : Z)
    (response : string),
    Link.pending id deadline l → deadline ≤ Link.now l + d →
    let timed_out := Link.elapse d l in
    let l' := Link.processResponse parseFloat response timed_out in
    Link.settled timed_out !! id = Some (Link.Rejected Link.ReadTimeout) ∧
    id ∈ Link.onceResponse timed_out ∧
    Link.settled l' !! id = Some (Link.Rejected Link.ReadTimeout) ∧
    (truthy response = true → Link.onceResponse l' = []).
Proof.
  intros pf l id deadline d response Hp Hd timed_out l'.
  destruct (Link.pending_timeout id deadline d l Hp Hd) as [Hto _].
  fold timed_out in Hto. split; [done|]. split.
  - destruct Hp as (_ & Hin & _). unfold timed_out, Link.elapse.
    match goal with |- _ ∈ Link.onceResponse (fold_left _ ?tms ?l0) =>
      destruct (Link.fire_fold_frame tms l0) as (_ & _ & -> & _) end.
    done.
  - split.
    + unfold l', Link.processResponse. destruct (truthy response); [|done].
      rewrite Reads.emitResponse_conclude, Reads.conclude_fold_settled. cbn.
      by rewrite Hto.
    + intros Ht. unfold l', Link.processResponse. rewrite Ht.
      rewrite Reads.emitResponse_conclude.
      match goal with |- Link.onceResponse (fold_left _ ?ids ?l0) = _ =>
        by destruct (Reads.conclude_fold_frame (Link.verdict pf response) ids l0)
          as (_ & _ & _ & -> & _) end.
Qed.

(** X6 on a new link: the read times out after 5000 ms; the sensor line
    that arrives after that does not change its outcome. *)
Lemma X6_witness_late_line :
  Link.settled (Link.processResponse parseDecimal "0.25, 1.5"
                  (Link.elapse 5000 awaiting)) !! 0%nat
  = Some (Link.Rejected Link.ReadTimeout).
Proof.
  assert (Link.pending 0 5000 awaiting) as Hp.
  { apply (Link.awaitResponse_pending Link.new eq_refl).
    intros tm Htm. cbn in Htm. by apply not_elem_of_nil in Htm. }
  destruct (X6_timeout_is_final parseDecimal awaiting 0 5000 5000 "0.25, 1.5" Hp)
    as (_ & _ & Hfinal & _); [vm_compute; congruence|exact Hfinal].
Defined.

(** X7. An ['error'] event rejects every read that waits, with the error
    of the event: all [once] listeners for errors are removed, the timer of
    each read that was listening is cleared and each of them that was
    still unsettled is rejected with that error. Unlike a response, the
    event neither clears the busy flag nor removes the reads' listeners
    for responses, and the watchdog timers stay armed. *)
Theorem X7_error_event_rejects_waiting_reads :
  ∀ (l : Link.link) (message : string),
    let l' := Link.emitError message l in
    Link.onceError l' = [] ∧
    Link.onceResponse l' = Link.onceResponse l ∧
    Link.busy l' = Link.busy l ∧
    (∀ id, id ∈ Link.onceError l → Link.settled l !! id = None →
           Link.settled l' !! id = Some (Link.Rejected (Link.PortError message))) ∧
    (∀ id o, Link.settled l !! id = Some o → Link.settled l' !! id = Some o) ∧
    (∀ id tm, id ∈ Link.onceError l → tm ∈ Link.timers l' →
              Link.action tm ≠ Link.ReadTimeoutOf id) ∧
    (∀ tm, tm ∈ Link.timers l → Link.action tm = Link.Watchdog →
           tm ∈ Link.timers l').
Proof.
  intros l message l'. unfold l'. rewrite Reads.emitError_conclude.
  destruct (Reads.conclude_fold_frame (Link.Rejected (Link.PortError message))
              (Link.onceError l) (Link.set_onceError l []))
    as (Hdev & _ & _ & Hresp & Herr & _).
  split; [by rewrite Herr|]. split; [by rewrite Hresp|].
  split; [unfold Link.busy; by rewrite Hdev|]. split; [|split; [|split]].
  - intros id Hin Hnone. rewrite Reads.conclude_fold_settled. cbn.
    rewrite Hnone. by rewrite bool_decide_eq_true_2.
  - intros id o Hs. rewrite Reads.conclude_fold_settled. cbn. by rewrite Hs.
  - intros id tm Hin Htm. apply Reads.conclude_fold_timers in Htm as [_ Hall].
    by apply Hall.
  - intros tm Hin Ha. apply Reads.conclude_fold_timers. split; [done|].
    intros id _. by rewrite Ha.
Qed.



(** X9. The prompt loop of [selectPort] returns the port of the first
    answer that is a number from 1 to the number of ports and is confirmed
    with [y]: every answer before it is skipped, whether it is not a
    number, out of range or not confirmed. The loop itself never throws,
    and it keeps asking exactly as long as no such answer is given. *)
Theorem X9_promptLoop_first_valid_answer :
  ∀ (ports : list string) (answers : list (option Z * bool)),
    (∀ p, Link.promptLoop ports answers = Link.Returned p ↔
          ∃ pre n post,
            answers = pre ++ (Some n, true) :: post ∧
            Forall (λ a, Ports.valid ports a = false) pre ∧
            1 ≤ n ≤ Z.of_nat (length ports) ∧
            ports !! Z.to_nat (n - 1) = Some p) ∧
    (∀ e, Link.promptLoop ports answers ≠ Link.Thrown e) ∧
    (Link.promptLoop ports answers = Link.Waiting ↔
     Forall (λ a, Ports.valid ports a = false) answers).
Proof.
  intros ports answers. split; [|split].
  - intros p. split.
    + intros (pre & n & post & -> & Hpre & Hn & Hp)%Ports.promptLoop_Returned.
      exists pre, n, post. split; [done|]. split; [done|]. split; [|done].
      cbn in Hn. lia.
    + intros (pre & n & post & -> & Hpre & Hn & Hp).
      induction Hpre as [|a pre Ha Hpre IH]; cbn [app].
      * destruct (Ports.promptLoop_valid ports n post) as (q & Hq & ->);
          [cbn; lia|]. congruence.
      * by rewrite Ports.promptLoop_invalid.
  - intros e. apply Ports.promptLoop_not_Thrown.
  - split.
    + induction answers as [|a answers IH]; [by constructor|].
      destruct (Ports.valid ports a) eqn:Hv.
      * destruct a as [[n|] [|]]; try done.
        by destruct (Ports.promptLoop_valid ports n answers Hv) as (q & Hq & ->).
      * rewrite Ports.promptLoop_invalid by done. intros H. constructor; auto.
    + induction 1 as [|a answers Ha Hall IH]; [done|].
      by rewrite Ports.promptLoop_invalid.
Qed.

(** X10. [selectPort] returns only a port that is listed, and leaves that
    port cached in [savedPortPath]; a cached port that is listed is
    returned without asking the operator. It throws only 'No serial ports
    found', only when no port is listed, and it then leaves no usable
    cache; the same holds for the cache while the operator has not given
    a valid answer. *)
Theorem X10_selectPort_returns_listed_port_and_caches_it :
  ∀ (savedPortPath : option string) (a : Link.attempt),
    match Link.selectPort savedPortPath a with
    | (saved, Link.Returned p) => p ∈ Link.ports a ∧ saved = Some p
    | (saved, Link.Thrown e) =>
        e = Link.NoPortsFound ∧ Link.ports a = [] ∧ Ports.falsy saved
    | (saved, Link.Waiting) =>
        Link.ports a ≠ [] ∧
        Link.promptLoop (Link.ports a) (Link.answers a) = Link.Waiting ∧
        Ports.falsy saved
    end ∧
    (∀ s, savedPortPath = Some s → truthy s = true → s ∈ Link.ports a →
          Link.selectPort savedPortPath a = (Some s, Link.Returned s)).
Proof.
  intros saved a. split; [apply Ports.selectPort_spec|].
  intros s -> Ht Hin. unfold Link.selectPort. rewrite Ht.
  by rewrite bool_decide_eq_true_2.
Qed.

(** X11. Whatever the passes of [initialize] meet: when it returns, the
    port is open, its path is the cached one, and that port was listed and
    opened on one of the passes made; when it throws, the error is 'No
    serial ports found' and the cache differs from the path the object
    holds, so a failure to open the port is never what the caller sees.
    The reconnect counter is as it was in every case. *)
Theorem X11_initialize_outcomes :
  ∀ (fuel : nat) (env : nat → Link.attempt) (k : nat)
    (savedPortPath : option string) (d : Link.device),
    match Link.initialize fuel env k savedPortPath d with
    | Some (saved, d', r) =>
        Link.reconnectAttempts d' = Link.reconnectAttempts d ∧
        match r with
        | Link.Returned _ =>
            Link.port d' = Some true ∧ Link.portPath d' = saved ∧
            ∃ (j : nat) p, (k ≤ j < k + fuel)%nat ∧ saved = Some p ∧
                   p ∈ Link.ports (env j) ∧ Link.opens (env j) = true
        | Link.Thrown e =>
            e = Link.NoPortsFound ∧ saved ≠ Link.portPath d' ∧
            ∃ j : nat, (k ≤ j < k + fuel)%nat ∧ Link.ports (env j) = []
        | Link.Waiting => True
        end
    | None => True
    end.
Proof.
  induction fuel as [|fuel IH]; intros env k saved d; cbn [Link.initialize]; [done|].
  pose proof (Ports.tryInitialize_spec saved (env k) d) as Ht.
  destruct (Link.tryInitialize saved (env k) d) as [[saved' d'] [[]|e|]].
  - destruct Ht as (Hr & Hport & Hpath & Hopen & p & -> & Hin).
    split; [done|]. split; [done|]. split; [done|].
    exists k, p. split; [lia|]. done.
  - destruct Ht as [Hr Ht].
    destruct (decide (saved' = Link.portPath d')) as [Heq|Hne].
    + specialize (IH env (S k) None d').
      destruct (Link.initialize fuel env (S k) None d') as [[[saved2 d2] r]|]; [|done].
      destruct IH as [Hr2 IH]. split; [congruence|].
      destruct r as [[]|e2|]; [| |done].
      * destruct IH as (? & ? & j & p & ? & ? & ? & ?).
        split; [done|]. split; [done|]. exists j, p. split; [lia|]. done.
      * destruct IH as (? & ? & j & ? & ?).
        split; [done|]. split; [done|]. exists j. split; [lia|done].
    + split; [done|]. destruct e; try done.
      split; [done|]. split; [done|]. exists k. split; [lia|done].
  - by destruct Ht.
Qed.

(** X12. The reconnect counter is never reset: it is changed by
    [handlePortError] alone, and a pass of [initialize] or a [close],
    successful or not, leaves it as it is. So over the life of an object,
    whatever happens between its port errors, the first three errors each
    start a reinitialization and no later one does. *)
Theorem X12_reconnections_bounded_for_life :
  ∀ (ops : list Ports.op) (d : Link.device),
    snd (Ports.lifetime ops d)
    = Nat.min (Ports.errors ops)
              (Link.maxReconnectAttempts - Link.reconnectAttempts d) ∧
    Link.reconnectAttempts (fst (Ports.lifetime ops d))
    = (Link.reconnectAttempts d + snd (Ports.lifetime ops d))%nat.
Proof.
  induction ops as [|o ops IH]; intros d; [cbn; split; lia|].
  cbn [Ports.lifetime].
  assert (∀ d1, Link.reconnectAttempts d1 = Link.reconnectAttempts d →
    o ≠ Ports.PortErrorEvent →
    snd (let '(d2, rest) := Ports.lifetime ops d1 in (d2, (0 + rest)%nat))
    = Nat.min (Ports.errors ops)
              (Link.maxReconnectAttempts - Link.reconnectAttempts d) ∧
    Link.reconnectAttempts
      (fst (let '(d2, rest) := Ports.lifetime ops d1 in (d2, (0 + rest)%nat)))
    = (Link.reconnectAttempts d
       + snd (let '(d2, rest) := Ports.lifetime ops d1 in (d2, (0 + rest)%nat)))%nat)
    as Hkeep.
  { intros d1 Hd1 _. destruct (IH d1) as [H1 H2].
    destruct (Ports.lifetime ops d1) as [d2 rest]. cbn in *.
    rewrite <- Hd1. split; [done|lia]. }
  destruct o as [|saved a|]; cbn [Ports.perform Ports.errors].
  - unfold Link.handlePortError.
    destruct (Nat.ltb_spec (Link.reconnectAttempts d) Link.maxReconnectAttempts)
      as [Hlt|Hge].
    + match goal with |- context [Ports.lifetime ops ?d0] =>
        destruct (IH d0) as [H1 H2]; destruct (Ports.lifetime ops d0) as [d2 rest] end.
      unfold Link.maxReconnectAttempts in *.
      cbn [fst snd Link.reconnectAttempts] in *. split; lia.
    + destruct (IH d) as [H1 H2]. destruct (Ports.lifetime ops d) as [d2 rest].
      unfold Link.maxReconnectAttempts in *.
      cbn [fst snd Link.reconnectAttempts] in *. split; lia.
  - apply Hkeep; [|done].
    pose proof (Ports.tryInitialize_spec saved a d) as Ht.
    destruct (Link.tryInitialize saved a d) as [[saved' d'] r]. by destruct Ht.
  - apply Hkeep; [|done].
    apply Ports.close_reconnectAttempts.
Qed.




(** X16. However [calibrate] ends: when it returns, it has made exactly 40
    reads, all resolved, and asked five times; the white and black levels
    of each sensor are the averages of the sensor's own channel over its
    ten reads, white before black and sensor 1 before sensor 2; each
    threshold is half the distance between the two levels; the detection
    state is untouched; and the calibration saved is the one the detector
    now holds. When it throws, what it throws is the rejection of the last
    read made, and the saved calibration is as it was; the same holds for
    the saved calibration while the operator has not answered. *)
Theorem X16_calibrate_outcomes :
  ∀ (sensor_reads : nat → Link.outcome) (w : Calibration.world),
    let k := Calibration.reads w in
    let level i n := Some (Calibration.average (Calibration.values sensor_reads i n 10)) in
    match Calibration.calibrate sensor_reads w with
    | (Calibration.Returned b, w') =>
        let d := Calibration.detector w in
        let d' := Calibration.detector w' in
        b = true ∧
        Calibration.all_resolved sensor_reads k 40 ∧
        Calibration.reads w' = (k + 40)%nat ∧
        (Calibration.enters w' + 5)%nat = Calibration.enters w ∧
        Detector.whiteValue d' = Arr2 (level Sensor1 k) (level Sensor2 (k + 20)%nat) ∧
        Detector.blackValue d'
        = Arr2 (level Sensor1 (k + 10)%nat) (level Sensor2 (k + 30)%nat) ∧
        (∀ i, ∃ white black,
           get (Detector.whiteValue d') i = Some white ∧
           get (Detector.blackValue d') i = Some black ∧
           get (Detector.threshold d') i
           = Some (Detector.absdiff white black * 0.5)%float) ∧
        Detector.isOn d' = Detector.isOn d ∧ Detector.wasOn d' = Detector.wasOn d ∧
        Detector.lastValue d' = Detector.lastValue d ∧
        Detector.blinkCount d' = Detector.blinkCount d ∧
        Calibration.savedCalibration w' = Calibration.snapshot d' ∧
        Calibration.hasSavedCalibration (Calibration.savedCalibration w') = true
    | (Calibration.Thrown e, w') =>
        Calibration.savedCalibration w' = Calibration.savedCalibration w ∧
        ∃ e', e = Calibration.ReadError e' ∧
              sensor_reads (pred (Calibration.reads w')) = Link.Rejected e' ∧
              (k < Calibration.reads w' ≤ k + 40)%nat
    | (Calibration.Waiting, w') =>
        Calibration.savedCalibration w' = Calibration.savedCalibration w ∧
        (Calibration.enters w < 5)%nat
    end.
Proof.
  intros sensor_reads w k level.
  pose proof (Calibration.calibrate_spec sensor_reads w) as H.
  destruct (Calibration.calibrate sensor_reads w) as [[b|e|] w'];
    unfold Calibration.ends in H; [|exact H|exact H].
  destruct H as (-> & Hd & Hall & Hs & Hr & He). cbn zeta.
  split; [done|]. split; [done|]. split; [done|]. split; [done|].
  rewrite Hs, Hd. split; [done|]. split; [done|]. split.
  { intros [|]; eexists _, _; (split; [reflexivity|split; reflexivity]). }
  split; [done|]. split; [done|]. split; [done|]. split; [done|]. split; [done|].
  apply Calibration.hasSavedCalibration_calibrated.
Qed.

(** X17. [calibrate] returns [true] with a calibration saved whenever the
    operator answers its five prompts and the forty reads it makes are
    resolved. *)
Theorem X17_calibrate_succeeds :
  ∀ (sensor_reads : nat → Link.outcome) (w : Calibration.world),
    (5 ≤ Calibration.enters w)%nat →
    (∀ j, (j < 40)%nat →
          ∃ reading, sensor_reads (Calibration.reads w + j)%nat = Link.Resolved reading) →
    ∃ w',
      Calibration.calibrate sensor_reads w = (Calibration.Returned true, w') ∧
      Calibration.hasSavedCalibration (Calibration.savedCalibration w') = true ∧
      Calibration.reads w' = (Calibration.reads w + 40)%nat.
Proof.
  intros sensor_reads w Henters Hreads.
  pose proof (Calibration.calibrate_spec sensor_reads w) as H.
  pose proof (Calibration.calibrate_saved sensor_reads w) as Hsaved.
  destruct (Calibration.calibrate sensor_reads w) as [[b|e|] w'];
    unfold Calibration.ends in H.
  - destruct H as (-> & _ & _ & _ & Hr & _). exists w'. by destruct Hsaved.
  - destruct H as (_ & e' & _ & Hrej & Hlt).
    destruct (Hreads (pred (Calibration.reads w') - Calibration.reads w)%nat) as [r Hr];
      [lia|].
    replace (Calibration.reads w + (pred (Calibration.reads w') - Calibration.reads w))%nat
      with (pred (Calibration.reads w')) in Hr by lia.
    congruence.
  - destruct H as [_ H]. lia.
Qed.

(** X17 where the operator shows the screens: a new detector comes out
    calibrated after forty reads. *)
Lemma X17_witness_shown_screens :
  ∃ w',
    Calibration.calibrate shown_screens uncalibrated = (Calibration.Returned true, w') ∧
    Calibration.hasSavedCalibration (Calibration.savedCalibration w') = true ∧
    Calibration.reads w' = 40%nat.
Proof.
  apply (X17_calibrate_succeeds shown_screens uncalibrated).
  - cbn. lia.
  - intros j _. eexists. reflexivity.
Defined.

(** X18. A saved calibration comes back as it was saved: a detector that
    is initialized while the calibration of a calibrated detector is saved
    takes over its white levels, black levels and thresholds, with one
    verification read, without asking the operator, keeping its own
    detection state and leaving the saved calibration in place. *)
Theorem X18_saved_calibration_round_trip :
  ∀ (sensor_reads : nat → Link.outcome) (d : Detector.detector)
    (w : Calibration.world) (reading : Detector.reading),
    Calibration.printable d = true →
    sensor_reads (Calibration.reads w) = Link.Resolved reading →
    let saved := Calibration.snapshot d in
    let w0 := {| Calibration.detector := Calibration.detector w;
                 Calibration.savedCalibration := saved;
                 Calibration.reads := Calibration.reads w;
                 Calibration.enters := Calibration.enters w |} in
    ∃ w',
      Calibration.initialize sensor_reads w0 = (Calibration.Returned (), w') ∧
      let d0 := Calibration.detector w in
      let d' := Calibration.detector w' in
      Detector.whiteValue d' = Detector.whiteValue d ∧
      Detector.blackValue d' = Detector.blackValue d ∧
      Detector.threshold d' = Detector.threshold d ∧
      Detector.isOn d' = Detector.isOn d0 ∧ Detector.wasOn d' = Detector.wasOn d0 ∧
      Detector.lastValue d' = Detector.lastValue d0 ∧
      Detector.blinkCount d' = Detector.blinkCount d0 ∧
      Calibration.savedCalibration w' = saved ∧
      Calibration.reads w' = S (Calibration.reads w) ∧
      Calibration.enters w' = Calibration.enters w.
Proof.
  intros sensor_reads d w reading Hp Hr saved w0.
  unfold Calibration.initialize, w0. cbn [Calibration.savedCalibration].
  unfold saved. rewrite (Calibration.printable_hasSavedCalibration d Hp).
  unfold Calibration.loadCalibration.
  cbn [Calibration.savedCalibration Calibration.detector Calibration.reads
       Calibration.enters].
  assert (Calibration.printable
            (Calibration.restore (Calibration.snapshot d) (Calibration.detector w))
          = true) as -> by exact Hp.
  unfold Calibration.ReadSensor. cbn [Calibration.reads]. rewrite Hr.
  eexists. split; [reflexivity|]. cbn. done.
Qed.

(** X18 with the calibration that [calibrate] saved for the screens
    shown. *)
Lemma X18_witness_second_detector :
  ∃ w',
    Calibration.initialize shown_screens
      {| Calibration.detector := Detector.new;
         Calibration.savedCalibration :=
           Calibration.savedCalibration (snd (Calibration.calibrate shown_screens uncalibrated));
         Calibration.reads := 40; Calibration.enters := 0 |}
    = (Calibration.Returned (), w') ∧
    Detector.threshold (Calibration.detector w') = Arr2 (Some 0.25%float) (Some 0.1875%float).
Proof.
  destruct (X18_saved_calibration_round_trip shown_screens
              (Calibration.detector (snd (Calibration.calibrate shown_screens uncalibrated)))
              {| Calibration.detector := Detector.new;
                 Calibration.savedCalibration := Calibration.cleared;
                 Calibration.reads := 40; Calibration.enters := 0 |}
              (Detector.Reading 0.75 0.5))
    as (w' & Hinit & _ & _ & Hthr & _).
  - vm_compute. reflexivity.
  - reflexivity.
  - exists w'. split; [exact Hinit|]. rewrite Hthr. vm_compute. reflexivity.
Defined.

(** X19. After [initialize] or [recalibrate] has returned, a calibration
    is saved and it is the one the detector holds. When [initialize] does
    not return, the saved calibration is as it was or has been discarded
    (after a failed verification read); [recalibrate] discards it before
    it calibrates, so a recalibration that fails leaves nothing saved. *)
Theorem X19_initialize_leaves_detector_and_saved_in_agreement :
  ∀ (sensor_reads : nat → Link.outcome) (w : Calibration.world),
    match Calibration.initialize sensor_reads w with
    | (Calibration.Returned _, w') =>
        Calibration.hasSavedCalibration (Calibration.savedCalibration w') = true ∧
        Calibration.snapshot (Calibration.detector w') = Calibration.savedCalibration w'
    | (_, w') =>
        Calibration.savedCalibration w' = Calibration.savedCalibration w ∨
        Calibration.savedCalibration w' = Calibration.cleared
    end ∧
    match Calibration.recalibrate sensor_reads w with
    | (Calibration.Returned _, w') =>
        Calibration.hasSavedCalibration (Calibration.savedCalibration w') = true ∧
        Calibration.snapshot (Calibration.detector w') = Calibration.savedCalibration w'
    | (_, w') => Calibration.savedCalibration w' = Calibration.cleared
    end.
Proof.
  intros sensor_reads w. split.
  - unfold Calibration.initialize.
    destruct (Calibration.hasSavedCalibration (Calibration.savedCalibration w)) eqn:Eh.
    + unfold Calibration.loadCalibration.
      cbn [Calibration.savedCalibration Calibration.detector Calibration.reads
           Calibration.enters].
      destruct (Calibration.printable _); [|by left].
      unfold Calibration.ReadSensor. cbn [Calibration.reads].
      destruct (sensor_reads (Calibration.reads w)) as [reading|e].
      * cbn. split; [done|]. apply Calibration.snapshot_restore.
      * unfold mbind, Calibration.M_bind, Calibration.clearSavedCalibration,
          Calibration.setSaved. cbv beta iota.
        match goal with |- context [Calibration.calibrate sensor_reads ?w0] =>
          pose proof (Calibration.calibrate_saved sensor_reads w0) as H;
          destruct (Calibration.calibrate sensor_reads w0) as [[b|e0|] w'] end;
          cbn in H |- *; [done|by right|by right].
    + unfold mbind, Calibration.M_bind.
      pose proof (Calibration.calibrate_saved sensor_reads w) as H.
      destruct (Calibration.calibrate sensor_reads w) as [[b|e0|] w'];
        cbn in H |- *; [done|by left|by left].
  - unfold Calibration.recalibrate, mbind, Calibration.M_bind,
      Calibration.clearSavedCalibration, Calibration.setSaved. cbv beta iota.
    match goal with |- context [Calibration.calibrate sensor_reads ?w0] =>
      pose proof (Calibration.calibrate_saved sensor_reads w0) as H;
      destruct (Calibration.calibrate sensor_reads w0) as [[b|e0|] w'] end;
      cbn in H |- *; done.
Qed.

(** X20. Throughout a run of a new, initialized and started controller in
    which the encoder opens each target once: the current segment is the
    target opened last; its file exists and it is not in the retention
    queue, so no cleanup deletes the file being written; the file of every
    marked segment exists, whatever cleanups have run; and only targets
    the encoder opened are marked or queued. *)
Theorem X20_current_and_marked_files_survive_the_run :
  ∀ (clock : nat → Z) (dir : string) (fs : gset fpath) (evs : list Recorder.event),
    NoDup (Recorder.opened evs) →
    let w := Recorder.run clock (Recorder.start clock dir fs) evs in
    Recorder.currentSegment (Recorder.ctl w) = last (Recorder.opened evs) ∧
    (∀ cur, Recorder.currentSegment (Recorder.ctl w) = Some cur →
            cur ∈ Recorder.files w ∧
            cur ∉ Recorder.path <$> Recorder.videoQueue (Recorder.ctl w)) ∧
    (∀ p, p ∈ Recorder.segmentsWithBlinks (Recorder.ctl w) →
          p ∈ Recorder.files w ∧ p ∈ Recorder.opened evs) ∧
    (∀ s, s ∈ Recorder.videoQueue (Recorder.ctl w) →
          Recorder.path s ∈ Recorder.opened evs).
Proof.
  intros clock dir fs evs Hnd w.
  assert (Recorder.inv dir (list_to_set (Recorder.opened evs) ∪ ∅) w) as Hinv.
  { apply Recorder.run_inv; [apply Recorder.start_inv|done|set_solver]. }
  destruct Hinv as [_ _ _ Hm Hc Hq].
  split; [|split; [|split]].
  - unfold w. clear. induction evs as [|e evs IH] using rev_ind; [done|].
    rewrite RunFacts.run_snoc, RunFacts.opened_snoc.
    destruct (RunFacts.step_paths clock
                (Recorder.run clock (Recorder.start clock dir fs) evs) e) as [-> _].
    destruct e as [p| |]; cbn [Recorder.opened omap list_omap].
    + by rewrite last_snoc.
    + by rewrite app_nil_r.
    + by rewrite app_nil_r.
  - intros cur Hcur. destruct (Hc cur Hcur) as (? & ? & ?). done.
  - intros p Hp. destruct (Hm p Hp) as [? Hs]. split; [done|]. set_solver.
  - intros s Hs. specialize (Hq s Hs). set_solver.
Qed.

(** X20 on the short run: the second target is current and its file is
    there. *)
Lemma X20_witness_short_run :
  let w := Recorder.run slow_clock (Recorder.start slow_clock "BlinkVideos" ∅) short_run in
  Recorder.currentSegment (Recorder.ctl w) = Some segment_001 ∧
  segment_001 ∈ Recorder.files w.
Proof.
  intros w.
  destruct (X20_current_and_marked_files_survive_the_run slow_clock "BlinkVideos" ∅
              short_run) as (Hcur & Hfile & _); [compute_done|].
  fold w in Hcur, Hfile. split; [exact Hcur|].
  by destruct (Hfile segment_001 Hcur).
Defined.

(** X21. The retention queue holds closed segments only, in the order the
    encoder opened them and each at most as often as it was opened: at any
    point of a run the paths queued are a suffix of the targets opened
    before the current one (those with a nonempty path). Cleanup removes
    from the front and nothing is ever queued before it is closed. *)
Theorem X21_queue_is_suffix_of_closed_segments :
  ∀ (clock : nat → Z) (dir : string) (fs : gset fpath) (evs : list Recorder.event),
    let w := Recorder.run clock (Recorder.start clock dir fs) evs in
    (Recorder.path <$> Recorder.videoQueue (Recorder.ctl w))
      `suffix_of`
      filter (λ p, truthy_path p = true) (removelast (Recorder.opened evs)).
Proof.
  intros clock dir fs evs. cbn zeta.
  assert (Recorder.currentSegment
            (Recorder.ctl (Recorder.run clock (Recorder.start clock dir fs) evs))
          = last (Recorder.opened evs) ∧
          (Recorder.path <$> Recorder.videoQueue
             (Recorder.ctl (Recorder.run clock (Recorder.start clock dir fs) evs)))
            `suffix_of`
            filter (λ p, truthy_path p = true) (removelast (Recorder.opened evs)))
    as [_ H]; [|exact H].
  induction evs as [|e evs [IHc IHq]] using rev_ind; [done|].
  rewrite RunFacts.run_snoc, RunFacts.opened_snoc.
  destruct (RunFacts.step_paths clock
              (Recorder.run clock (Recorder.start clock dir fs) evs) e) as [-> Hsuf].
  destruct e as [p| |]; cbn [Recorder.opened omap list_omap] in *.
  - rewrite last_snoc. split; [done|]. rewrite removelast_last.
    etrans; [exact Hsuf|]. rewrite IHc.
    destruct (Recorder.opened evs) as [|q l _] using rev_ind.
    + cbn. by rewrite app_nil_r.
    + rewrite last_snoc, removelast_last in *. rewrite filter_app.
      destruct (truthy_path q) eqn:Et.
      * rewrite filter_cons, decide_True by done. cbn [filter list_filter].
        by apply suffix_app.
      * rewrite filter_cons, decide_False by congruence. by rewrite !app_nil_r.
  - rewrite !app_nil_r in *. split; [done|]. by etrans.
  - rewrite !app_nil_r in *. split; [done|]. by etrans.
Qed.

(** X22. [initialize] leaves exactly the files that are not [.mp4] files
    of the output directory; a second call changes nothing more. The
    videos a previous run kept under a [blink_] name are among the files
    it deletes. *)
Theorem X22_initialize_empties_output_directory :
  ∀ (w : Recorder.world),
    let dir := Recorder.outputDir (Recorder.ctl w) in
    (∀ x, x ∈ Recorder.files (Recorder.initialize w) ↔
          x ∈ Recorder.files w ∧
          ¬ (dirname x = dir ∧ endsWith (basename x) ".mp4" = true)) ∧
    Recorder.files (Recorder.initialize (Recorder.initialize w))
    = Recorder.files (Recorder.initialize w) ∧
    Recorder.ctl (Recorder.initialize w) = Recorder.ctl w ∧
    (∀ f, endsWith f ".mp4" = true →
          path_join dir ("blink_" ++ f) ∉ Recorder.files (Recorder.initialize w)).
Proof.
  intros w dir.
  assert (∀ w0 x, x ∈ Recorder.files (Recorder.initialize w0) ↔
            x ∈ Recorder.files w0 ∧
            ¬ (dirname x = Recorder.outputDir (Recorder.ctl w0) ∧
               endsWith (basename x) ".mp4" = true)) as Helem.
  { intros w0 x. unfold Recorder.initialize. cbn [Recorder.files].
    apply Recorder.cleanOutputDirectory_elem. }
  split; [apply Helem|]. split; [|split; [done|]].
  - apply set_eq. intros x. rewrite (Helem (Recorder.initialize w)), (Helem w).
    cbn [Recorder.initialize Recorder.ctl]. naive_solver.
  - intros f Hmp4 Hin. apply Helem in Hin as [_ Hno]. apply Hno.
    split; [done|]. cbn. by apply RunFacts.endsWith_app.
Qed.

(** X23. Cleanups compose: a cleanup at some instant followed by a cleanup
    at a later (or the same) instant leaves the queue and the files that
    the later cleanup alone would have left. So the periodic cleanups decide
    when a file is deleted, never which files are left at a later
    cleanup, and repeating a cleanup at the same instant changes nothing. *)
Theorem X23_cleanups_compose :
  ∀ (now1 now2 : Z) (c : Recorder.controller) (fs : gset fpath),
    now1 ≤ now2 →
    let '(c1, fs1) := Recorder.performCleanup now1 c fs in
    Recorder.performCleanup now2 c1 fs1 = Recorder.performCleanup now2 c fs.
Proof.
  intros now1 now2 c fs Hle. unfold Recorder.performCleanup.
  pose proof (RunFacts.cleanupLoop_compose now1 now2 (Recorder.retentionPeriod c)
                (Recorder.segmentsWithBlinks c) (Recorder.videoQueue c) fs Hle) as H.
  destruct (Recorder.cleanupLoop now1 _ _ _ fs) as [q1 fs1]. cbn [fst snd] in H.
  cbn. unfold Recorder.retentionPeriod in *. cbn. rewrite H.
  by destruct (Recorder.cleanupLoop now2 _ _ _ fs).
Qed.

(** X23 on the queue with a marked first segment: a cleanup at 70 s after
    one at 61 s is the cleanup at 70 s. *)
Lemma X23_witness_marked_first :
  let '(c1, fs1) := Recorder.performCleanup 61000 marked_first {[segment_000; segment_001]} in
  Recorder.performCleanup 70000 c1 fs1
  = Recorder.performCleanup 70000 marked_first {[segment_000; segment_001]}.
Proof.
  apply (X23_cleanups_compose 61000 70000 marked_first {[segment_000; segment_001]}).
  lia.
Defined.

(** X24. The single-channel [FlickerDetector] compares the signed change
    with its threshold, the calibrated detector the magnitude of the
    change. Fed the values of one channel of the same readings, with the
    same threshold for that channel, the two store the same last value
    and evaluate the same readings, and whenever the single-channel one
    is on, the calibrated one is on for that channel. *)
Theorem X24_single_channel_detector_is_stricter :
  ∀ (i : sensor) (readings : list Detector.reading)
    (s : Single.detector) (d : Detector.detector),
    Single.follows i s d →
    Single.follows i (Single.feed s ((λ r, Detector.value r i) <$> readings))
                     (Detector.feed d readings).
Proof.
  intros i readings. induction readings as [|r readings IH]; intros s d H; [done|].
  cbn [fmap list_fmap]. unfold Single.feed, Detector.feed. cbn [fold_left].
  apply IH. by apply Single.detectStateChange_follows.
Qed.

(** X24 from the constructors, with both thresholds at 0.75: a rise by 1
    turns both on. *)
Lemma X24_witness_rise :
  Single.follows Sensor1
    (Single.feed Single.new [0.25%float; 1.25%float])
    (Detector.feed (calibrated 0.75)
       [Detector.Reading 0.25 0; Detector.Reading 1.25 0]) ∧
  Single.isOn (Single.feed Single.new [0.25%float; 1.25%float]) = true.
Proof.
  split; [|vm_compute; reflexivity].
  apply (X24_single_channel_detector_is_stricter Sensor1
           [Detector.Reading 0.25 0; Detector.Reading 1.25 0] Single.new (calibrated 0.75)).
  unfold Single.follows. cbn. split; [reflexivity|]. split; [reflexivity|]. congruence.
Defined.

(** X25. Comparing a snapshot with itself reports no change, whatever the
    snapshot: nothing added, nothing removed, nothing modified, also when
    several of its devices share an id. *)
Theorem X25_compareSnapshots_same_snapshot :
  ∀ (stringify : Snapshot.device → string) (snapshot : list Snapshot.device),
    Snapshot.compareSnapshots stringify snapshot snapshot
    = {| Snapshot.added := []; Snapshot.removed := []; Snapshot.modified := [] |}.
Proof.
  intros stringify snapshot. rewrite Snapshot.compareSnapshots_unfold.
  destruct (Snapshot.Map_spec snapshot) as (Hnd & _ & _).
  assert (∀ l, (∀ e, e ∈ l → e ∈ Snapshot.Map snapshot) →
               Snapshot.adds (Snapshot.Map snapshot) l = [] ∧
               Snapshot.rems (Snapshot.Map snapshot) l = [] ∧
               Snapshot.mods stringify (Snapshot.Map snapshot) l = []) as H.
  { induction l as [|[id d] l IH]; intros Hsub; [done|].
    destruct IH as (Ha & Hr & Hm); [intros e He; apply Hsub; by right|].
    assert (Snapshot.map_get (Snapshot.Map snapshot) id = Some d) as Hget.
    { apply Snapshot.map_get_elem; [done|]. apply Hsub. by left. }
    unfold Snapshot.adds, Snapshot.rems, Snapshot.mods, Snapshot.map_has in *.
    cbn [omap list_omap fst snd]. rewrite Hget, decide_True by done. cbn.
    by rewrite Ha, Hr, Hm. }
  destruct (H (Snapshot.Map snapshot)) as (-> & -> & ->); done.
Qed.

(** X26. Comparing in the other direction mirrors the report: the devices
    added from the first snapshot to the second are, in the same order,
    the devices removed from the second to the first, and a pair is
    reported as modified one way exactly when the swapped pair is reported
    the other way. *)
Theorem X26_compareSnapshots_mirror :
  ∀ (stringify : Snapshot.device → string) (snapshot1 snapshot2 : list Snapshot.device),
    let forth := Snapshot.compareSnapshots stringify snapshot1 snapshot2 in
    let back := Snapshot.compareSnapshots stringify snapshot2 snapshot1 in
    Snapshot.added forth = Snapshot.removed back ∧
    Snapshot.removed forth = Snapshot.added back ∧
    (∀ before after,
       (before, after) ∈ Snapshot.modified forth ↔
       (after, before) ∈ Snapshot.modified back).
Proof.
  intros stringify s1 s2. cbn zeta. rewrite !Snapshot.compareSnapshots_unfold.
  cbn [Snapshot.added Snapshot.removed Snapshot.modified].
  assert (∀ m l, Snapshot.adds m l = Snapshot.rems m l) as Hmirror.
  { intros m l. unfold Snapshot.adds, Snapshot.rems, Snapshot.map_has.
    induction l as [|e l IH]; [done|]. cbn [omap list_omap]. rewrite IH.
    by destruct (Snapshot.map_get m e.1). }
  split; [apply Hmirror|]. split; [by rewrite Hmirror|].
  intros before after. rewrite !Snapshot.mods_elem. split.
  - intros (Ha & Hb & Hne).
    rewrite (Snapshot.last_with_id _ _ _ Hb). done.
  - intros (Hb & Ha & Hne).
    rewrite (Snapshot.last_with_id _ _ _ Ha). done.
Qed.

(** X27. What the report holds, said with the snapshots: where several
    devices of a snapshot share an id, the last one stands for the id. A
    device is added when it stands for its id in the second snapshot and
    the first has no device with the id; removed when it stands for its id
    in the first and the second has none; and a pair is modified when the
    two stand for the same id in the first and the second snapshot and
    their JSON texts differ. *)
Theorem X27_compareSnapshots_report :
  ∀ (stringify : Snapshot.device → string) (snapshot1 snapshot2 : list Snapshot.device),
    let report := Snapshot.compareSnapshots stringify snapshot1 snapshot2 in
    (∀ d, d ∈ Snapshot.added report ↔
          Snapshot.last_with (Snapshot.InstanceId d) snapshot2 = Some d ∧
          Snapshot.InstanceId d ∉ Snapshot.InstanceId <$> snapshot1) ∧
    (∀ d, d ∈ Snapshot.removed report ↔
          Snapshot.last_with (Snapshot.InstanceId d) snapshot1 = Some d ∧
          Snapshot.InstanceId d ∉ Snapshot.InstanceId <$> snapshot2) ∧
    (∀ before after,
       (before, after) ∈ Snapshot.modified report ↔
       Snapshot.last_with (Snapshot.InstanceId after) snapshot2 = Some after ∧
       Snapshot.last_with (Snapshot.InstanceId after) snapshot1 = Some before ∧
       stringify before ≠ stringify after).
Proof.
  intros stringify s1 s2. cbn zeta. rewrite Snapshot.compareSnapshots_unfold.
  cbn [Snapshot.added Snapshot.removed Snapshot.modified].
  split; [|split].
  - intros d. apply Snapshot.adds_elem.
  - intros d. apply Snapshot.rems_elem.
  - intros before after. apply Snapshot.mods_elem.
Qed.

(** X28. The handler of ['run-recipe'] ends exactly as its commands let
    it. A request that arrives while a recipe runs is ignored and changes
    nothing. Otherwise the commands started are, in order, an initial part
    of the recipe repeated for the number of passes asked for (one pass
    without [loop], and with [loop] as many as [count] but at least one),
    and: if every command started returns or throws, the handler ends with
    both flags clear, also after an error; if a command started never
    returns, the handler never ends, [isRecipeRunning] stays set, and every
    later request is ignored. The loops themselves never run without
    end. *)
Theorem X28_runRecipe_ends_unless_a_command_hangs :
  ∀ (env : nat → Recipe.during) (commands : list string) (loop : bool) (count : Z)
    (early : bool) (s : Recipe.state),
    ∃ s' st,
      Recipe.runRecipe env commands loop count early s = Some (s', st) ∧
      if Recipe.isRecipeRunning s then s' = s ∧ st = Recipe.Ignored
      else
        (∃ done,
           Recipe.started s' = Recipe.started s ++ done ∧
           done `prefix_of`
             concat (replicate (Recipe.passes loop count 0)
                               (Recipe.destructure <$> commands))) ∧
        match st with
        | Recipe.Complete | Recipe.Failed _ =>
            Recipe.isRecipeRunning s' = false ∧ Recipe.shouldStopRecipe s' = false
        | Recipe.Pending =>
            Recipe.hangs env (Recipe.calls s) ∧
            Recipe.isRecipeRunning s' = true ∧
            ∀ env' commands' loop' count' early',
              Recipe.runRecipe env' commands' loop' count' early' s'
              = Some (s', Recipe.Ignored)
        | Recipe.Ignored => False
        end ∧
        ((∀ k, Recipe.settles (env k) ≠ Recipe.Pends) → st ≠ Recipe.Pending).
Proof.
  intros env commands loop count early s. unfold Recipe.runRecipe.
  destruct (Recipe.isRecipeRunning s) eqn:Erun; [by eexists _, _|].
  cbv zeta.
  match goal with |- context [Recipe.doWhile env ?f _ _ _ _ ?s0] =>
    destruct (Recipe.doWhile_spec env commands loop count f 0 s0)
      as (s1 & how & -> & Hrun & Hdone & Hstuck & _) end; [lia|lia|].
  cbn [Recipe.isRecipeRunning Recipe.calls Recipe.started] in *.
  destruct how as [|message|].
  - eexists _, _. split; [reflexivity|]. cbn. split; [done|]. split; [done|]. done.
  - eexists _, _. split; [reflexivity|]. cbn. split; [done|]. split; [done|]. done.
  - eexists _, _. split; [reflexivity|]. split; [done|]. split.
    + split; [by apply Hstuck|]. split; [done|].
      intros env' commands' loop' count' early'. by rewrite Hrun.
    + intros Hall _. destruct (Hstuck eq_refl) as (j & _ & Hp). by apply (Hall j).
Qed.

(** X29. A recipe that nothing disturbs runs in full: if no recipe is
    running, every command started returns without throwing and no stop is
    requested, the handler reports completion having started every command
    of the recipe, in order, once per pass; each command is split at its
    commas into the command name and the parameter, which is absent when
    there is no comma. *)
Theorem X29_undisturbed_recipe_runs_in_full :
  ∀ (env : nat → Recipe.during) (commands : list string) (loop : bool) (count : Z)
    (s : Recipe.state),
    Recipe.isRecipeRunning s = false →
    Recipe.quiet env (Recipe.calls s) →
    ∃ s',
      Recipe.runRecipe env commands loop count false s = Some (s', Recipe.Complete) ∧
      Recipe.isRecipeRunning s' = false ∧
      Recipe.started s'
      = Recipe.started s
        ++ concat (replicate (if loop then Z.to_nat (Z.max 1 count) else 1%nat)
                             (Recipe.destructure <$> commands)).
Proof.
  intros env commands loop count s Hrun Hquiet. unfold Recipe.runRecipe. rewrite Hrun.
  cbv zeta.
  match goal with |- context [Recipe.doWhile env ?f _ _ _ _ ?s0] =>
    destruct (Recipe.doWhile_spec env commands loop count f 0 s0)
      as (s1 & how & -> & _ & _ & _ & Hq) end; [lia|lia|].
  destruct Hq as [-> Hst]; [done|exact Hquiet|].
  eexists. split; [reflexivity|]. split; [done|]. cbn in *. rewrite Hst.
  unfold Recipe.passes. by rewrite Z.sub_0_r.
Qed.

(** X29 on a recipe of two commands looped twice; when the second command
    started never returns, the same recipe leaves the handler pending with
    [isRecipeRunning] set. *)
Lemma X29_witness_two_passes :
  (∃ s',
     Recipe.runRecipe undisturbed ["delay,500"; "wakeSystem"]%string true 2 false idle
     = Some (s', Recipe.Complete) ∧
     Recipe.started s'
     = [("delay", Some "500"); ("wakeSystem", None);
        ("delay", Some "500"); ("wakeSystem", None)]%string) ∧
  Recipe.runRecipe second_hangs ["delay,500"; "wakeSystem"]%string true 2 false idle
  = Some ({| Recipe.isRecipeRunning := true; Recipe.shouldStopRecipe := false;
             Recipe.calls := 2;
             Recipe.started := [("delay", Some "500"); ("wakeSystem", None)]%string |},
          Recipe.Pending).
Proof.
  split; [|vm_compute; reflexivity].
  destruct (X29_undisturbed_recipe_runs_in_full undisturbed
              ["delay,500"; "wakeSystem"]%string true 2 idle)
    as (s' & Hrun & _ & Hst).
  - reflexivity.
  - intros j _. split; reflexivity.
  - exists s'. split; [exact Hrun|]. rewrite Hst. vm_compute. reflexivity.
Defined.

(** X30. Stopping twice processes the videos once: when [stopRecording]
    has returned, the encoder handle and the cleanup interval are cleared
    and the queue is empty, so a second [stopRecording] (or [cleanup])
    returns at once, without reading the clock and without touching a
    file, a marking or the queue. *)
Theorem X30_stopRecording_twice :
  ∀ (clock : nat → Z) (fuel fuel' : nat) (w w' : Recorder.world),
    Recorder.stopRecording clock fuel w = Some w' →
    Recorder.bufferProcess (Recorder.ctl w') = false ∧
    Recorder.cleanupInterval (Recorder.ctl w') = false ∧
    Recorder.videoQueue (Recorder.ctl w') = [] ∧
    Recorder.stopRecording clock fuel' w' = Some w'.
Proof.
  intros clock fuel fuel' w w' Hstop. unfold Recorder.stopRecording in Hstop.
  cbv zeta in Hstop.
  match type of Hstop with Recorder.drain _ _ ?w2 = _ =>
    assert (Recorder.bufferProcess (Recorder.ctl w2) = false ∧
            Recorder.cleanupInterval (Recorder.ctl w2) = false) as [Hb2 Hi2] end.
  { destruct (Recorder.bufferProcess (Recorder.ctl w)) eqn:E1; cbn;
      destruct (Recorder.cleanupInterval (Recorder.ctl w)) eqn:E2; cbn;
      rewrite ?E1, ?E2; done. }
  apply Recorder.drain_frame in Hstop as (Hq & _ & Hb & _ & _ & Hi & _).
  rewrite Hb2 in Hb. rewrite Hi2 in Hi.
  split; [done|]. split; [done|]. split; [done|].
  unfold Recorder.stopRecording. rewrite Hb, Hi.
  destruct fuel'; cbn [Recorder.drain]; by rewrite Hq.
Qed.

(** X30 after the short run. *)
Lemma X30_witness_short_run :
  let w := Recorder.run slow_clock (Recorder.start slow_clock "BlinkVideos" ∅) short_run in
  let w' := default w (Recorder.stopRecording slow_clock 0 w) in
  Recorder.stopRecording slow_clock 0 w = Some w' ∧
  Recorder.stopRecording slow_clock 0 w' = Some w'.
Proof.
  intros w w'.
  assert (Recorder.stopRecording slow_clock 0 w = Some w') as Hstop
    by (vm_compute; reflexivity).
  split; [exact Hstop|].
  by destruct (X30_stopRecording_twice slow_clock 0 0 w w' Hstop) as (_ & _ & _ & ?).
Defined.
